(** * Surge-Geosite-Enhance: the build and publish scripts, embedded and verified

    The development follows the repository's scripts:
    - [Geosite]   scripts/build-geosite-json.mjs  (geosite.dat to per-category JSON)
    - [Geoip]     the geoip.dat to per-group JSON script (toIPv4String, toIPv6String, main)
    - [Srs]       scripts/build-srs.mjs           (category JSON to sing-box rule-sets)
    - [GeoipSrs]  the geoip rule-set builder with its worker pool (toHeadlessRule, runPool, main)
    - [SyncR2]    scripts/sync-r2.mjs             (manifest driven incremental upload)

    Built-ins of the JavaScript runtime the scripts call are gathered in [JS].
    Strings are [string]s of 8-bit characters; the case mapping and the white
    space class are those of ASCII.  Definitions come first, theorems after. *)

From Stdlib Require Import ZArith List Ascii String Strings.Byte Bool Lia.
From Stdlib Require Import DecimalString HexadecimalString.
From Stdlib Require DecimalZ DecimalPos.
From stdpp Require Import base list strings gmap sorting.

Local Open Scope string_scope.
Local Open Scope Z_scope.
Local Open Scope list_scope.

(* ================================================================== *)
(** * Part I: definitions *)
(* ================================================================== *)

(** ** Runtime built-ins *)
Module JS.

(** [if (s)] on a string: only the empty string is falsy. *)
Definition truthy (s : string) : bool := negb (String.eqb s "").

Definition lower_ascii (c : ascii) : ascii :=
  let n := nat_of_ascii c in
  if ((65 <=? n) && (n <=? 90))%nat then ascii_of_nat (n + 32) else c.

(** [s.toLowerCase()]. *)
Fixpoint toLowerCase (s : string) : string :=
  match s with
  | EmptyString => EmptyString
  | String c r => String (lower_ascii c) (toLowerCase r)
  end.

(** White space and line terminators removed by [trim]: TAB, LF, VT, FF, CR, SP. *)
Definition is_white_space (c : ascii) : bool :=
  let n := nat_of_ascii c in
  ((9 <=? n) && (n <=? 13) || (n =? 32))%nat.

Fixpoint trimStart (s : string) : string :=
  match s with
  | String c r => if is_white_space c then trimStart r else s
  | EmptyString => EmptyString
  end.

Definition trimEnd (s : string) : string := String.rev (trimStart (String.rev s)).

(** [s.trim()]. *)
Definition trim (s : string) : string := trimEnd (trimStart s).

(** [s.startsWith(p)]. *)
Definition startsWith (s p : string) : bool := String.prefix p s.

(** [s.slice(1)]. *)
Definition slice1 (s : string) : string :=
  match s with
  | String _ r => r
  | EmptyString => EmptyString
  end.

(** [parts.join(sep)]. *)
Fixpoint join (sep : string) (parts : list string) : string :=
  match parts with
  | [] => ""
  | [p] => p
  | p :: rest => p +:+ sep +:+ join sep rest
  end.

(** [arr.includes(x)] on an array of strings. *)
Definition includes (arr : list string) (x : string) : bool := bool_decide (x ∈ arr).

(** [Array.prototype.sort(cmp)].  The comparator's number is kept as its sign.
    The language fixes two things about the result: the sort is stable, and for
    a consistent comparator the result is ordered by it.  Inserting from the
    right, each element before the first one it does not exceed, is such a
    sort; under a consistent comparator every stable sort returns the same
    array. *)
Fixpoint sort_insert {A} (cmp : A → A → comparison) (x : A) (l : list A) : list A :=
  match l with
  | [] => [x]
  | y :: l' =>
      match cmp x y with
      | Gt => y :: sort_insert cmp x l'
      | _ => x :: l
      end
  end.

Definition sort {A} (cmp : A → A → comparison) (l : list A) : list A :=
  foldr (sort_insert cmp) [] l.

(** A consistent comparator, as the language defines it: a total preorder. *)
Record Consistent {A} (cmp : A → A → comparison) : Prop := {
  cmp_refl : ∀ x, cmp x x = Eq;
  cmp_opp : ∀ x y, cmp y x = CompOpp (cmp x y);
  cmp_trans : ∀ x y z, cmp x y ≠ Gt → cmp y z ≠ Gt → cmp x z ≠ Gt
}.

(** [Intl] collation, which the scripts reach through [localeCompare]:
    [base] stands for [a.localeCompare(b, "en", { sensitivity: "base" })] and
    [numeric] for [a.localeCompare(b, "en", { numeric: true })].  The tables
    behind them are the runtime's. *)
Record Collator := {
  base : string → string → comparison;
  numeric : string → string → comparison
}.

(** Code-unit order of the lower-cased strings: one collation that ignores
    case, used where a concrete collator is needed. *)
Definition ascii_base (a b : string) : comparison :=
  String.compare (toLowerCase a) (toLowerCase b).

Definition ascii_collator : Collator :=
  {| base := ascii_base; numeric := String.compare |}.

(** [n.toString()] and [n.toString(16)] on an integer. *)
Definition decimal (n : Z) : string :=
  DecimalString.NilZero.string_of_int (Z.to_int n).
Definition hex (n : Z) : string :=
  HexadecimalString.NilZero.string_of_uint (N.to_hex_uint (Z.to_N n)).

(** An array index: the canonical decimal text of an integer from 0 to
    2^32 - 2.  These are the keys an object lists first. *)
Definition arrayIndex (k : string) : option N :=
  match DecimalString.NilZero.uint_of_string k with
  | Some d =>
      let n := N.of_uint d in
      if String.eqb (decimal (Z.of_N n)) k && (n <=? 4294967294)%N then Some n else None
  | None => None
  end.

(** The value of a key the object has is replaced where it stands. *)
Fixpoint replace_property {V} (obj : list (string * V)) (k : string) (v : V)
  : list (string * V) :=
  match obj with
  | [] => []
  | (k', v') :: obj' =>
      if String.eqb k' k then (k, v) :: obj' else (k', v') :: replace_property obj' k v
  end.

(** A new array index goes after the indices below it. *)
Fixpoint insert_index {V} (i : N) (k : string) (v : V) (obj : list (string * V))
  : list (string * V) :=
  match obj with
  | [] => [(k, v)]
  | (k', v') :: obj' =>
      match arrayIndex k' with
      | Some j => if (j <? i)%N then (k', v') :: insert_index i k v obj' else (k, v) :: obj
      | None => (k, v) :: obj
      end
  end.

(** [obj[k] = v] on an object made by [{}], the value being a string.  The
    object is kept as its entries in the order in which its own keys are
    listed, which is the order [JSON.stringify] writes them in: the array
    indices in ascending numeric order, then the other keys in the order in
    which they were added.  The key [__proto__] names the accessor every
    such object inherits; its setter ignores a value that is not an object,
    so the assignment adds nothing. *)
Definition set_property {V} (obj : list (string * V)) (k : string) (v : V)
  : list (string * V) :=
  if String.eqb k "__proto__" then obj
  else if bool_decide (k ∈ obj.*1) then replace_property obj k v
  else
    match arrayIndex k with
    | Some i => insert_index i k v obj
    | None => obj ++ [(k, v)]
    end.
(** [s.endsWith(suffix)]. *)
Fixpoint endsWith (s suffix : string) : bool :=
  String.eqb s suffix ||
  match s with
  | String _ r => endsWith r suffix
  | EmptyString => false
  end.

End JS.

(** ** scripts/build-geosite-json.mjs *)
Module Geosite.

(** The decoded messages, as [GeoSiteList.toObject] returns them: a field that
    is not on the object is [None]. *)
Module Proto.

Inductive TypedValue :=
  | bool_value (b : bool)
  | int_value (n : Z)
  | no_value.

Record Attribute := {
  key : option string;
  typed_value : TypedValue
}.

Record Domain := {
  type : option string;
  value : option string;
  attribute : option (list Attribute)
}.

Record GeoSite := {
  country_code : option string;
  domain : option (list Domain)
}.

End Proto.

Definition domainTypeToRuleType (type : option string) : string :=
  match type with
  | Some "Domain" => "domain"
  | Some "Full" => "full"
  | Some "Plain" => "keyword"
  | Some "Regex" => "regexp"
  | _ => "domain"
  end.

(** What one turn of the loop of [extractAttrs] pushes. *)
Definition pushed (a : Proto.Attribute) : list string :=
  match Proto.key a with
  | None => []
  | Some k =>
      match Proto.typed_value a with
      | Proto.bool_value b => if b then [k] else []
      | Proto.int_value n => [k +:+ "=" +:+ JS.decimal n]
      | Proto.no_value => [k]
      end
  end.

Definition extractAttrs (attrList : option (list Proto.Attribute)) : list string :=
  match attrList with
  | None => []
  | Some l => foldl (λ attrs a, attrs ++ pushed a) [] l
  end.

Record Rule := {
  type : string;
  value : string;
  attrs : list string
}.

Record Category := {
  name : string;
  rules : list Rule
}.

(** The callback of [domains.map]. *)
Definition toRule (C : JS.Collator) (d : Proto.Domain) : Rule :=
  {| type := domainTypeToRuleType (Proto.type d);
     value := JS.trim (default "" (Proto.value d));
     attrs := JS.sort (JS.base C) (extractAttrs (Proto.attribute d)) |}.

(** The comparator of the rules' [sort]. *)
Definition compareRules (C : JS.Collator) (a b : Rule) : comparison :=
  if String.eqb (type a) (type b) then JS.base C (value a) (value b)
  else JS.base C (type a) (type b).

(** [domains.map(...).sort(...)]: the rule array of one category. *)
Definition normalize (C : JS.Collator) (domains : list Proto.Domain) : list Rule :=
  JS.sort (compareRules C) (toRule C <$> domains).

(** [String(site.country_code || "").trim()]. *)
Definition nameOf (country_code : option string) : string :=
  JS.trim (default "" country_code).

(** One turn of [for (const site of entries)]. *)
Definition collect (C : JS.Collator) (categories : list Category) (site : Proto.GeoSite)
  : list Category :=
  let name := nameOf (Proto.country_code site) in
  if JS.truthy name then
    categories ++ [{| name := name; rules := normalize C (default [] (Proto.domain site)) |}]
  else categories.

Definition link (name : string) : string := "https://direct.sleepstars.de/geosite/" +:+ name.

(** What a run leaves behind: the per-category files in the order written,
    [index.json] as the entries of its object, and the lines of the table. *)
Record Output := {
  files : list (string * Category);
  index : list (string * string);
  table : list string
}.

Definition main (C : JS.Collator) (entries : list Proto.GeoSite) : Output :=
  let categories :=
    JS.sort (λ a b, JS.base C (name a) (name b)) (foldl (collect C) [] entries) in
  {| files := (λ c, (name c +:+ ".json", c)) <$> categories;
     index := foldl (λ o c, JS.set_property o (name c) (link (name c))) [] categories;
     table := ["| Name | Link |"; "|------|------|"] ++
              ((λ c, "| " +:+ name c +:+ " | " +:+ link (name c) +:+ " |") <$> categories) |}.

End Geosite.

(** ** The geoip.dat to JSON script *)
Module Geoip.

Record CIDR := {
  ip : list Byte.byte;
  prefix : Z
}.

Record GeoIP := {
  country_code : option string;
  cidr : option (list CIDR)
}.

Definition octet (b : Byte.byte) : Z := Z.of_N (Byte.to_N b).

Definition toIPv4String (u8 : list Byte.byte) : option string :=
  if negb (length u8 =? 4)%nat then None
  else Some (JS.join "." (JS.decimal ∘ octet <$> u8)).

(** [words.push((u8[i] << 8) | u8[i + 1])] for [i = 0, 2, ..]. *)
Fixpoint toWords (u8 : list Byte.byte) : list Z :=
  match u8 with
  | hi :: lo :: rest => Z.lor (Z.shiftl (octet hi) 8) (octet lo) :: toWords rest
  | _ => []
  end.

(** The four variables of the search for the longest zero run. *)
Record Runs := {
  bestStart : Z;
  bestLen : Z;
  curStart : Z;
  curLen : Z
}.

(** [if (curLen > bestLen) { bestStart = curStart; bestLen = curLen; }]. *)
Definition takeBest (s : Runs) : Runs :=
  if curLen s >? bestLen s then
    {| bestStart := curStart s; bestLen := curLen s;
       curStart := curStart s; curLen := curLen s |}
  else s.

(** One turn of [for (let i = 0; i < 8; i++)] on [words[i] = w]. *)
Definition scanWord (s : Runs) (i w : Z) : Runs :=
  if w =? 0 then
    {| bestStart := bestStart s; bestLen := bestLen s;
       curStart := (if curStart s =? -1 then i else curStart s);
       curLen := curLen s + 1 |}
  else
    let s' := takeBest s in
    {| bestStart := bestStart s'; bestLen := bestLen s'; curStart := -1; curLen := 0 |}.

Fixpoint scanFrom (i : Z) (words : list Z) (s : Runs) : Runs :=
  match words with
  | [] => s
  | w :: ws => scanFrom (i + 1) ws (scanWord s i w)
  end.

(** [bestStart] and [bestLen] as the second loop reads them. *)
Definition longestRun (words : list Z) : Z * Z :=
  let s :=
    takeBest (scanFrom 0 words
                {| bestStart := -1; bestLen := 0; curStart := -1; curLen := 0 |}) in
  if bestLen s <? 2 then (-1, bestLen s) else (bestStart s, bestLen s).

(** [while (i < 8)]: every turn moves [i] forward, so eight turns end it. *)
Fixpoint partsFrom (turns : nat) (words : list Z) (bestStart bestLen i : Z) : list string :=
  match turns with
  | O => []
  | S turns' =>
      if i <? 8 then
        if i =? bestStart then
          let i' := i + bestLen in
          "" :: (if i' >=? 8 then [""] else []) ++ partsFrom turns' words bestStart bestLen i'
        else
          JS.hex (nth (Z.to_nat i) words 0) :: partsFrom turns' words bestStart bestLen (i + 1)
      else []
  end.

(** [.replace(/^:/, "::")] and [.replace(/:$/, "::")]. *)
Definition replaceLeadingColon (s : string) : string :=
  match s with
  | String ":" r => "::" +:+ r
  | _ => s
  end.

Definition replaceTrailingColon (s : string) : string :=
  match String.rev s with
  | String ":" _ => s +:+ ":"
  | _ => s
  end.

Definition toIPv6String (u8 : list Byte.byte) : option string :=
  if negb (length u8 =? 16)%nat then None
  else
    let words := toWords u8 in
    let '(bestStart, bestLen) := longestRun words in
    let parts := partsFrom 8 words bestStart bestLen 0 in
    Some (replaceTrailingColon (replaceLeadingColon (JS.join ":" parts))).

(** One turn of [for (const c of cidrs)] on the pair [(v4, v6)]. *)
Definition addCidr (acc : list string * list string) (c : CIDR) : list string * list string :=
  let '(v4, v6) := acc in
  if (length (ip c) =? 4)%nat then
    match toIPv4String (ip c) with
    | Some s => if JS.truthy s then (v4 ++ [s +:+ "/" +:+ JS.decimal (prefix c)], v6) else acc
    | None => acc
    end
  else if (length (ip c) =? 16)%nat then
    match toIPv6String (ip c) with
    | Some s => if JS.truthy s then (v4, v6 ++ [s +:+ "/" +:+ JS.decimal (prefix c)]) else acc
    | None => acc
    end
  else acc.

Record Group := {
  name : string;
  cidr4 : list string;
  cidr6 : list string
}.

(** The document written for one group. *)
Definition toGroup (C : JS.Collator) (name : string) (cidrs : list CIDR) : Group :=
  let '(v4, v6) := foldl addCidr ([], []) cidrs in
  {| name := name; cidr4 := JS.sort (JS.numeric C) v4; cidr6 := JS.sort (JS.base C) v6 |}.

Definition link (name : string) : string := "https://direct.sleepstars.de/geoip/" +:+ name.

Record Output := {
  files : list (string * Group);
  index : list (string * string)
}.

(** One turn of [for (const g of entries)]: the file written, if any. *)
Definition visit (C : JS.Collator) (written : list (string * Group)) (g : GeoIP)
  : list (string * Group) :=
  let name := JS.trim (default "" (country_code g)) in
  if JS.truthy name then
    written ++ [(name +:+ ".json", toGroup C name (default [] (cidr g)))]
  else written.

Definition main (C : JS.Collator) (entries : list GeoIP) : Output :=
  let written := foldl (visit C) [] entries in
  let groups := JS.sort (JS.base C) ((λ f, name f.2) <$> written) in
  {| files := written;
     index := foldl (λ o n, JS.set_property o n (link n)) [] groups |}.

End Geoip.

(** ** scripts/build-srs.mjs *)
Module Srs.

(** A rule as read back from a category's JSON file.  [attrs] is [None] when
    the field is not an array. *)
Record Rule := {
  type : string;
  value : string;
  attrs : option (list string)
}.

(** [const target = filter?.toLowerCase() || null]. *)
Definition target (filter : option string) : option string :=
  match filter with
  | Some f => let t := JS.toLowerCase f in if JS.truthy t then Some t else None
  | None => None
  end.

(** [const neg = target?.startsWith("!") ? true : false]. *)
Definition neg (filter : option string) : bool :=
  match target filter with
  | Some t => JS.startsWith t "!"
  | None => false
  end.

(** [const key = neg ? target?.slice(1) : target]. *)
Definition key (filter : option string) : option string :=
  if neg filter then JS.slice1 <$> target filter else target filter.

(** The test [if (key)]: the key is there and is not the empty string. *)
Definition key_given (filter : option string) : bool :=
  match key filter with
  | Some k => JS.truthy k
  | None => false
  end.

(** [Array.isArray(r.attrs) ? r.attrs.map((a) => String(a).toLowerCase()) : []]. *)
Definition lowered_attrs (r : Rule) : list string :=
  match attrs r with
  | Some l => JS.toLowerCase <$> l
  | None => []
  end.

(** [const has = attrs.includes(key)]. *)
Definition has (filter : option string) (r : Rule) : bool :=
  match key filter with
  | Some k => JS.includes (lowered_attrs r) k
  | None => false
  end.

(** The loop's guard: [true] when the body reaches [continue]. *)
Definition skipped (filter : option string) (r : Rule) : bool :=
  key_given filter &&
  ((negb (neg filter) && negb (has filter r)) || (neg filter && has filter r)).

Definition passes (filter : option string) (r : Rule) : bool := negb (skipped filter r).

Record Agg := {
  domain : list string;
  domain_suffix : list string;
  domain_keyword : list string;
  domain_regex : list string
}.

Definition agg_empty : Agg :=
  {| domain := []; domain_suffix := []; domain_keyword := []; domain_regex := [] |}.

(** The [switch (r.type)]: a push on one bucket, none for another type. *)
Definition bucket (agg : Agg) (r : Rule) : Agg :=
  if String.eqb (type r) "full" then
    {| domain := domain agg ++ [value r]; domain_suffix := domain_suffix agg;
       domain_keyword := domain_keyword agg; domain_regex := domain_regex agg |}
  else if String.eqb (type r) "domain" then
    {| domain := domain agg; domain_suffix := domain_suffix agg ++ [value r];
       domain_keyword := domain_keyword agg; domain_regex := domain_regex agg |}
  else if String.eqb (type r) "keyword" then
    {| domain := domain agg; domain_suffix := domain_suffix agg;
       domain_keyword := domain_keyword agg ++ [value r]; domain_regex := domain_regex agg |}
  else if String.eqb (type r) "regexp" then
    {| domain := domain agg; domain_suffix := domain_suffix agg;
       domain_keyword := domain_keyword agg; domain_regex := domain_regex agg ++ [value r] |}
  else agg.

(** One turn of [for (const r of rules)]. *)
Definition visit (filter : option string) (agg : Agg) (r : Rule) : Agg :=
  if skipped filter r then agg else bucket agg r.

Definition aggregate (rules : list Rule) (filter : option string) : Agg :=
  foldl (visit filter) agg_empty rules.

(** The headless rule: an object, kept as its entries in insertion order
    (none of its four keys is an array index). *)
Definition Headless := list (string * list string).

Definition entries (agg : Agg) : Headless :=
  [("domain", domain agg); ("domain_suffix", domain_suffix agg);
   ("domain_keyword", domain_keyword agg); ("domain_regex", domain_regex agg)].

Definition toHeadlessRule (rules : list Rule) (filter : option string) : Headless :=
  List.filter (λ kv, negb (bool_decide (kv.2 = []))) (entries (aggregate rules filter)).

(** One compilation: the source file written for it and the rule-set asked for. *)
Record Task := {
  srcPath : string;
  outPath : string;
  source : Headless
}.

(** [filter ? `@${filter}` : ""]. *)
Definition tag (filter : option string) : string :=
  match filter with
  | Some f => if JS.truthy f then "@" +:+ f else ""
  | None => ""
  end.

(** The body of [for (const filter of filters)] up to the two awaits: no task
    when the headless rule has no key. *)
Definition taskOf (name : string) (rules : list Rule) (filter : option string) : list Task :=
  let rule := toHeadlessRule rules filter in
  if (length rule =? 0)%nat then []
  else [{| srcPath := "." +:+ name +:+ tag filter +:+ ".json";
           outPath := name +:+ tag filter +:+ ".srs";
           source := rule |}].

(** What the run does to the output directory, in order. *)
Inductive Effect :=
  | WriteFile (path : string) (rules : Headless)
  | Compile (sourcePath outputPath : string).

(** [await fsp.writeFile(...); await compileSRS(...); total++] task after
    task; [compiles] tells whether sing-box succeeds on an output path.  The
    first failure is thrown out of [main]. *)
Fixpoint compileAll (compiles : string → bool) (tasks : list Task) (total : Z)
  : list Effect * option Z :=
  match tasks with
  | [] => ([], Some total)
  | t :: rest =>
      let here := [WriteFile (srcPath t) (source t); Compile (srcPath t) (outPath t)] in
      if compiles (outPath t) then
        let '(effects, result) := compileAll compiles rest (total + 1) in
        (here ++ effects, result)
      else (here, None)
  end.

Record Run := {
  effects : list Effect;
  generated : option Z;
  exitCode : Z
}.

(** The categories are the JSON files found, by name without the extension,
    each with its [data.rules || []].  [main().catch] turns a throw into exit
    status 1. *)
Definition tasks (C : JS.Collator) (filters : list (option string))
    (categories : list (string * list Rule)) : list Task :=
  '(name, rules) ← JS.sort (λ a b, JS.base C a.1 b.1) categories;
  filter ← filters;
  taskOf name rules filter.

Definition main (C : JS.Collator) (compiles : string → bool) (filters : list (option string))
    (categories : list (string * list Rule)) : Run :=
  let '(effects, result) := compileAll compiles (tasks C filters categories) 0 in
  {| effects := effects; generated := result;
     exitCode := if result is Some _ then 0 else 1 |}.

(** [SRS_FILTERS] left unset. *)
Definition defaultFilters : list (option string) := [None; Some "cn"; Some "!cn"].

(** [listCategoryFiles]: the entries of the directory that end in [.json]. *)
Definition listCategoryFiles (files : list string) : list string :=
  List.filter (λ f, JS.endsWith f ".json") files.

(** [f.replace(/\.json$/, "")]: the match can only be the last five
    characters. *)
Fixpoint stripJson (f : string) : string :=
  if String.eqb f ".json" then ""
  else
    match f with
    | String c r => String c (stripJson r)
    | EmptyString => ""
    end.

(** The array [names] of [main]. *)
Definition names (C : JS.Collator) (files : list string) : list string :=
  JS.sort (JS.base C) (stripJson <$> listCategoryFiles files).

End Srs.

(** ** The geoip rule-set builder *)
Module GeoipSrs.

(** A group as read back from its JSON file; a list that is not an array is [None]. *)
Record Data := {
  cidr4 : option (list string);
  cidr6 : option (list string)
}.

(** [!filter || filter.toLowerCase() === a || filter.toLowerCase() === b]. *)
Definition want (a b : string) (filter : option string) : bool :=
  match filter with
  | None => true
  | Some f =>
      negb (JS.truthy f) || String.eqb (JS.toLowerCase f) a || String.eqb (JS.toLowerCase f) b
  end.

Definition toHeadlessRule (data : Data) (filter : option string) : option (list string) :=
  let wantV4 := want "v4" "ipv4" filter in
  let wantV6 := want "v6" "ipv6" filter in
  let ip_cidr :=
    (if wantV4 then default [] (cidr4 data) else []) ++
    (if wantV6 then default [] (cidr6 data) else []) in
  if (length ip_cidr =? 0)%nat then None else Some ip_cidr.

(** The state of one of the [concurrency] async workers. *)
Inductive Worker :=
  | Ready
  | Awaiting (idx : nat)
  | Finished.

(** What a task's promise settles to. *)
Inductive Settled :=
  | Fulfilled
  | Rejected (reason : string).

Inductive Event :=
  | Started (idx : nat)
  | Settles (idx : nat) (s : Settled)
  | LoggedFailure (idx : nat).

(** [i], the workers, the sparse array [results], and what has happened. *)
Record Pool := {
  i : nat;
  workers : list Worker;
  results : gmap nat Settled;
  events : list Event
}.

Section Pool.
Context {Task : Type} (perform : Task → Settled).

Definition start (concurrency : nat) : Pool :=
  {| i := 0; workers := replicate concurrency Ready; results := ∅; events := [] |}.

(** The scheduler resumes worker [w].  A worker that is [Ready] runs
    [const idx = i++; if (idx >= tasks.length) break;] and calls the task; one
    that awaits a task sees it settle, stores the value or the error caught in
    [results[idx]], and logs an error. *)
Definition resume (tasks : list Task) (p : Pool) (w : nat) : Pool :=
  match workers p !! w with
  | Some Ready =>
      let idx := i p in
      if (length tasks <=? idx)%nat then
        {| i := S idx; workers := <[w := Finished]> (workers p);
           results := results p; events := events p |}
      else
        {| i := S idx; workers := <[w := Awaiting idx]> (workers p);
           results := results p; events := events p ++ [Started idx] |}
  | Some (Awaiting idx) =>
      match tasks !! idx with
      | Some t =>
          let s := perform t in
          {| i := i p; workers := <[w := Ready]> (workers p);
             results := <[idx := s]> (results p);
             events := events p ++ Settles idx s ::
                         (if s is Rejected _ then [LoggedFailure idx] else []) |}
      | None => p
      end
  | _ => p
  end.

Definition allFinished (p : Pool) : bool :=
  forallb (λ w, if w is Finished then true else false) (workers p).

(** [await Promise.all(workers); return results;] under the schedule
    [sched], the order in which the workers are resumed: [None] while a worker
    is still running. *)
Definition runPool (tasks : list Task) (concurrency : nat) (sched : list nat) : option Pool :=
  let p := foldl (resume tasks) (start concurrency) sched in
  if allFinished p then Some p else None.

End Pool.

Record Task := {
  srcPath : string;
  outPath : string;
  source : list string
}.

Definition tag (filter : option string) : string :=
  match filter with
  | Some f => if JS.truthy f then "@" +:+ f else ""
  | None => ""
  end.

Definition taskOf (name : string) (data : Data) (filter : option string) : list Task :=
  match toHeadlessRule data filter with
  | None => []
  | Some rule =>
      [{| srcPath := "." +:+ name +:+ tag filter +:+ ".json";
          outPath := name +:+ tag filter +:+ ".srs";
          source := rule |}]
  end.

Definition filters : list (option string) := [None; Some "v4"; Some "v6"].

Definition tasks (C : JS.Collator) (groups : list (string * Data)) : list Task :=
  '(name, data) ← JS.sort (λ a b, JS.base C a.1 b.1) groups;
  filter ← filters;
  taskOf name data filter.

(** The task's body: the source is written, then sing-box runs; its failure
    rejects the task. *)
Definition compile (compiles : string → bool) (t : Task) : Settled :=
  if compiles (outPath t) then Fulfilled else Rejected (outPath t).

Record Run := {
  pool : Pool;
  generated : nat;
  exitCode : Z
}.

(** [main] returns once the pool has; nothing in it throws, so the script
    ends with status 0 and logs [tasks.length] as the number generated. *)
Definition main (C : JS.Collator) (compiles : string → bool) (concurrency : nat)
    (sched : list nat) (groups : list (string * Data)) : option Run :=
  if (length groups =? 0)%nat then
    Some {| pool := start 0; generated := 0; exitCode := 0 |}
  else
    p ← runPool (compile compiles) (tasks C groups) concurrency sched;
    Some {| pool := p; generated := length (tasks C groups); exitCode := 0 |}.

End GeoipSrs.

(** ** scripts/sync-r2.mjs *)
Module SyncR2.

(** An item of the local plan.  [buildLocalPlan] forms the keys as
    [geosite-json/<file>] and [geosite/<file>], so none is the name of a
    property every object inherits, and the entries object behaves as a map
    from keys to entries. *)
Record Item := {
  file : string;
  key : string;
  size : Z;
  sha256 : string;
  contentType : string
}.

(** An entry of the manifest. *)
Module Entry.
Record t := {
  sha256 : string;
  size : Z
}.
End Entry.

Record Manifest := {
  version : Z;
  generatedAt : Z;
  entries : option (gmap string Entry.t)
}.

(** [remoteManifest?.entries || {}]. *)
Definition remoteEntriesOf (remoteManifest : option Manifest) : gmap string Entry.t :=
  default ∅ (remoteManifest ≫= entries).

(** [!remote || remote.sha256 !== item.sha256 || remote.size !== item.size]. *)
Definition isChanged (remoteEntries : gmap string Entry.t) (item : Item) : bool :=
  match remoteEntries !! key item with
  | None => true
  | Some remote =>
      negb (String.eqb (Entry.sha256 remote) (sha256 item)) ||
      negb (Entry.size remote =? size item)
  end.

(** The array [changed]. *)
Definition changedOf (remoteEntries : gmap string Entry.t) (localPlan : list Item) : list Item :=
  List.filter (isChanged remoteEntries) localPlan.

(** [{ sha256: it.sha256, size: it.size }]. *)
Definition entryOf (it : Item) : Entry.t :=
  {| Entry.sha256 := sha256 it; Entry.size := size it |}.

(** [merged = { ...remoteEntries }] and then [merged[it.key] = ...] item by item. *)
Definition mergeEntries (remoteEntries : gmap string Entry.t) (localPlan : list Item)
  : gmap string Entry.t :=
  foldl (λ merged it, <[key it := entryOf it]> merged) remoteEntries localPlan.

(** What a run does outside its own memory, in order.  [PutObject] and
    [PutManifest] are both calls of [putObject], listed when the call is
    made; the second carries the manifest held by the temporary file it
    uploads. *)
Inductive Effect :=
  | PutObject (bucket key file contentType : string)
  | DryPut (key : string)
  | WriteTmp (manifest : Manifest)
  | PutManifest (bucket key : string) (manifest : Manifest)
  | DryPutManifest (key : string)
  | UnlinkTmp.

Inductive Outcome :=
  | Returned (entries : gmap string Entry.t)
  | Thrown (key : string).

(** [Math.max(1, Number(process.env.R2_CONCURRENCY || 6))], the setting
    being a natural number. *)
Definition CONCURRENCY (setting : nat) : nat := Nat.max 1%nat setting.

(** The workers' loop of a run that is not dry: [idx], and for each worker
    the index of the item whose put it awaits, [None] once it has left the
    loop. *)
Record Uploads := {
  idx : nat;
  awaiting : list (option nat)
}.

(** Worker [w] at [while (idx < changed.length)]: it takes the next item
    and calls [putObject], or leaves the loop. *)
Definition enter (n : nat) (u : Uploads) (w : nat) : Uploads :=
  if (idx u <? n)%nat then
    {| idx := S (idx u); awaiting := <[w := Some (idx u)]> (awaiting u) |}
  else {| idx := idx u; awaiting := <[w := None]> (awaiting u) |}.

(** [Array.from] calls the workers one after the other; each runs up to its
    first [await]. *)
Definition launch (n workers : nat) : Uploads :=
  foldl (enter n) {| idx := 0%nat; awaiting := replicate workers None |} (seq 0%nat workers).

(** The first worker from [w] on that awaits a put. *)
Fixpoint firstAwaiting (w : nat) (ws : list (option nat)) : option (nat * nat) :=
  match ws with
  | [] => None
  | Some i :: _ => Some (w, i)
  | None :: ws' => firstAwaiting (S w) ws'
  end.

(** The put that settles next: that of the first worker of the schedule
    that awaits one, and when the schedule is used up that of the first
    worker that awaits one. *)
Fixpoint next (sched : list nat) (u : Uploads) : option (nat * nat * list nat) :=
  match sched with
  | w :: sched' =>
      match awaiting u !! w with
      | Some (Some i) => Some (w, i, sched')
      | _ => next sched' u
      end
  | [] => (λ wi, (wi, [])) <$> firstAwaiting 0%nat (awaiting u)
  end.

(** [await Promise.all(workers)]: puts settle one at a time, at most one
    per item.  A put that succeeds sends its worker back to the head of the
    loop; a put that fails is rethrown. *)
Fixpoint settle (turns : nat) (puts : string → bool) (changed : list Item)
    (sched : list nat) (u : Uploads) : nat * option string :=
  match turns with
  | O => (idx u, None)
  | S turns' =>
      match next sched u with
      | None => (idx u, None)
      | Some (w, i, sched') =>
          match changed !! i with
          | Some it =>
              if puts (key it) then settle turns' puts changed sched' (enter (length changed) u w)
              else (idx u, Some (key it))
          | None => (idx u, None)
          end
      end
  end.
(** The workers' loop.  In a dry run no worker ever awaits, so the first one
    goes through the whole list before the second is called.  Otherwise the
    items handed to wrangler are the first [idx] ones, in order: [idx++] hands
    them out in order whatever the worker.  When a put fails the run ends;
    the puts that were begun by then are all listed, those still in flight
    too. *)
Definition uploadAll (puts : string → bool) (sched : list nat) (workers : nat)
    (dryRun : bool) (bucket : string) (changed : list Item) : list Effect * option string :=
  if dryRun then
    (match workers with
     | O => []
     | S _ => DryPut ∘ key <$> changed
     end, None)
  else
    let settled := settle (length changed) puts changed sched (launch (length changed) workers) in
    ((λ it, PutObject bucket (key it) (file it) (contentType it)) <$> take settled.1 changed,
     settled.2).

(** [uploadPlan]: [puts] tells whether wrangler succeeds on a key, [sched]
    is the order in which the puts in flight settle, [setting] is
    [R2_CONCURRENCY]. *)
Definition uploadPlan (puts : string → bool) (sched : list nat) (setting : nat)
    (dryRun : bool) (now : Z)
    (bucket manifestKey : string) (localPlan : list Item) (remoteManifest : option Manifest)
  : list Effect * Outcome :=
  let remoteEntries := remoteEntriesOf remoteManifest in
  let changed := changedOf remoteEntries localPlan in
  if (length changed =? 0)%nat then ([], Returned remoteEntries)
  else
    match uploadAll puts sched (CONCURRENCY setting) dryRun bucket changed with
    | (effects, Some failed) => (effects, Thrown failed)
    | (effects, None) =>
        let merged := mergeEntries remoteEntries localPlan in
        let manifest := {| version := 1; generatedAt := now; entries := Some merged |} in
        if dryRun then
          (effects ++ [WriteTmp manifest; DryPutManifest manifestKey; UnlinkTmp],
           Returned merged)
        else if puts manifestKey then
          (effects ++ [WriteTmp manifest; PutManifest bucket manifestKey manifest; UnlinkTmp],
           Returned merged)
        else
          (effects ++ [WriteTmp manifest; PutManifest bucket manifestKey manifest],
           Thrown manifestKey)
    end.

(** [fetchRemoteManifest]: what the download parsed to, [None] when the
    object is missing or its text is not JSON; the [catch] then answers with
    an empty manifest. *)
Definition emptyManifest : Manifest :=
  {| version := 1; generatedAt := 0; entries := Some ∅ |}.

Definition fetchRemoteManifest (download : option (option Manifest)) : option Manifest :=
  match download with
  | Some parsed => parsed
  | None => Some emptyManifest
  end.

(** [main].  [bucket] is what [getBucketName] returns and [plan] what
    [buildLocalPlan] returns, [None] when they throw.  Nothing is fetched for
    an empty plan; otherwise the plan is sorted by key ([collate] stands for
    [a.key.localeCompare(b.key)]) and handed to [uploadPlan].  The second
    component is the exit status: [main().catch] turns a throw into 1. *)
Definition main (collate : string → string → comparison) (puts : string → bool)
    (sched : list nat) (setting : nat) (dryRun : bool) (now : Z)
    (bucket : option string) (manifestKey : string) (plan : option (list Item))
    (download : option (option Manifest)) : list Effect * Z :=
  match bucket, plan with
  | Some bucket, Some plan =>
      if (length plan =? 0)%nat then ([], 0)
      else
        let sorted := JS.sort (λ a b, collate (key a) (key b)) plan in
        match uploadPlan puts sched setting dryRun now bucket manifestKey sorted
                (fetchRemoteManifest download) with
        | (effects, Returned _) => (effects, 0)
        | (effects, Thrown _) => (effects, 1)
        end
  | _, _ => ([], 1)
  end.

End SyncR2.


(** ** Notions the statements are written in *)

(** Under the comparator [cmp], [a] does not come after [b]. *)
Definition le_by {A} (cmp : A → A → comparison) (a b : A) : Prop := cmp a b ≠ Gt.

(** The four types a rule can have. *)
Definition ruleTypes : list string := ["domain"; "full"; "keyword"; "regexp"].

(** The values of the rules of one type, in order. *)
Definition values_of (ty : string) (rules : list Srs.Rule) : list string :=
  Srs.value <$> filter (λ r, Srs.type r = ty) rules.

(** The rules the loop of [Srs.toHeadlessRule] does not skip, in order. *)
Definition passing (f : option string) (rules : list Srs.Rule) : list Srs.Rule :=
  filter (λ r, Srs.passes f r = true) rules.

(** What one task of the geosite build does to the output directory. *)
Definition attempt (t : Srs.Task) : list Srs.Effect :=
  [Srs.WriteFile (Srs.srcPath t) (Srs.source t); Srs.Compile (Srs.srcPath t) (Srs.outPath t)].

(** The tasks some worker of the pool is waiting for, those begun and those
    settled. *)
Definition awaited (ws : list GeoipSrs.Worker) : list nat :=
  ws ≫= λ w, if w is GeoipSrs.Awaiting idx then [idx] else [].

Definition startedIn (es : list GeoipSrs.Event) : list nat :=
  es ≫= λ e, if e is GeoipSrs.Started idx then [idx] else [].

Definition settledIn (es : list GeoipSrs.Event) : list nat :=
  es ≫= λ e, if e is GeoipSrs.Settles idx _ then [idx] else [].

(** What every state of the pool satisfies: the tasks below [i] have been
    begun, each once and in order; each of them is settled or awaited by one
    worker, never both; [results] holds the outcome of the settled ones, and
    nothing else; a worker leaves the loop only once [i] has passed the end. *)
Record PoolInv {Task : Type} (perform : Task → GeoipSrs.Settled) (tasks : list Task)
    (p : GeoipSrs.Pool) : Prop := {
  inv_started :
    startedIn (GeoipSrs.events p) = seq 0 (GeoipSrs.i p `min` length tasks);
  inv_settled :
    settledIn (GeoipSrs.events p) ++ awaited (GeoipSrs.workers p) ≡ₚ
    seq 0 (GeoipSrs.i p `min` length tasks);
  inv_results : ∀ idx,
    GeoipSrs.results p !! idx =
      if decide (idx ∈ settledIn (GeoipSrs.events p)) then perform <$> tasks !! idx else None;
  inv_finished : GeoipSrs.Finished ∈ GeoipSrs.workers p → (length tasks ≤ GeoipSrs.i p)%nat
}.

(** What is left to do in a state of the pool: three for a task not yet
    handed out, two for a task awaited, one for a worker still in the loop. *)
Definition effort (w : GeoipSrs.Worker) : nat :=
  match w with
  | GeoipSrs.Ready => 1
  | GeoipSrs.Awaiting _ => 2
  | GeoipSrs.Finished => 0
  end.

Definition remaining {Task : Type} (tasks : list Task) (p : GeoipSrs.Pool) : nat :=
  3 * (length tasks - GeoipSrs.i p) + sum_list_with effort (GeoipSrs.workers p).

(** An effect of the publisher that writes to the bucket. *)
Definition writesBucket (e : SyncR2.Effect) : bool :=
  match e with
  | SyncR2.PutObject _ _ _ _ | SyncR2.PutManifest _ _ _ => true
  | _ => false
  end.

(** The upload of one item. *)
Definition putOf (bucket : string) (it : SyncR2.Item) : SyncR2.Effect :=
  SyncR2.PutObject bucket (SyncR2.key it) (SyncR2.file it) (SyncR2.contentType it).

(** The category an entry of geosite.dat gives, if it has a name. *)
Definition categoryOf (C : JS.Collator) (site : Geosite.Proto.GeoSite) : option Geosite.Category :=
  let name := Geosite.nameOf (Geosite.Proto.country_code site) in
  if JS.truthy name then
    Some {| Geosite.name := name;
            Geosite.rules :=
              Geosite.normalize C (default [] (Geosite.Proto.domain site)) |}
  else None.

(** The names of the categories a run of the geosite script has written, in
    the order written. *)
Definition writtenNames (out : Geosite.Output) : list string :=
  (λ f, Geosite.name f.2) <$> Geosite.files out.

(** The words of [ws] at the [l] places from [s] on are all zero. *)
Definition zeros (ws : list Z) (s l : Z) : Prop :=
  0 ≤ s ∧ 0 ≤ l ∧ ∀ k : nat, s ≤ Z.of_nat k < s + l → ws !! k = Some 0.

(** [(bs, bl)] is the first longest zero run among those that end at or
    before [lim], or [(-1, 0)] when there is none. *)
Definition firstLongest (ws : list Z) (lim bs bl : Z) : Prop :=
  (bl = 0 ∧ bs = -1 ∨ 0 < bl ∧ zeros ws bs bl ∧ bs + bl ≤ lim) ∧
  ∀ s l, zeros ws s l → 1 ≤ l → s + l ≤ lim → l ≤ bl ∧ (l = bl → bs ≤ s).

(** What the first loop of [toIPv6String] keeps true, [ws] being the words
    read so far. *)
Record ScanInv (ws : list Z) (st : Geoip.Runs) : Prop := {
  cur_len : 0 ≤ Geoip.curLen st ≤ Z.of_nat (length ws);
  cur_none : Geoip.curLen st = 0 → Geoip.curStart st = -1;
  cur_some : 0 < Geoip.curLen st → Geoip.curStart st = Z.of_nat (length ws) - Geoip.curLen st;
  cur_zeros : zeros ws (Z.of_nat (length ws) - Geoip.curLen st) (Geoip.curLen st);
  cur_maximal :
    Z.of_nat (length ws) - Geoip.curLen st = 0 ∨
    ∃ w, ws !! Z.to_nat (Z.of_nat (length ws) - Geoip.curLen st - 1) = Some w ∧ w ≠ 0;
  cur_best :
    firstLongest ws (Z.of_nat (length ws) - Geoip.curLen st) (Geoip.bestStart st) (Geoip.bestLen st)
}.

(** The first and the last character of a string. *)
Definition firstChar (s : string) : option ascii :=
  match s with
  | String c _ => Some c
  | EmptyString => None
  end.

Definition lastChar (s : string) : option ascii := firstChar (String.rev s).

(** A text that is not empty and neither begins nor ends with a colon. *)
Definition plain (s : string) : Prop :=
  s ≠ "" ∧ firstChar s ≠ Some ":"%char ∧ lastChar s ≠ Some ":"%char.

(** The line a CIDR gives in [cidr4] and in [cidr6], if any. *)
Definition line4 (c : Geoip.CIDR) : option string :=
  (λ s, s +:+ "/" +:+ JS.decimal (Geoip.prefix c)) <$> Geoip.toIPv4String (Geoip.ip c).

Definition line6 (c : Geoip.CIDR) : option string :=
  (λ s, s +:+ "/" +:+ JS.decimal (Geoip.prefix c)) <$> Geoip.toIPv6String (Geoip.ip c).

(** The group an entry of geoip.dat gives, if it has a name. *)
Definition groupOf (C : JS.Collator) (g : Geoip.GeoIP) : option Geoip.Group :=
  let name := JS.trim (default "" (Geoip.country_code g)) in
  if JS.truthy name then Some (Geoip.toGroup C name (default [] (Geoip.cidr g))) else None.

(** A call of [putObject] that wrangler fails. *)
Definition putFailed (puts : string → bool) (e : SyncR2.Effect) : bool :=
  match e with
  | SyncR2.PutObject _ k _ _ | SyncR2.PutManifest _ k _ => negb (puts k)
  | _ => false
  end.

(** The keys of the items a run has put, or would have in a dry run. *)
Definition putKeys (effects : list SyncR2.Effect) : list string :=
  omap (λ e, match e with
             | SyncR2.PutObject _ k _ _ | SyncR2.DryPut k => Some k
             | _ => None
             end) effects.

(** A rule with its attributes in lower case. *)
Definition lowered (r : Srs.Rule) : Srs.Rule :=
  {| Srs.type := Srs.type r; Srs.value := Srs.value r;
     Srs.attrs := Some (Srs.lowered_attrs r) |}.

(** No character of the text is a dot. *)
Definition dotFree (s : string) : bool :=
  forallb (λ c, negb (Ascii.eqb c ".")) (list_ascii_of_string s).

(** The order in which an object lists two of its keys: an array index
    before a larger one and before every other key. *)
Definition keyBefore (a b : string) : Prop :=
  match JS.arrayIndex a, JS.arrayIndex b with
  | Some i, Some j => (i < j)%N
  | Some _, None => True
  | None, Some _ => False
  | None, None => True
  end.

(** The puts in flight. *)
Definition flying (o : option nat) : nat :=
  match o with
  | Some _ => 1%nat
  | None => 0%nat
  end.

Definition inFlight (u : SyncR2.Uploads) : nat := sum_list_with flying (SyncR2.awaiting u).

(** What the workers' loop of the publisher keeps true: the items below
    [idx] are those handed to wrangler, each in flight with one worker or
    put with success; and while items are left some worker is busy. *)
Record UploadsInv (puts : string → bool) (changed : list SyncR2.Item)
    (u : SyncR2.Uploads) : Prop := {
  up_idx : (SyncR2.idx u ≤ length changed)%nat;
  up_begun : ∀ w i, SyncR2.awaiting u !! w = Some (Some i) → (i < SyncR2.idx u)%nat;
  up_busy : (SyncR2.idx u < length changed)%nat →
            ∃ w i, SyncR2.awaiting u !! w = Some (Some i);
  up_done : ∀ i it, (i < SyncR2.idx u)%nat → changed !! i = Some it →
              (∃ w, SyncR2.awaiting u !! w = Some (Some i)) ∨ puts (SyncR2.key it) = true
}.

(* ================================================================== *)
(** * Part II: theorems *)
(* ================================================================== *)

(** ** The attribute filter of build-srs.mjs *)
Section SrsFilter.
Import Srs.

Lemma values_of_app ty l1 l2 : values_of ty (l1 ++ l2) = values_of ty l1 ++ values_of ty l2.
Proof. unfold values_of. by rewrite filter_app, fmap_app. Qed.

Lemma values_of_one ty r :
  values_of ty [r] = if String.eqb (type r) ty then [value r] else [].
Proof.
  unfold values_of. rewrite filter_cons, filter_nil.
  destruct (String.eqb_spec (type r) ty).
  - by rewrite decide_True.
  - by rewrite decide_False.
Qed.

Lemma bucket_spec agg r :
  bucket agg r =
  {| domain := domain agg ++ values_of "full" [r];
     domain_suffix := domain_suffix agg ++ values_of "domain" [r];
     domain_keyword := domain_keyword agg ++ values_of "keyword" [r];
     domain_regex := domain_regex agg ++ values_of "regexp" [r] |}.
Proof.
  unfold bucket. rewrite !values_of_one. destruct agg as [d s k x]; simpl.
  destruct (String.eqb_spec (type r) "full") as [E|_].
  { rewrite E; simpl. by rewrite !app_nil_r. }
  destruct (String.eqb_spec (type r) "domain") as [E|_].
  { rewrite E; simpl. by rewrite !app_nil_r. }
  destruct (String.eqb_spec (type r) "keyword") as [E|_].
  { rewrite E; simpl. by rewrite !app_nil_r. }
  destruct (String.eqb (type r) "regexp"); by rewrite !app_nil_r.
Qed.

Lemma passing_cons f r rules :
  passing f (r :: rules) = if passes f r then r :: passing f rules else passing f rules.
Proof.
  unfold passing. rewrite filter_cons.
  destruct (passes f r); [by rewrite decide_True | by rewrite decide_False].
Qed.

Lemma foldl_visit f rules agg :
  foldl (visit f) agg rules =
  {| domain := domain agg ++ values_of "full" (passing f rules);
     domain_suffix := domain_suffix agg ++ values_of "domain" (passing f rules);
     domain_keyword := domain_keyword agg ++ values_of "keyword" (passing f rules);
     domain_regex := domain_regex agg ++ values_of "regexp" (passing f rules) |}.
Proof.
  revert agg. induction rules as [|r rules IH]; intros agg.
  { destruct agg; simpl. by rewrite !app_nil_r. }
  cbn [foldl]. rewrite IH, passing_cons. unfold visit, passes.
  destruct (skipped f r); cbn [negb]; [done|].
  rewrite bucket_spec; cbn [domain domain_suffix domain_keyword domain_regex].
  by rewrite !(values_of_app _ [r] (passing f rules) : values_of _ (r :: _) = _), !app_assoc.
Qed.

Lemma aggregate_spec rules f :
  aggregate rules f =
  {| domain := values_of "full" (passing f rules);
     domain_suffix := values_of "domain" (passing f rules);
     domain_keyword := values_of "keyword" (passing f rules);
     domain_regex := values_of "regexp" (passing f rules) |}.
Proof. unfold aggregate. by rewrite foldl_visit. Qed.

Lemma key_given_true f k : key f = Some k → k ≠ "" → key_given f = true.
Proof.
  intros Hk Hne. unfold key_given, JS.truthy. rewrite Hk.
  destruct (String.eqb_spec k ""); done.
Qed.

Lemma has_spec f k r : key f = Some k → has f r = true ↔ k ∈ lowered_attrs r.
Proof.
  intros Hk. unfold has, JS.includes. rewrite Hk. apply bool_decide_eq_true.
Qed.

Lemma passes_with_key f k r :
  key f = Some k → k ≠ "" → passes f r = xorb (neg f) (has f r).
Proof.
  intros Hk Hne. unfold passes, skipped. rewrite (key_given_true f k Hk Hne).
  by destruct (neg f), (has f r).
Qed.

(** C1.  With a key given, the filter passes exactly the rules that carry the
    key when the filter is not negated, and exactly those that lack it when it
    is; the buckets of the headless rule hold the values of the passing rules,
    by type and in order.  On the rules [{attrs:["cn"]},{attrs:[]}] the filter
    [cn] keeps the first only and the filter [!cn] the second only. *)
Theorem filter_passes_exactly (rules : list Rule) (f : option string) (k : string) :
  key f = Some k → k ≠ "" →
  (∀ r, passes f r = true ↔
        (neg f = false ∧ k ∈ lowered_attrs r) ∨ (neg f = true ∧ k ∉ lowered_attrs r)) ∧
  toHeadlessRule rules f =
    List.filter (λ kv, negb (bool_decide (kv.2 = [])))
      [("domain", values_of "full" (passing f rules));
       ("domain_suffix", values_of "domain" (passing f rules));
       ("domain_keyword", values_of "keyword" (passing f rules));
       ("domain_regex", values_of "regexp" (passing f rules))] ∧
  (∀ t1 v1 t2 v2,
      let r1 := {| type := t1; value := v1; attrs := Some ["cn"] |} in
      let r2 := {| type := t2; value := v2; attrs := Some [] |} in
      passing (Some "cn") [r1; r2] = [r1] ∧ passing (Some "!cn") [r1; r2] = [r2]).
Proof.
  intros Hk Hne. split; [|split].
  - intros r. rewrite (passes_with_key f k r Hk Hne).
    pose proof (has_spec f k r Hk) as Hh.
    destruct (neg f), (has f r); simpl.
    + split; [done|]. intros [[? _]|[_ Hn]]; [done|]. destruct Hn. by apply Hh.
    + split; [|done]. intros _. right. split; [done|]. intros Hin. by apply Hh in Hin.
    + split; [|done]. intros _. left. split; [done|]. by apply Hh.
    + split; [done|]. intros [[_ Hin]|[? _]]; [|done]. by apply Hh in Hin.
  - unfold toHeadlessRule. by rewrite aggregate_spec.
  - intros t1 v1 t2 v2 r1 r2. split; reflexivity.
Qed.

Lemma filter_passes_exactly_witness :
  let r1 := {| type := "domain"; value := "qq.com"; attrs := Some ["CN"] |} in
  let r2 := {| type := "full"; value := "example.org"; attrs := Some [] |} in
  toHeadlessRule [r1; r2] (Some "!cn") = [("domain", ["example.org"])].
Proof.
  intros r1 r2.
  pose proof (filter_passes_exactly [r1; r2] (Some "!cn") "cn" eq_refl
                ltac:(discriminate)) as (_ & H & _).
  rewrite H. reflexivity.
Defined.

(** The filter [!] leaves an empty key, which the guard [if (key)] takes for no
    key at all: every rule passes. *)
Lemma empty_key_passes_all r : key (Some "!") = Some "" ∧ passes (Some "!") r = true.
Proof. split; reflexivity. Qed.

(** C2, as stated, fails: [negate == lacks] is [true] for the filter [cn] on a
    rule carrying [cn], and the rule passes. *)
Lemma negate_eq_lacks_counterexample :
  let r := {| type := "domain"; value := "qq.com"; attrs := Some ["cn"] |} in
  key (Some "cn") = Some "cn" ∧
  passes (Some "cn") r = true ∧
  Bool.eqb (neg (Some "cn")) (negb (has (Some "cn") r)) = true.
Proof. repeat split; reflexivity. Qed.

(** C2, amended.  With a key given, a rule passes if and only if the equation
    [negate == (the rule lacks the key)] evaluates to true. *)
Theorem passes_iff_negate_eq_lacks (f : option string) (k : string) (r : Rule) :
  key f = Some k → k ≠ "" →
  passes f r = Bool.eqb (neg f) (negb (has f r)) ∧
  (has f r = true ↔ k ∈ lowered_attrs r).
Proof.
  intros Hk Hne. split; [|by apply has_spec].
  rewrite (passes_with_key f k r Hk Hne). by destruct (neg f), (has f r).
Qed.

Lemma passes_iff_negate_eq_lacks_witness :
  let r := {| type := "domain"; value := "qq.com"; attrs := Some ["cn"] |} in
  passes (Some "!CN") r = Bool.eqb (neg (Some "!CN")) (negb (has (Some "!CN") r)).
Proof.
  intros r.
  exact (proj1 (passes_iff_negate_eq_lacks (Some "!CN") "cn" r eq_refl ltac:(discriminate))).
Defined.

End SrsFilter.

(** ** The stable sort *)
Section Sort.
Context {A : Type} (cmp : A → A → comparison).

Lemma sort_insert_perm x l : JS.sort_insert cmp x l ≡ₚ x :: l.
Proof.
  induction l as [|y l IH]; simpl; [done|].
  destruct (cmp x y); try done.
  rewrite IH. apply Permutation_swap.
Qed.

Lemma sort_cons x l : JS.sort cmp (x :: l) = JS.sort_insert cmp x (JS.sort cmp l).
Proof. reflexivity. Qed.

Lemma sort_perm l : JS.sort cmp l ≡ₚ l.
Proof.
  induction l as [|x l IH]; [done|].
  by rewrite sort_cons, sort_insert_perm, IH.
Qed.

(** The comparator needs to be consistent only on the elements sorted,
    those of a class [P]. *)
Context (P : A → Prop).
Hypothesis cmp_flip : ∀ x y, P x → P y → cmp y x = CompOpp (cmp x y).
Hypothesis le_trans : ∀ x y z, P x → P y → P z → le_by cmp x y → le_by cmp y z → le_by cmp x z.

Lemma flip_total x y : P x → P y → cmp x y = Gt → le_by cmp y x.
Proof. intros Hx Hy E. unfold le_by. by rewrite (cmp_flip x y), E. Qed.

Lemma tie_trans x y z :
  P x → P y → P z → cmp x y = Eq → cmp y z = Eq → cmp x z = Eq.
Proof.
  intros Hx Hy Hz Exy Eyz.
  assert (le_by cmp x z) as Hxz.
  { apply (le_trans x y z); unfold le_by; auto; congruence. }
  assert (le_by cmp z x) as Hzx.
  { apply (le_trans z y x); unfold le_by; auto.
    - rewrite (cmp_flip y z), Eyz; done.
    - rewrite (cmp_flip x y), Exy; done. }
  unfold le_by in *. rewrite (cmp_flip x z) in Hzx by done.
  by destruct (cmp x z).
Qed.

Lemma sort_insert_sorted x l :
  P x → Forall P l → StronglySorted (le_by cmp) l →
  StronglySorted (le_by cmp) (JS.sort_insert cmp x l).
Proof.
  intros Hx HP Hl. induction Hl as [|y l Hl IH Hy]; simpl.
  { repeat constructor. }
  apply Forall_cons in HP as [Py HP].
  assert (Hle : le_by cmp x y → StronglySorted (le_by cmp) (x :: y :: l)).
  { intros Hxy. constructor; [by constructor|]. constructor; [done|].
    rewrite Forall_forall in Hy, HP |- *. intros z Hz. apply (le_trans x y z); auto. }
  destruct (cmp x y) eqn:E.
  - apply Hle. unfold le_by. congruence.
  - apply Hle. unfold le_by. congruence.
  - constructor; [by apply IH|].
    rewrite Forall_forall in Hy |- *. intros z Hz.
    rewrite sort_insert_perm in Hz. apply elem_of_cons in Hz as [->|Hz]; auto.
    by apply flip_total.
Qed.

Lemma sort_sorted l : Forall P l → StronglySorted (le_by cmp) (JS.sort cmp l).
Proof.
  induction 1 as [|x l Hx HP IH]; [constructor|].
  rewrite sort_cons. apply sort_insert_sorted; auto.
  by rewrite sort_perm.
Qed.

(** Two orderings of the same elements sort to the same array when no two
    different elements tie. *)
Lemma sort_unique l l' :
  Forall P l → l' ≡ₚ l →
  (∀ x y, x ∈ l → y ∈ l → le_by cmp x y → le_by cmp y x → x = y) →
  JS.sort cmp l' = JS.sort cmp l.
Proof.
  intros HP Hperm Htie.
  apply StronglySorted_unique_strong with (R := le_by cmp).
  - intros x y Hx Hy. rewrite sort_perm in Hx, Hy. rewrite Hperm in Hx. auto.
  - apply sort_sorted. by rewrite Hperm.
  - by apply sort_sorted.
  - by rewrite !sort_perm.
Qed.

(** The sort is stable: the elements that tie with [z] leave in the order
    they came in. *)
Lemma sort_insert_stable z x l :
  P z → P x → Forall P l →
  filter (λ y, cmp z y = Eq) (JS.sort_insert cmp x l) = filter (λ y, cmp z y = Eq) (x :: l).
Proof.
  intros Hz Hx. induction 1 as [|y l Hy HP IH]; simpl; [done|].
  destruct (cmp x y) eqn:E; try done.
  rewrite !filter_cons, IH, filter_cons.
  destruct (decide (cmp z y = Eq)) as [Ey|Ny], (decide (cmp z x = Eq)) as [Ex|Nx]; try done.
  assert (cmp x y = Eq); [|congruence].
  apply (tie_trans x z y); auto. by rewrite (cmp_flip z x), Ex.
Qed.

Lemma sort_stable z l :
  P z → Forall P l →
  filter (λ y, cmp z y = Eq) (JS.sort cmp l) = filter (λ y, cmp z y = Eq) l.
Proof.
  intros Hz. induction 1 as [|x l Hx HP IH]; [done|].
  rewrite sort_cons, sort_insert_stable, !filter_cons, IH; auto.
  by rewrite sort_perm.
Qed.

End Sort.

Lemma consistent_tie {A} (cmp : A → A → comparison) x y :
  JS.Consistent cmp → le_by cmp x y → le_by cmp y x → cmp x y = Eq.
Proof.
  intros H Hxy Hyx. unfold le_by in *. rewrite (JS.cmp_opp cmp H x y) in Hyx.
  destruct (cmp x y); done.
Qed.

(** The lower-case code-unit order is a consistent comparator. *)
Lemma ascii_base_consistent : JS.Consistent JS.ascii_base.
Proof.
  assert (Hle : ∀ a b, String.compare a b ≠ Gt ↔ String.le a b).
  { intros a b. unfold String.le, String.leb. destruct (String.compare a b); simpl; naive_solver. }
  split; unfold JS.ascii_base.
  - intros x. pose proof (String.compare_antisym (JS.toLowerCase x) (JS.toLowerCase x)) as H.
    destruct (String.compare _ _); done.
  - intros x y. apply String.compare_antisym.
  - intros x y z. rewrite !Hle. apply transitivity.
Qed.

(** ** The rule array of build-geosite-json.mjs *)
Section GeositeRules.
Import Geosite.

Lemma domainTypeToRuleType_types ty : domainTypeToRuleType ty ∈ ruleTypes.
Proof.
  unfold domainTypeToRuleType, ruleTypes.
  repeat (case_match; try set_solver).
Qed.

Lemma toRule_types C ds : Forall (λ r, type r ∈ ruleTypes) (toRule C <$> ds).
Proof.
  apply Forall_fmap, Forall_forall. intros d _. apply domainTypeToRuleType_types.
Qed.

Lemma normalize_perm C ds : normalize C ds ≡ₚ toRule C <$> ds.
Proof. apply sort_perm. Qed.

Section Consistent.
Context (C : JS.Collator).
Hypothesis base_consistent : JS.Consistent (JS.base C).
Hypothesis types_apart :
  ∀ t1 t2, t1 ∈ ruleTypes → t2 ∈ ruleTypes → JS.base C t1 t2 = Eq → t1 = t2.

Lemma compareRules_opp a b : compareRules C b a = CompOpp (compareRules C a b).
Proof.
  unfold compareRules. rewrite (String.eqb_sym (type b)).
  destruct (String.eqb (type a) (type b)); apply (JS.cmp_opp _ base_consistent).
Qed.

Lemma compareRules_trans a b c :
  type a ∈ ruleTypes → type b ∈ ruleTypes → type c ∈ ruleTypes →
  le_by (compareRules C) a b → le_by (compareRules C) b c → le_by (compareRules C) a c.
Proof.
  intros Ha Hb Hc. unfold le_by, compareRules.
  destruct (String.eqb_spec (type a) (type b)) as [Eab|Nab];
    destruct (String.eqb_spec (type b) (type c)) as [Ebc|Nbc];
    destruct (String.eqb_spec (type a) (type c)) as [Eac|Nac];
    try congruence.
  - apply (JS.cmp_trans _ base_consistent).
  - intros Hab Hbc. exfalso. apply Nab, types_apart; auto.
    apply consistent_tie; auto. unfold le_by. by rewrite Eac.
  - apply (JS.cmp_trans _ base_consistent).
Qed.

Lemma normalize_sorted ds : StronglySorted (le_by (compareRules C)) (normalize C ds).
Proof.
  apply sort_sorted with (P := λ r, type r ∈ ruleTypes).
  - intros. apply compareRules_opp.
  - apply compareRules_trans.
  - apply toRule_types.
Qed.

Lemma normalize_stable ds r :
  type r ∈ ruleTypes →
  filter (λ y, compareRules C r y = Eq) (normalize C ds) =
  filter (λ y, compareRules C r y = Eq) (toRule C <$> ds).
Proof.
  intros Hr. apply sort_stable with (P := λ r, type r ∈ ruleTypes); [| |done|].
  - intros. apply compareRules_opp.
  - apply compareRules_trans.
  - apply toRule_types.
Qed.

Lemma normalize_unique ds ds' :
  ds' ≡ₚ ds →
  (∀ a b, a ∈ toRule C <$> ds → b ∈ toRule C <$> ds → compareRules C a b = Eq → a = b) →
  normalize C ds' = normalize C ds.
Proof.
  intros Hperm Htie.
  apply sort_unique with (P := λ r, type r ∈ ruleTypes).
  - intros. apply compareRules_opp.
  - apply compareRules_trans.
  - apply toRule_types.
  - by rewrite Hperm.
  - intros a b Ha Hb Hab Hba. apply Htie; auto.
    unfold le_by in *. rewrite (compareRules_opp a b) in Hba.
    by destruct (compareRules C a b).
Qed.

End Consistent.

(** C3, as stated, fails.  Two sub-records of one type and one value, one of
    them tagged [cn], compare equal; the sort is stable, so they stay in the
    order decoded, and swapping them in the input swaps them in the output.
    This holds for the lower-case code-unit collation and for every collation
    under which a string equals itself. *)
Lemma normalize_order_counterexample :
  let d1 := {| Proto.type := Some "Domain"; Proto.value := Some "qq.com";
               Proto.attribute :=
                 Some [{| Proto.key := Some "cn"; Proto.typed_value := Proto.bool_value true |}] |} in
  let d2 := {| Proto.type := Some "Domain"; Proto.value := Some "qq.com";
               Proto.attribute := Some [] |} in
  let r1 := {| type := "domain"; value := "qq.com"; attrs := ["cn"] |} in
  let r2 := {| type := "domain"; value := "qq.com"; attrs := [] |} in
  [d2; d1] ≡ₚ [d1; d2] ∧
  normalize JS.ascii_collator [d1; d2] = [r1; r2] ∧
  normalize JS.ascii_collator [d2; d1] = [r2; r1] ∧
  [r1; r2] ≠ [r2; r1] ∧
  (∀ C, JS.base C "qq.com" "qq.com" = Eq →
        normalize C [d1; d2] = [r1; r2] ∧ normalize C [d2; d1] = [r2; r1]).
Proof.
  intros d1 d2 r1 r2. split; [apply Permutation_swap|].
  split; [reflexivity|]. split; [reflexivity|]. split; [discriminate|].
  intros C HC. cbv -[JS.base]. rewrite HC. done.
Qed.

(** C3, amended.  Under a consistent collation that tells the four type names
    apart, normalizing any permutation of a sequence of sub-records yields a
    permutation of the same rules, none merged or dropped, ordered by type and
    then value; the rules that compare equal to one another come out in the
    order they were decoded in; and the array is the very same whenever no
    two different rules of the sequence compare equal. *)
Theorem normalize_permutation (C : JS.Collator) (ds ds' : list Proto.Domain) :
  JS.Consistent (JS.base C) →
  (∀ t1 t2, t1 ∈ ruleTypes → t2 ∈ ruleTypes → JS.base C t1 t2 = Eq → t1 = t2) →
  ds' ≡ₚ ds →
  normalize C ds' ≡ₚ normalize C ds ∧
  normalize C ds' ≡ₚ toRule C <$> ds ∧
  length (normalize C ds') = length ds ∧
  StronglySorted (λ a b, compareRules C a b ≠ Gt) (normalize C ds') ∧
  (∀ r, type r ∈ ruleTypes →
        filter (λ y, compareRules C r y = Eq) (normalize C ds') =
        filter (λ y, compareRules C r y = Eq) (toRule C <$> ds')) ∧
  ((∀ a b, a ∈ toRule C <$> ds → b ∈ toRule C <$> ds → compareRules C a b = Eq → a = b) →
   normalize C ds' = normalize C ds).
Proof.
  intros HC Hty Hperm. repeat split.
  - by rewrite !normalize_perm, Hperm.
  - by rewrite normalize_perm, Hperm.
  - by rewrite normalize_perm, length_fmap, Hperm.
  - by apply normalize_sorted.
  - intros r Hr. by apply normalize_stable.
  - by apply normalize_unique.
Qed.

Lemma ascii_types_apart t1 t2 :
  t1 ∈ ruleTypes → t2 ∈ ruleTypes → JS.base JS.ascii_collator t1 t2 = Eq → t1 = t2.
Proof.
  unfold ruleTypes. intros H1 H2.
  repeat (apply elem_of_cons in H1 as [->|H1]); [..|by apply elem_of_nil in H1];
    repeat (apply elem_of_cons in H2 as [->|H2]); try (by apply elem_of_nil in H2);
    by vm_compute.
Qed.

Lemma normalize_permutation_witness :
  let d1 := {| Proto.type := Some "Full"; Proto.value := Some "example.org";
               Proto.attribute := None |} in
  let d2 := {| Proto.type := Some "Domain"; Proto.value := Some " qq.com";
               Proto.attribute := None |} in
  normalize JS.ascii_collator [d1; d2] = normalize JS.ascii_collator [d2; d1].
Proof.
  intros d1 d2.
  refine (proj2 (proj2 (proj2 (proj2 (proj2
    (normalize_permutation JS.ascii_collator [d2; d1] [d1; d2]
       ascii_base_consistent ascii_types_apart (Permutation_swap _ _ _)))))) _).
  intros a b Ha Hb. simpl in Ha, Hb.
  repeat (apply elem_of_cons in Ha as [->|Ha]); [..|by apply elem_of_nil in Ha];
    repeat (apply elem_of_cons in Hb as [->|Hb]); try (by apply elem_of_nil in Hb);
    vm_compute; congruence.
Defined.

(** ** Attribute extraction *)

Lemma extractAttrs_bind l : extractAttrs (Some l) = l ≫= pushed.
Proof.
  unfold extractAttrs.
  assert (H : ∀ acc, foldl (λ attrs a, attrs ++ pushed a) acc l = acc ++ (l ≫= pushed)).
  { induction l as [|a l IH]; intros acc; simpl; [by rewrite app_nil_r|].
    by rewrite IH, app_assoc. }
  apply (H []).
Qed.

(** C9.  An attribute whose boolean value is false adds nothing to the list
    extracted, neither its key nor a [key=value] string, and so nothing to the
    rule's attrs; one whose value is true adds its bare key, in place. *)
Theorem false_attribute_contributes_nothing
    (C : JS.Collator) (k : option string) (k' : string)
    (pre post : list Proto.Attribute) (ty v : option string) :
  let off := {| Proto.key := k; Proto.typed_value := Proto.bool_value false |} in
  let on := {| Proto.key := Some k'; Proto.typed_value := Proto.bool_value true |} in
  pushed off = [] ∧
  extractAttrs (Some (pre ++ off :: post)) = extractAttrs (Some (pre ++ post)) ∧
  attrs (toRule C {| Proto.type := ty; Proto.value := v;
                     Proto.attribute := Some (pre ++ off :: post) |}) =
  attrs (toRule C {| Proto.type := ty; Proto.value := v;
                     Proto.attribute := Some (pre ++ post) |}) ∧
  extractAttrs (Some (pre ++ on :: post)) =
    extractAttrs (Some pre) ++ [k'] ++ extractAttrs (Some post).
Proof.
  intros off on.
  assert (Hoff : pushed off = []) by (unfold pushed; simpl; by destruct k).
  assert (E : extractAttrs (Some (pre ++ off :: post)) = extractAttrs (Some (pre ++ post))).
  { rewrite !extractAttrs_bind, !bind_app, bind_cons, Hoff. done. }
  split; [done|]. split; [done|]. split.
  - unfold toRule. cbn [attrs Proto.attribute]. by rewrite E.
  - by rewrite !extractAttrs_bind, bind_app, bind_cons.
Qed.

End GeositeRules.

(** ** Entries without a name *)
Section BlankNames.

Lemma geosite_collect_blank C cats site :
  Geosite.nameOf (Geosite.Proto.country_code site) = "" → Geosite.collect C cats site = cats.
Proof. unfold Geosite.collect. by intros ->. Qed.

Lemma geoip_visit_blank C written g :
  JS.trim (default "" (Geoip.country_code g)) = "" → Geoip.visit C written g = written.
Proof. unfold Geoip.visit. by intros ->. Qed.

(** C10.  An entry whose name is absent, empty or blank once trimmed is
    dropped: the run writes the files, the index and the table it writes
    without the entry.  This holds for the geosite and for the geoip script. *)
Theorem blank_name_entry_dropped (C : JS.Collator)
    (site : Geosite.Proto.GeoSite) (pre post : list Geosite.Proto.GeoSite)
    (g : Geoip.GeoIP) (gpre gpost : list Geoip.GeoIP) :
  JS.trim (default "" (Geosite.Proto.country_code site)) = "" →
  JS.trim (default "" (Geoip.country_code g)) = "" →
  Geosite.main C (pre ++ site :: post) = Geosite.main C (pre ++ post) ∧
  Geoip.main C (gpre ++ g :: gpost) = Geoip.main C (gpre ++ gpost).
Proof.
  intros Hs Hg. split.
  - unfold Geosite.main.
    replace (foldl (Geosite.collect C) [] (pre ++ site :: post))
      with (foldl (Geosite.collect C) [] (pre ++ post)); [done|].
    rewrite !foldl_app. simpl. by rewrite geosite_collect_blank.
  - unfold Geoip.main.
    replace (foldl (Geoip.visit C) [] (gpre ++ g :: gpost))
      with (foldl (Geoip.visit C) [] (gpre ++ gpost)); [done|].
    rewrite !foldl_app. simpl. by rewrite geoip_visit_blank.
Qed.

(** The three ways a name is missing. *)
Lemma blank_names :
  Geosite.nameOf None = "" ∧ Geosite.nameOf (Some "") = "" ∧
  Geosite.nameOf (Some (String " " (String "009" ""))) = "".
Proof. repeat split; reflexivity. Qed.

Lemma blank_name_entry_dropped_witness :
  let named := {| Geosite.Proto.country_code := Some "cn";
                  Geosite.Proto.domain :=
                    Some [{| Geosite.Proto.type := Some "Full";
                             Geosite.Proto.value := Some "example.cn";
                             Geosite.Proto.attribute := None |}] |} in
  let blank := {| Geosite.Proto.country_code := Some "  ";
                  Geosite.Proto.domain :=
                    Some [{| Geosite.Proto.type := Some "Full";
                             Geosite.Proto.value := Some "lost.example";
                             Geosite.Proto.attribute := None |}] |} in
  let gblank := {| Geoip.country_code := None;
                   Geoip.cidr := Some [{| Geoip.ip := [x0a; x00; x00; x00]; Geoip.prefix := 8 |}] |} in
  Geosite.files (Geosite.main JS.ascii_collator [blank; named]) =
    [("cn.json",
      {| Geosite.name := "cn";
         Geosite.rules := [{| Geosite.type := "full"; Geosite.value := "example.cn";
                              Geosite.attrs := [] |}] |})] ∧
  Geoip.main JS.ascii_collator [gblank] = {| Geoip.files := []; Geoip.index := [] |}.
Proof.
  intros named blank gblank.
  destruct (blank_name_entry_dropped JS.ascii_collator blank [] [named] gblank [] []
              eq_refl eq_refl) as [H1 H2].
  change (Geosite.main JS.ascii_collator [blank; named] =
          Geosite.main JS.ascii_collator [named]) in H1.
  change (Geoip.main JS.ascii_collator [gblank] = Geoip.main JS.ascii_collator []) in H2.
  rewrite H1, H2. split; reflexivity.
Defined.

End BlankNames.

(** ** Addresses *)
Section Addresses.
Import Geoip.

Lemma addCidr_other_length acc c :
  length (ip c) ≠ 4%nat → length (ip c) ≠ 16%nat → addCidr acc c = acc.
Proof.
  intros H4 H16. unfold addCidr. destruct acc as [v4 v6].
  destruct (Nat.eqb_spec (length (ip c)) 4); [done|].
  destruct (Nat.eqb_spec (length (ip c)) 16); done.
Qed.

(** C8.  A CIDR whose address is neither 4 nor 16 bytes long gets no text
    from either printer, adds to neither list, and the entries around it are
    processed as if it were not there. *)
Theorem unsupported_length_skipped (C : JS.Collator) (name : string)
    (c : CIDR) (pre post : list CIDR) (acc : list string * list string) :
  length (ip c) ≠ 4%nat → length (ip c) ≠ 16%nat →
  toIPv4String (ip c) = None ∧
  toIPv6String (ip c) = None ∧
  addCidr acc c = acc ∧
  foldl addCidr acc (pre ++ c :: post) = foldl addCidr acc (pre ++ post) ∧
  toGroup C name (pre ++ c :: post) = toGroup C name (pre ++ post).
Proof.
  intros H4 H16.
  assert (E : ∀ a, foldl addCidr a (pre ++ c :: post) = foldl addCidr a (pre ++ post)).
  { intros a. rewrite !foldl_app. simpl. by rewrite addCidr_other_length. }
  repeat split.
  - unfold toIPv4String. by destruct (Nat.eqb_spec (length (ip c)) 4).
  - unfold toIPv6String. by destruct (Nat.eqb_spec (length (ip c)) 16).
  - by apply addCidr_other_length.
  - apply E.
  - unfold toGroup. by rewrite E.
Qed.

Lemma unsupported_length_skipped_witness :
  let short := {| ip := [x0a; x00; x00]; prefix := 8 |} in
  let v4 := {| ip := [x0a; x00; x00; x00]; prefix := 8 |} in
  let v6 := {| ip := [xfe; x80] ++ repeat x00 13 ++ [x01]; prefix := 64 |} in
  toGroup JS.ascii_collator "lan" [v4; short; v6] =
    {| name := "lan"; cidr4 := ["10.0.0.0/8"]; cidr6 := ["fe80::1/64"] |}.
Proof.
  intros short v4 v6.
  destruct (unsupported_length_skipped JS.ascii_collator "lan" short [v4] [v6] ([], [])
              ltac:(simpl; lia) ltac:(simpl; lia)) as (_ & _ & _ & _ & H).
  change (toGroup JS.ascii_collator "lan" [v4; short; v6] =
          toGroup JS.ascii_collator "lan" [v4; v6]) in H.
  rewrite H. reflexivity.
Defined.

(** The second loop of [toIPv6String] is over after eight turns: more turns
    add nothing. *)
Lemma partsFrom_enough turns more words bs bl i :
  (bs = -1 ∨ 1 ≤ bl) → 0 ≤ i → 8 - i ≤ Z.of_nat turns →
  partsFrom (turns + more) words bs bl i = partsFrom turns words bs bl i.
Proof.
  intros Hrun. revert i. induction turns as [|n IH]; intros i Hi Hn.
  - destruct more; simpl; [done|].
    destruct (Z.ltb_spec i 8); [lia|done].
  - simpl. destruct (Z.ltb_spec i 8); [|done].
    destruct (Z.eqb_spec i bs).
    + rewrite IH by lia. done.
    + rewrite IH by lia. done.
Qed.

Lemma longestRun_shape words :
  (longestRun words).1 = -1 ∨ 2 ≤ (longestRun words).2.
Proof.
  unfold longestRun.
  destruct (Z.ltb_spec (bestLen (takeBest (scanFrom 0 words
              {| bestStart := -1; bestLen := 0; curStart := -1; curLen := 0 |}))) 2);
    simpl; [by left | by right].
Qed.

Lemma toIPv6String_turns words more :
  partsFrom (8 + more) words (longestRun words).1 (longestRun words).2 0 =
  partsFrom 8 words (longestRun words).1 (longestRun words).2 0.
Proof.
  apply partsFrom_enough; [|lia..].
  destruct (longestRun_shape words); [by left | right; lia].
Qed.

(** C4 on the code.  The all-zero address prints as three colons, and so does
    every zero run that reaches the last word; a run that stops earlier
    prints as the claim says, and a lone zero word is not compressed. *)
Theorem toIPv6String_zero_run_at_end :
  toIPv6String (repeat x00 16) = Some ":::" ∧
  toIPv6String ([x20; x01; x0d; xb8] ++ repeat x00 12) = Some "2001:db8:::" ∧
  toIPv6String (repeat x00 15 ++ [x01]) = Some "::1" ∧
  toIPv6String [x00; x01; x00; x00; x00; x02; x00; x03;
                x00; x04; x00; x05; x00; x06; x00; x07] = Some "1:0:2:3:4:5:6:7" ∧
  toIPv6String [x00; x01; x00; x00; x00; x00; x00; x02;
                x00; x00; x00; x00; x00; x03; x00; x04] = Some "1::2:0:0:3:4".
Proof. repeat split; reflexivity. Qed.

End Addresses.

(** ** The upload workers of the publisher *)
Section UploadPool.
Import SyncR2.
Local Open Scope nat_scope.
Context (puts : string → bool) (changed : list Item).

Lemma inFlight_insert u w old new :
  awaiting u !! w = Some old →
  sum_list_with flying (<[w := new]> (awaiting u)) + flying old = inFlight u + flying new.
Proof.
  intros Hw. unfold inFlight.
  assert (w < length (awaiting u)) by (apply lookup_lt_is_Some; eauto).
  assert (E : sum_list_with flying (awaiting u) =
              sum_list_with flying (take w (awaiting u)) + flying old +
              sum_list_with flying (drop (S w) (awaiting u))).
  { rewrite <- (take_drop_middle (awaiting u) w old Hw) at 1.
    rewrite sum_list_with_app. simpl. lia. }
  rewrite insert_take_drop, sum_list_with_app by done. simpl. lia.
Qed.

Lemma firstAwaiting_Some ws w0 w i :
  firstAwaiting w0 ws = Some (w, i) → w0 ≤ w ∧ ws !! (w - w0) = Some (Some i).
Proof.
  revert w0. induction ws as [|[j|] ws IH]; intros w0; simpl; [done|..].
  - intros [= <- <-]. by rewrite Nat.sub_diag.
  - intros H. apply IH in H as [Hle H]. split; [lia|].
    by replace (w - w0) with (S (w - S w0)) by lia.
Qed.

Lemma firstAwaiting_None ws w0 :
  firstAwaiting w0 ws = None → ∀ w i, ws !! w ≠ Some (Some i).
Proof.
  revert w0. induction ws as [|[j|] ws IH]; intros w0; simpl; [done|done|].
  intros H [|w] i; [done|]. simpl. by apply (IH _ H).
Qed.

Lemma next_Some sched u w i sched' :
  next sched u = Some (w, i, sched') → awaiting u !! w = Some (Some i).
Proof.
  induction sched as [|w0 sched IH]; simpl.
  - destruct (firstAwaiting 0 (awaiting u)) as [[w1 i1]|] eqn:E; [|done].
    intros [= <- <- <-]. apply firstAwaiting_Some in E as [_ E]. by rewrite Nat.sub_0_r in E.
  - destruct (awaiting u !! w0) as [[i0|]|] eqn:E; [|done..].
    by intros [= <- <- <-].
Qed.

Lemma next_None sched u : next sched u = None → ∀ w i, awaiting u !! w ≠ Some (Some i).
Proof.
  induction sched as [|w0 sched IH]; simpl.
  - destruct (firstAwaiting 0 (awaiting u)) eqn:E; [done|]. intros _.
    by apply (firstAwaiting_None _ 0).
  - destruct (awaiting u !! w0) as [[i0|]|] eqn:E; [done|done..].
Qed.

(** A worker whose put has succeeded goes back to the head of the loop. *)
Lemma UploadsInv_enter u w i it :
  UploadsInv puts changed u → awaiting u !! w = Some (Some i) →
  changed !! i = Some it → puts (key it) = true →
  UploadsInv puts changed (enter (length changed) u w) ∧
  (length changed - idx (enter (length changed) u w)) + inFlight (enter (length changed) u w) + 1 =
  (length changed - idx u) + inFlight u.
Proof.
  intros [Hidx Hbegun Hbusy Hdone] Hw Hit Hok.
  assert (Hlt : w < length (awaiting u)) by (apply lookup_lt_is_Some; eauto).
  unfold enter. destruct (Nat.ltb_spec (idx u) (length changed)) as [Hn|Hn].
  - split; [split; cbn [idx awaiting]|].
    + lia.
    + intros w' i'. destruct (decide (w' = w)) as [->|Hne].
      * rewrite list_lookup_insert_eq by done. intros [= <-]. lia.
      * rewrite list_lookup_insert_ne by done. intros H. apply Hbegun in H. lia.
    + intros _. exists w, (idx u). by rewrite list_lookup_insert_eq.
    + intros j jt Hj Hjt. destruct (decide (j = idx u)) as [->|Hne].
      * left. exists w. by rewrite list_lookup_insert_eq.
      * destruct (decide (j = i)) as [->|Hji].
        { right. rewrite Hit in Hjt. by injection Hjt as <-. }
        destruct (Hdone j jt ltac:(lia) Hjt) as [[w' Hw']|?]; [|by right].
        left. exists w'. rewrite list_lookup_insert_ne; [done|]. intros ->.
        rewrite Hw in Hw'. by injection Hw'.
    + pose proof (inFlight_insert u w (Some i) (Some (idx u)) Hw) as E.
      unfold inFlight at 1. cbn [idx awaiting]. simpl in E. lia.
  - assert (idx u = length changed) by lia.
    split; [split; cbn [idx awaiting]|].
    + lia.
    + intros w' i'. destruct (decide (w' = w)) as [->|Hne].
      * by rewrite list_lookup_insert_eq.
      * rewrite list_lookup_insert_ne by done. apply Hbegun.
    + lia.
    + intros j jt Hj Hjt. destruct (decide (j = i)) as [->|Hji].
      { right. rewrite Hit in Hjt. by injection Hjt as <-. }
      destruct (Hdone j jt Hj Hjt) as [[w' Hw']|?]; [|by right].
      left. exists w'. rewrite list_lookup_insert_ne; [done|]. intros ->.
      rewrite Hw in Hw'. by injection Hw'.
    + pose proof (inFlight_insert u w (Some i) None Hw) as E.
      unfold inFlight at 1. cbn [idx awaiting]. simpl in E. lia.
Qed.

(** What [Promise.all] settles to: with every put begun and succeeded, or
    with the key of a put that was begun and failed. *)
Lemma settle_spec turns sched u :
  UploadsInv puts changed u → (length changed - idx u) + inFlight u ≤ turns →
  idx u ≤ (settle turns puts changed sched u).1 ≤ length changed ∧
  ((settle turns puts changed sched u).2 = None →
   (settle turns puts changed sched u).1 = length changed ∧
   Forall (λ it, puts (key it) = true) changed) ∧
  (∀ k, (settle turns puts changed sched u).2 = Some k →
   ∃ i it, changed !! i = Some it ∧ key it = k ∧ puts k = false ∧
           i < (settle turns puts changed sched u).1).
Proof.
  revert sched u. induction turns as [|turns IH]; intros sched u Hinv Hfuel.
  - pose proof (up_idx _ _ _ Hinv) as Hidx.
    assert (Hall : idx u = length changed ∧ inFlight u = 0) by lia.
    destruct Hall as [Hn H0]. simpl. split; [lia|]. split; [|done].
    intros _. split; [done|]. apply Forall_lookup. intros i it Hit.
    assert (Hi : i < idx u) by (rewrite Hn; by apply lookup_lt_Some in Hit).
    destruct (up_done _ _ _ Hinv i it Hi Hit) as [[w Hw]|?]; [|done].
    exfalso. unfold inFlight in H0.
    apply list_elem_of_lookup_2 in Hw.
    apply list_elem_of_split in Hw as (l1 & l2 & E). rewrite E in H0.
    rewrite sum_list_with_app in H0. simpl in H0. lia.
  - cbn [settle]. destruct (next sched u) as [[[w i] sched']|] eqn:Hnext.
    + apply next_Some in Hnext.
      pose proof (up_begun _ _ _ Hinv w i Hnext) as Hi.
      pose proof (up_idx _ _ _ Hinv) as Hidx.
      destruct (lookup_lt_is_Some_2 changed i ltac:(lia)) as [it Hit]. rewrite Hit.
      destruct (puts (key it)) eqn:Hok.
      * destruct (UploadsInv_enter u w i it Hinv Hnext Hit Hok) as [Hinv' Hmu].
        destruct (IH sched' (enter (length changed) u w) Hinv' ltac:(lia))
          as (Hle & Hnone & Hsome).
        split; [|done]. split; [|lia].
        assert (idx u ≤ idx (enter (length changed) u w)); [|lia].
        unfold enter. destruct (idx u <? length changed); simpl; lia.
      * cbn [fst snd]. split; [lia|]. split; [done|].
        intros k [= <-]. by exists i, it.
    + cbn [fst snd]. pose proof (next_None _ _ Hnext) as Hno.
      assert (Hn : idx u = length changed).
      { pose proof (up_idx _ _ _ Hinv).
        destruct (decide (idx u < length changed)) as [Hlt|]; [|lia].
        destruct (up_busy _ _ _ Hinv Hlt) as (w & i & Hw). by destruct (Hno w i). }
      split; [lia|]. split; [|done]. intros _. split; [done|].
      apply Forall_lookup. intros i it Hit.
      assert (Hi : i < idx u) by (rewrite Hn; by apply lookup_lt_Some in Hit).
      destruct (up_done _ _ _ Hinv i it Hi Hit) as [[w Hw]|?]; [|done].
      by destruct (Hno w i).
Qed.

Lemma launch_spec n workers :
  launch n workers =
    {| idx := workers `min` n;
       awaiting := (Some <$> seq 0 (workers `min` n)) ++
                   replicate (workers - workers `min` n) None |}.
Proof.
  unfold launch.
  assert (H : ∀ k, k ≤ workers →
    foldl (enter n) {| idx := 0; awaiting := replicate workers None |} (seq 0 k) =
      {| idx := k `min` n;
         awaiting := (Some <$> seq 0 (k `min` n)) ++ replicate (workers - k `min` n) None |}).
  { induction k as [|k IH]; intros Hk.
    - simpl. by rewrite Nat.sub_0_r.
    - rewrite seq_S, foldl_app, IH by lia. cbn [foldl]. unfold enter. cbn [idx awaiting].
      destruct (Nat.ltb_spec (k `min` n) n) as [Hlt|Hge].
      + replace (k `min` n) with k by lia. replace (S k `min` n) with (S k) by lia.
        f_equal. rewrite seq_S, fmap_app, <- app_assoc. simpl.
        rewrite insert_app_r_alt by (rewrite length_fmap, length_seq; lia).
        rewrite length_fmap, length_seq, Nat.sub_diag.
        replace (workers - k) with (S (workers - S k)) by lia. done.
      + replace (k `min` n) with n by lia. replace (S k `min` n) with n by lia.
        f_equal. apply list_insert_id.
        rewrite lookup_app_r by (rewrite length_fmap, length_seq; lia).
        rewrite length_fmap, length_seq. apply lookup_replicate_2. lia. }
  by apply H.
Qed.

Lemma inFlight_launch n workers : inFlight (launch n workers) = workers `min` n.
Proof.
  rewrite launch_spec. unfold inFlight. cbn [awaiting]. rewrite sum_list_with_app.
  assert (H1 : ∀ l : list nat, sum_list_with flying (Some <$> l) = length l).
  { induction l as [|x l IH]; [done|]. rewrite fmap_cons. cbn [sum_list_with flying length].
    by rewrite IH. }
  assert (H2 : ∀ k, sum_list_with flying (replicate k None) = 0).
  { induction k as [|k IH]; simpl; [done|by rewrite IH]. }
  rewrite H1, H2, length_seq. lia.
Qed.

Lemma UploadsInv_launch workers :
  1 ≤ workers → UploadsInv puts changed (launch (length changed) workers).
Proof.
  intros Hw. rewrite launch_spec. set (m := workers `min` length changed).
  assert (Hl : ∀ w i, ((Some <$> seq 0 m) ++ replicate (workers - m) None) !! w = Some (Some i) ↔
                      w = i ∧ i < m).
  { intros w i. destruct (decide (w < m)) as [Hlt|Hge].
    - rewrite lookup_app_l by (rewrite length_fmap, length_seq; lia).
      rewrite list_lookup_fmap, lookup_seq_lt by done. simpl. split.
      + intros [= <-]. done.
      + intros [-> _]. done.
    - rewrite lookup_app_r by (rewrite length_fmap, length_seq; lia). split.
      + intros H. apply lookup_replicate in H as [? _]. done.
      + lia. }
  split; cbn [idx awaiting].
  - lia.
  - intros w i H. by apply Hl in H as [_ ?].
  - intros Hlt. exists 0, 0. apply Hl. lia.
  - intros i it Hi _. left. exists i. by apply Hl.
Qed.

(** With one worker the run is sequential: a failure is that of the item
    handed out last. *)
Lemma settle_idle turns sched u :
  awaiting u = [None] → settle turns puts changed sched u = (idx u, None).
Proof.
  intros Hu. destruct turns as [|turns]; [done|]. cbn [settle].
  assert (Hn : next sched u = None).
  { induction sched as [|w sched IH]; cbn [next]; rewrite Hu; [done|].
    destruct w as [|w]; [|destruct w]; done. }
  by rewrite Hn.
Qed.

Lemma settle_one_worker turns sched j m k :
  settle turns puts changed sched {| idx := S j; awaiting := [Some j] |} = (m, Some k) →
  ∃ it, changed !! (m - 1) = Some it ∧ key it = k ∧ 0 < m.
Proof.
  revert sched j. induction turns as [|turns IH]; intros sched j; [done|]. cbn [settle].
  destruct (next sched _) as [[[w i] sched']|] eqn:Hnext; [|done].
  apply next_Some in Hnext. cbn [awaiting] in Hnext.
  destruct w as [|w]; [|by destruct w]. injection Hnext as <-.
  destruct (changed !! j) as [it|] eqn:Hit; [|done].
  destruct (puts (key it)) eqn:Hok.
  - unfold enter. cbn [idx awaiting]. destruct (S j <? length changed).
    + apply IH.
    + by rewrite settle_idle.
  - intros [= <- <-]. exists it. replace (S j - 1) with j by lia.
    split; [done|]. split; [done|lia].
Qed.

Lemma CONCURRENCY_pos setting : 1 ≤ CONCURRENCY setting.
Proof. unfold CONCURRENCY. lia. Qed.

(** The workers' loop of a run that is not dry: the items handed to
    wrangler are the first [m] of the changed ones, the first of each worker
    among them; without a failure they are all of them, and all were put; a
    failure is that of one of them. *)
Lemma uploadAll_spec sched workers bucket :
  1 ≤ workers →
  ∃ m, workers `min` length changed ≤ m ≤ length changed ∧
    (uploadAll puts sched workers false bucket changed).1 = putOf bucket <$> take m changed ∧
    ((uploadAll puts sched workers false bucket changed).2 = None →
     m = length changed ∧ Forall (λ it, puts (key it) = true) changed) ∧
    (∀ k, (uploadAll puts sched workers false bucket changed).2 = Some k →
     ∃ i it, changed !! i = Some it ∧ key it = k ∧ puts k = false ∧ i < m ∧
             (workers = 1 → m = S i)).
Proof.
  intros Hw. unfold uploadAll. cbn [fst snd].
  assert (Hidx : idx (launch (length changed) workers) = workers `min` length changed)
    by (by rewrite launch_spec).
  assert (Hfuel : length changed - idx (launch (length changed) workers) +
                  inFlight (launch (length changed) workers) ≤ length changed)
    by (rewrite inFlight_launch, Hidx; lia).
  destruct (settle_spec (length changed) sched (launch (length changed) workers)
              (UploadsInv_launch workers Hw) Hfuel) as (Hm & Hnone & Hsome).
  exists (settle (length changed) puts changed sched (launch (length changed) workers)).1.
  split; [lia|]. split; [done|]. split; [done|].
  intros k Hk. destruct (Hsome k Hk) as (i & it & Hit & Hkey & Hputs & Hlt).
  destruct (decide (workers = 1)) as [->|Hne].
  - destruct (settle (length changed) puts changed sched (launch (length changed) 1))
      as [m r] eqn:Hs. cbn [fst snd] in *. subst r.
    assert (Hl : launch (length changed) 1 = {| idx := 1; awaiting := [Some 0] |}).
    { rewrite launch_spec. apply lookup_lt_Some in Hit.
      replace (1 `min` length changed) with 1 by lia. done. }
    rewrite Hl in Hs. apply settle_one_worker in Hs as (it' & Hit' & Hkey' & Hpos).
    exists (m - 1), it'. subst k.
    split; [done|]. split; [done|]. split; [done|]. split; lia.
  - exists i, it. by repeat split.
Qed.

End UploadPool.

Lemma uploadAll_ok puts sched setting bucket changed :
  (∀ it, it ∈ changed → puts (SyncR2.key it) = true) →
  SyncR2.uploadAll puts sched (SyncR2.CONCURRENCY setting) false bucket changed =
    ((λ it, SyncR2.PutObject bucket (SyncR2.key it) (SyncR2.file it) (SyncR2.contentType it))
       <$> changed, None).
Proof.
  intros Hok.
  destruct (uploadAll_spec puts changed sched (SyncR2.CONCURRENCY setting) bucket
              (CONCURRENCY_pos setting)) as (m & Hm & Heff & Hnone & Hsome).
  destruct (SyncR2.uploadAll puts sched (SyncR2.CONCURRENCY setting) false bucket changed)
    as [effects [k|]]; cbn [fst snd] in *.
  - destruct (Hsome k eq_refl) as (i & it & Hit & <- & Hk & _).
    rewrite Hok in Hk; [done|]. by apply list_elem_of_lookup_2 in Hit.
  - destruct (Hnone eq_refl) as [-> _]. by rewrite Heff, firstn_all.
Qed.

(** ** The publisher *)
Section Publisher.
Import SyncR2.

Lemma isChanged_spec remoteEntries item :
  isChanged remoteEntries item = true ↔
  remoteEntries !! key item = None ∨
  ∃ remote, remoteEntries !! key item = Some remote ∧
            (Entry.sha256 remote ≠ sha256 item ∨ Entry.size remote ≠ size item).
Proof.
  unfold isChanged. destruct (remoteEntries !! key item) as [remote|].
  - rewrite orb_true_iff, !negb_true_iff. split.
    + intros H. right. exists remote. split; [done|].
      destruct H as [H|H]; [left|right].
      * by apply String.eqb_neq.
      * by apply Z.eqb_neq.
    + intros [?|(r & [= <-] & [H|H])]; [done|left|right].
      * by apply String.eqb_neq.
      * by apply Z.eqb_neq.
  - split; [by left|done].
Qed.

Lemma changedOf_empty localPlan : changedOf ∅ localPlan = localPlan.
Proof.
  unfold changedOf. induction localPlan as [|it l IH]; simpl; [done|].
  unfold isChanged at 1. rewrite lookup_empty. by rewrite IH.
Qed.

(** C5.  Against a manifest with the entries [m], a local item is in the
    changed set exactly when [m] has no entry under its key, or the entry's
    hash differs from the item's, or the entry's size does; and with an empty
    changed set the run returns [m] having uploaded nothing and written no
    manifest, dry run or not.  Against a manifest without entries, or none,
    every local item is changed. *)
Theorem changed_set_exact (version generatedAt : Z) (m : gmap string Entry.t)
    (localPlan : list Item) :
  let remoteManifest :=
    Some {| version := version; generatedAt := generatedAt; entries := Some m |} in
  let changed := changedOf (remoteEntriesOf remoteManifest) localPlan in
  (∀ item,
     item ∈ changed ↔
     item ∈ localPlan ∧
     (m !! key item = None ∨
      ∃ remote, m !! key item = Some remote ∧
                (Entry.sha256 remote ≠ sha256 item ∨ Entry.size remote ≠ size item))) ∧
  (changed = [] →
   ∀ puts sched setting dryRun now bucket manifestKey,
     uploadPlan puts sched setting dryRun now bucket manifestKey localPlan remoteManifest =
       ([], Returned m)) ∧
  changedOf (remoteEntriesOf
               (Some {| version := version; generatedAt := generatedAt; entries := None |}))
    localPlan = localPlan ∧
  changedOf (remoteEntriesOf None) localPlan = localPlan.
Proof.
  intros remoteManifest changed. split; [|split; [|split]].
  - intros item. unfold changed, changedOf. change (remoteEntriesOf remoteManifest) with m.
    rewrite list_elem_of_In, filter_In, <- list_elem_of_In, isChanged_spec. done.
  - intros Hnil puts sched setting dryRun now bucket manifestKey. unfold uploadPlan.
    fold changed. by rewrite Hnil.
  - apply changedOf_empty.
  - apply changedOf_empty.
Qed.

(** A plan that matches its manifest: nothing happens. *)
Example up_to_date_run :
  let it := {| file := "dist/srs/cn.srs"; key := "geosite/cn.srs"; size := 12;
               sha256 := "ab12"; contentType := "application/octet-stream" |} in
  let remote := {| version := 1; generatedAt := 5;
                   entries := Some {[ "geosite/cn.srs" := entryOf it ]} |} in
  uploadPlan (λ _, false) [] 6%nat false 9 "bucket" "manifests/geosite.json" [it] (Some remote) =
    ([], Returned {[ "geosite/cn.srs" := entryOf it ]}).
Proof. reflexivity. Qed.

Lemma mergeEntries_snoc remoteEntries localPlan it :
  mergeEntries remoteEntries (localPlan ++ [it]) =
  <[key it := entryOf it]> (mergeEntries remoteEntries localPlan).
Proof. unfold mergeEntries. by rewrite foldl_app. Qed.

(** A key no local item has keeps the remote entry, or stays absent. *)
Lemma mergeEntries_other remoteEntries localPlan k :
  k ∉ key <$> localPlan → mergeEntries remoteEntries localPlan !! k = remoteEntries !! k.
Proof.
  induction localPlan as [|it localPlan IH] using rev_ind; [done|].
  rewrite fmap_app, not_elem_of_app, mergeEntries_snoc. simpl.
  intros [Hk Hit]. rewrite lookup_insert_ne; [by apply IH|].
  intros <-. apply Hit. by left.
Qed.

(** A local key holds the entry of a local item with that key. *)
Lemma mergeEntries_local remoteEntries localPlan it :
  it ∈ localPlan →
  ∃ it', it' ∈ localPlan ∧ key it' = key it ∧
         mergeEntries remoteEntries localPlan !! key it = Some (entryOf it').
Proof.
  induction localPlan as [|last localPlan IH] using rev_ind; [by intros ?%elem_of_nil|].
  rewrite mergeEntries_snoc. intros Hin.
  destruct (decide (key last = key it)) as [E|N].
  - exists last. rewrite E, lookup_insert_eq.
    split; [|done]. apply elem_of_app. right. by left.
  - rewrite lookup_insert_ne by done.
    apply elem_of_app in Hin as [Hin|Hin].
    + destruct (IH Hin) as (it' & ? & ? & ?). exists it'.
      split; [|done]. apply elem_of_app. by left.
    + apply list_elem_of_singleton in Hin. by subst.
Qed.

(** With one item per key it is the entry of the item itself. *)
Lemma mergeEntries_own remoteEntries localPlan it :
  NoDup (key <$> localPlan) → it ∈ localPlan →
  mergeEntries remoteEntries localPlan !! key it = Some (entryOf it).
Proof.
  induction localPlan as [|last localPlan IH] using rev_ind; [by intros _ ?%elem_of_nil|].
  rewrite fmap_app, mergeEntries_snoc. simpl. intros [Hnd [Hfresh _]]%NoDup_app Hin.
  apply elem_of_app in Hin as [Hin|Hin].
  - rewrite lookup_insert_ne; [by apply IH|].
    intros E. apply (Hfresh (key it)); [by apply list_elem_of_fmap_2|].
    rewrite E. by left.
  - apply list_elem_of_singleton in Hin as ->. by rewrite lookup_insert_eq.
Qed.

Lemma unchanged_entry remoteEntries it :
  isChanged remoteEntries it = false → remoteEntries !! key it = Some (entryOf it).
Proof.
  unfold isChanged, entryOf. destruct (remoteEntries !! key it) as [[h n]|]; [|done].
  simpl. rewrite orb_false_iff, !negb_false_iff.
  intros [->%String.eqb_eq ->%Z.eqb_eq]. done.
Qed.

(** Whatever a run returns holds, for a plan with one item per key, the hash
    and size of every local item: the merged entries after uploads, the
    remote entries when nothing had changed. *)
Lemma returned_entries_match puts sched setting dryRun now bucket manifestKey localPlan
    remoteManifest effects returned it :
  uploadPlan puts sched setting dryRun now bucket manifestKey localPlan remoteManifest =
    (effects, Returned returned) →
  NoDup (key <$> localPlan) → it ∈ localPlan →
  returned !! key it = Some (entryOf it).
Proof.
  unfold uploadPlan. intros Hrun Hnd Hin.
  destruct (changedOf (remoteEntriesOf remoteManifest) localPlan) as [|c cs] eqn:Hch.
  - simpl in Hrun. injection Hrun as <- <-. apply unchanged_entry.
    destruct (isChanged (remoteEntriesOf remoteManifest) it) eqn:E; [|done].
    assert (Hc : In it (changedOf (remoteEntriesOf remoteManifest) localPlan)).
    { apply filter_In. split; [by apply list_elem_of_In|done]. }
    rewrite Hch in Hc. done.
  - cbn [length Nat.eqb] in Hrun.
    destruct (uploadAll puts sched (CONCURRENCY setting) dryRun bucket (c :: cs))
      as [effects' [failed|]]; [done|].
    destruct dryRun; [|destruct (puts manifestKey)]; try done;
      injection Hrun as <- <-; by apply mergeEntries_own.
Qed.

(** C7.  In a run that is not dry and whose uploads all succeed, the changed
    objects are put in order, then the manifest is written and put, and
    nothing is put after it.  Its entries are the remote entries with the
    entry of each local item stored under the item's key: a key no item has
    keeps what the remote manifest had, a key some item has holds the hash
    and size of an item with that key, the item's own when no two items share
    a key. *)
Theorem manifest_merges_local_over_remote
    (puts : string → bool) (sched : list nat) (setting : nat) (now : Z)
    (bucket manifestKey : string)
    (localPlan : list Item) (remoteManifest : option Manifest) :
  let remoteEntries := remoteEntriesOf remoteManifest in
  let changed := changedOf remoteEntries localPlan in
  let merged := mergeEntries remoteEntries localPlan in
  let manifest := {| version := 1; generatedAt := now; entries := Some merged |} in
  changed ≠ [] →
  (∀ it, it ∈ changed → puts (key it) = true) →
  puts manifestKey = true →
  uploadPlan puts sched setting false now bucket manifestKey localPlan remoteManifest =
    (((λ it, PutObject bucket (key it) (file it) (contentType it)) <$> changed) ++
       [WriteTmp manifest; PutManifest bucket manifestKey manifest; UnlinkTmp],
     Returned merged) ∧
  (∀ k, k ∉ key <$> localPlan → merged !! k = remoteEntries !! k) ∧
  (∀ it, it ∈ localPlan →
     ∃ it', it' ∈ localPlan ∧ key it' = key it ∧
            merged !! key it = Some {| Entry.sha256 := sha256 it'; Entry.size := size it' |}) ∧
  (NoDup (key <$> localPlan) →
   ∀ it, it ∈ localPlan →
     merged !! key it = Some {| Entry.sha256 := sha256 it; Entry.size := size it |}).
Proof.
  intros remoteEntries changed merged manifest Hne Hok Hmk.
  split; [|split; [|split]].
  - unfold uploadPlan. fold remoteEntries changed merged.
    destruct changed as [|c changed'] eqn:E; [done|]. simpl length. cbn [Nat.eqb].
    rewrite <- E in *. rewrite uploadAll_ok by done. by rewrite Hmk.
  - intros k. apply mergeEntries_other.
  - intros it. apply mergeEntries_local.
  - intros Hnd it. by apply mergeEntries_own.
Qed.

Lemma manifest_merges_local_over_remote_witness :
  let new := {| file := "dist/srs/cn.srs"; key := "geosite/cn.srs"; size := 12;
                sha256 := "ab12"; contentType := "application/octet-stream" |} in
  let same := {| file := "index.json"; key := "geosite/index.json"; size := 40;
                 sha256 := "77f0"; contentType := "application/json" |} in
  let remote := {| version := 1; generatedAt := 5;
                   entries := Some {[ "geosite/index.json" := entryOf same;
                                      "geosite/cn.srs" := {| Entry.sha256 := "0000";
                                                             Entry.size := 12 |};
                                      "geosite/gone.srs" := {| Entry.sha256 := "dead";
                                                               Entry.size := 3 |} ]} |} in
  let merged := mergeEntries (remoteEntriesOf (Some remote)) [new; same] in
  let manifest := {| version := 1; generatedAt := 9; entries := Some merged |} in
  uploadPlan (λ _, true) [] 6%nat false 9 "bucket" "manifests/geosite.json" [new; same]
    (Some remote) =
    ([PutObject "bucket" "geosite/cn.srs" "dist/srs/cn.srs" "application/octet-stream";
      WriteTmp manifest; PutManifest "bucket" "manifests/geosite.json" manifest; UnlinkTmp],
     Returned merged) ∧
  merged !! "geosite/cn.srs" = Some {| Entry.sha256 := "ab12"; Entry.size := 12 |} ∧
  merged !! "geosite/gone.srs" = Some {| Entry.sha256 := "dead"; Entry.size := 3 |}.
Proof.
  intros new same remote merged manifest.
  destruct (manifest_merges_local_over_remote (λ _, true) [] 6%nat 9 "bucket"
              "manifests/geosite.json" [new; same] (Some remote))
    as (Hrun & Hother & _ & Hown).
  - vm_compute. discriminate.
  - done.
  - done.
  - split; [exact Hrun|]. split.
    + apply (Hown ltac:(compute_done) new). by left.
    + rewrite Hother; [done|]. compute_done.
Defined.

End Publisher.

(** ** The worker pool of the geoip rule-set builder *)
Section WorkerPool.
Import GeoipSrs.
Local Open Scope nat_scope.
Context {Task : Type} (perform : Task → Settled) (tasks : list Task).

Lemma awaited_replicate_Ready n : awaited (replicate n Ready) = [].
Proof.
  induction n as [|n IH]; [done|].
  unfold awaited in *. cbn [replicate]. by rewrite bind_cons, IH.
Qed.

Lemma awaited_app ws ws' : awaited (ws ++ ws') = awaited ws ++ awaited ws'.
Proof. unfold awaited. by rewrite bind_app. Qed.

Lemma awaited_cons w ws : awaited (w :: ws) = awaited [w] ++ awaited ws.
Proof. apply (awaited_app [w] ws). Qed.

Lemma awaited_insert ws w old new :
  ws !! w = Some old →
  ∃ rest, awaited ws ≡ₚ awaited [old] ++ rest ∧
          awaited (<[w := new]> ws) ≡ₚ awaited [new] ++ rest.
Proof.
  intros Hw. exists (awaited (take w ws) ++ awaited (drop (S w) ws)).
  assert (w < length ws) by (apply lookup_lt_is_Some; eauto).
  rewrite insert_take_drop by done.
  rewrite <- (take_drop_middle ws w old Hw) at 1.
  rewrite !awaited_app, !(awaited_cons _ (drop _ _)).
  split; by rewrite Permutation_app_swap_app.
Qed.

Lemma elem_of_insert_inv (ws : list Worker) w x y :
  x ∈ <[w := y]> ws → x = y ∨ x ∈ ws.
Proof.
  intros Hin. apply list_elem_of_lookup in Hin as [j Hj].
  apply list_lookup_insert_Some in Hj as [(-> & -> & _)|(_ & Hj)]; [by left|].
  right. by apply list_elem_of_lookup_2 in Hj.
Qed.

Lemma startedIn_snoc es e : startedIn (es ++ [e]) = startedIn es ++ startedIn [e].
Proof. unfold startedIn. by rewrite bind_app. Qed.

Lemma settledIn_app es es' : settledIn (es ++ es') = settledIn es ++ settledIn es'.
Proof. unfold settledIn. by rewrite bind_app. Qed.

Lemma PoolInv_start concurrency : PoolInv perform tasks (start concurrency).
Proof.
  split; simpl; try done.
  - by rewrite awaited_replicate_Ready.
  - intros Hin. apply elem_of_replicate in Hin as [? _]. done.
Qed.

Lemma PoolInv_resume p w : PoolInv perform tasks p → PoolInv perform tasks (resume perform tasks p w).
Proof.
  intros [Hst Hse Hre Hfi]. unfold resume.
  destruct (workers p !! w) as [[|idx|]|] eqn:Hw; try by split.
  - (* the worker takes the next index *)
    destruct (Nat.leb_spec (length tasks) (i p)) as [Hend|Hmore].
    + split; cbn [i workers results events].
      * by rewrite Hst, !Nat.min_r by lia.
      * destruct (awaited_insert _ _ _ Finished Hw) as (rest & H1 & H2).
        rewrite H2, <- H1, Hse, !Nat.min_r by lia. done.
      * done.
      * lia.
    + split; cbn [i workers results events].
      * rewrite startedIn_snoc, Hst, !Nat.min_l by lia. by rewrite seq_S.
      * destruct (awaited_insert _ _ _ (Awaiting (i p)) Hw) as (rest & H1 & H2).
        rewrite settledIn_app, app_nil_r, H2. simpl in H1. rewrite H1 in Hse.
        rewrite !Nat.min_l by lia. rewrite Nat.min_l in Hse by lia.
        rewrite seq_S. simpl. rewrite <- Hse.
        by rewrite <- Permutation_middle, Permutation_cons_append.
      * intros j. by rewrite settledIn_app, app_nil_r.
      * intros [[=]|Hin]%elem_of_insert_inv. assert (length tasks ≤ i p) by auto. lia.
  - (* the task the worker awaits settles *)
    destruct (awaited_insert _ _ _ Ready Hw) as (rest & H1 & H2).
    assert (Hidx : idx ∈ seq 0 (i p `min` length tasks)).
    { rewrite <- Hse, H1. apply elem_of_app. right. by left. }
    apply elem_of_seq in Hidx as [_ Hidx]. simpl in Hidx.
    destruct (lookup_lt_is_Some_2 tasks idx ltac:(lia)) as [t Ht]. rewrite Ht.
    assert (Hset : settledIn (events p ++ Settles idx (perform t) ::
                       (if perform t is Rejected _ then [LoggedFailure idx] else []))
                   = settledIn (events p) ++ [idx]).
    { rewrite settledIn_app. by destruct (perform t). }
    split; cbn [i workers results events].
    + rewrite <- Hst. unfold startedIn. rewrite bind_app.
      destruct (perform t); simpl; by rewrite app_nil_r.
    + rewrite Hset, H2, <- Hse, H1. simpl. by rewrite <- app_assoc.
    + intros j. rewrite Hset. destruct (decide (j = idx)) as [->|Hne].
      * rewrite lookup_insert_eq, decide_True, Ht; [done|].
        apply elem_of_app. right. by left.
      * rewrite lookup_insert_ne, Hre by done.
        destruct (decide (j ∈ settledIn (events p))) as [Hj|Hj].
        -- rewrite decide_True; [done|]. apply elem_of_app. by left.
        -- rewrite decide_False; [done|].
           intros [?|?%list_elem_of_singleton]%elem_of_app; done.
    + intros [[=]|Hin]%elem_of_insert_inv. auto.
Qed.

Lemma PoolInv_run concurrency sched :
  PoolInv perform tasks (foldl (resume perform tasks) (start concurrency) sched).
Proof.
  induction sched as [|w sched IH] using rev_ind.
  - apply PoolInv_start.
  - rewrite foldl_app. simpl. by apply PoolInv_resume.
Qed.

Lemma workers_length p w : length (workers (resume perform tasks p w)) = length (workers p).
Proof.
  unfold resume. destruct (workers p !! w) as [[|idx|]|]; try done.
  - destruct (length tasks <=? i p); simpl; by rewrite length_insert.
  - destruct (tasks !! idx); simpl; [by rewrite length_insert|done].
Qed.

Lemma workers_length_run concurrency sched :
  length (workers (foldl (resume perform tasks) (start concurrency) sched)) = concurrency.
Proof.
  induction sched as [|w sched IH] using rev_ind.
  - simpl. apply length_replicate.
  - rewrite foldl_app. simpl. by rewrite workers_length.
Qed.

Lemma allFinished_spec p : allFinished p = true ↔ Forall (λ w, w = Finished) (workers p).
Proof.
  unfold allFinished. rewrite forallb_forall, Forall_forall.
  split; intros H w Hin.
  - apply list_elem_of_In, H in Hin. by destruct w.
  - apply list_elem_of_In, H in Hin. by subst.
Qed.

Lemma awaited_finished ws : Forall (λ w, w = Finished) ws → awaited ws = [].
Proof.
  induction 1 as [|w ws -> _ IH]; [done|].
  unfold awaited in *. by rewrite bind_cons, IH.
Qed.

(** Once the pool has returned, every task has been begun once, in order, has
    settled once, and has its outcome in [results]. *)
Lemma runPool_complete concurrency sched p :
  1 ≤ concurrency → runPool perform tasks concurrency sched = Some p →
  startedIn (events p) = seq 0 (length tasks) ∧
  settledIn (events p) ≡ₚ seq 0 (length tasks) ∧
  (∀ idx t, tasks !! idx = Some t → results p !! idx = Some (perform t)) ∧
  (∀ idx, length tasks ≤ idx → results p !! idx = None).
Proof.
  intros Hc. unfold runPool.
  pose proof (PoolInv_run concurrency sched) as [Hst Hse Hre Hfi].
  pose proof (workers_length_run concurrency sched) as Hlen.
  destruct (allFinished _) eqn:Hall; [|done]. intros [= <-].
  apply allFinished_spec in Hall.
  assert (Hend : length tasks ≤ i (foldl (resume perform tasks) (start concurrency) sched)).
  { apply Hfi. destruct (workers _) as [|w ws]; [simpl in Hlen; lia|].
    apply Forall_cons in Hall as [-> _]. by left. }
  rewrite Nat.min_r in Hst, Hse by done.
  rewrite (awaited_finished _ Hall), app_nil_r in Hse.
  split; [done|]. split; [done|]. split.
  - intros idx t Ht. rewrite Hre, decide_True, Ht; [done|].
    rewrite Hse. apply elem_of_seq. apply lookup_lt_Some in Ht. lia.
  - intros idx Hidx. rewrite Hre, decide_False; [done|].
    rewrite Hse, elem_of_seq. lia.
Qed.

Lemma effort_insert ws w old new :
  ws !! w = Some old →
  sum_list_with effort (<[w := new]> ws) + effort old = sum_list_with effort ws + effort new.
Proof.
  intros Hw. assert (w < length ws) by (apply lookup_lt_is_Some; eauto).
  assert (E : sum_list_with effort ws =
              sum_list_with effort (take w ws) + effort old +
              sum_list_with effort (drop (S w) ws)).
  { rewrite <- (take_drop_middle ws w old Hw) at 1.
    rewrite sum_list_with_app. simpl. lia. }
  rewrite insert_take_drop, sum_list_with_app by done. simpl. lia.
Qed.

Lemma awaited_bound p w idx :
  PoolInv perform tasks p → workers p !! w = Some (Awaiting idx) → idx < length tasks.
Proof.
  intros [_ Hse _ _] Hw.
  destruct (awaited_insert _ _ _ Ready Hw) as (rest & H1 & _).
  assert (Hidx : idx ∈ seq 0 (i p `min` length tasks)).
  { rewrite <- Hse, H1. apply elem_of_app. right. by left. }
  apply elem_of_seq in Hidx. lia.
Qed.

(** Resuming a worker that has not left the loop brings the pool closer to
    its end. *)
Lemma resume_progress p w x :
  PoolInv perform tasks p → workers p !! w = Some x → x ≠ Finished →
  remaining tasks (resume perform tasks p w) < remaining tasks p.
Proof.
  intros Hinv Hw Hx. unfold remaining, resume. rewrite Hw.
  destruct x as [|idx|]; [| |done].
  - pose proof (effort_insert _ _ _ Finished Hw) as H1.
    pose proof (effort_insert _ _ _ (Awaiting (i p)) Hw) as H2.
    cbn [effort] in H1, H2.
    destruct (Nat.leb_spec (length tasks) (i p)); cbn [i workers]; lia.
  - pose proof (awaited_bound p w idx Hinv Hw) as Hidx.
    destruct (lookup_lt_is_Some_2 tasks idx Hidx) as [t ->]. cbn [i workers].
    pose proof (effort_insert _ _ _ Ready Hw) as H1. cbn [effort] in H1. lia.
Qed.

Lemma unfinished_worker ws :
  forallb (λ w, if w is Finished then true else false) ws = false →
  ∃ w x, ws !! w = Some x ∧ x ≠ Finished.
Proof.
  induction ws as [|x ws IH]; simpl; [done|].
  destruct x; try (intros _; by eexists 0, _).
  intros (w & x & Hw & Hx)%IH. by exists (S w), x.
Qed.

(** Whatever has happened, the pool can still return: no failure and no
    order of completion leaves a worker stuck. *)
Lemma pool_can_finish p :
  PoolInv perform tasks p →
  ∃ more, allFinished (foldl (resume perform tasks) p more) = true.
Proof.
  remember (remaining tasks p) as m eqn:Hm. revert p Hm.
  induction (lt_wf m) as [m _ IH]. intros p -> Hinv.
  destruct (allFinished p) eqn:Hall; [by exists []|].
  apply unfinished_worker in Hall as (w & x & Hw & Hx).
  destruct (IH _ (resume_progress p w x Hinv Hw Hx) (resume perform tasks p w) eq_refl)
    as [more Hmore]; [by apply PoolInv_resume|].
  by exists (w :: more).
Qed.

Lemma runPool_returns concurrency sched :
  ∃ more, is_Some (runPool perform tasks concurrency (sched ++ more)).
Proof.
  destruct (pool_can_finish _ (PoolInv_run concurrency sched)) as [more Hmore].
  exists more. unfold runPool. by rewrite foldl_app, Hmore.
Qed.

End WorkerPool.

(** ** Compiler failures in the two rule-set builds *)
Section RuleSetBuilds.

Lemma compileAll_succeeds compiles tasks total :
  Forall (λ t, compiles (Srs.outPath t) = true) tasks →
  Srs.compileAll compiles tasks total =
    (tasks ≫= attempt, Some (total + Z.of_nat (length tasks))).
Proof.
  intros Hok. revert total. induction Hok as [|t tasks Ht _ IH]; intros total; simpl.
  - by rewrite Z.add_0_r.
  - rewrite Ht, IH. do 2 f_equal. lia.
Qed.

Lemma compileAll_stops compiles pre t post total :
  Forall (λ t', compiles (Srs.outPath t') = true) pre →
  compiles (Srs.outPath t) = false →
  Srs.compileAll compiles (pre ++ t :: post) total = ((pre ≫= attempt) ++ attempt t, None).
Proof.
  intros Hok Ht. revert total. induction Hok as [|t' pre Ht' _ IH]; intros total; simpl.
  - by rewrite Ht.
  - by rewrite Ht', IH.
Qed.

(** C6, as stated, fails in both builds.  In the geosite build the first
    failure ends the run: with two categories and the compiler failing on the
    first, the second is never compiled.  In the geoip build a failure is
    stored in [results] and the run still ends with status 0, reporting every
    task as generated. *)
Lemma compile_failure_counterexample :
  let rules := [{| Srs.type := "full"; Srs.value := "example.org"; Srs.attrs := Some [] |}] in
  let geosite :=
    Srs.main JS.ascii_collator (λ out, negb (String.eqb out "a.srs")) [None]
      [("a", rules); ("b", rules)] in
  let data := {| GeoipSrs.cidr4 := Some ["10.0.0.0/8"]; GeoipSrs.cidr6 := Some [] |} in
  let geoip :=
    GeoipSrs.main JS.ascii_collator (λ out, negb (String.eqb out "lan.srs")) 2
      [0; 1; 0; 1; 0; 1]%nat [("lan", data)] in
  geosite =
    {| Srs.effects := [Srs.WriteFile ".a.json" [("domain", ["example.org"])];
                       Srs.Compile ".a.json" "a.srs"];
       Srs.generated := None;
       Srs.exitCode := 1 |} ∧
  (λ run, (GeoipSrs.results (GeoipSrs.pool run) !! 0%nat,
           GeoipSrs.results (GeoipSrs.pool run) !! 1%nat,
           GeoipSrs.generated run, GeoipSrs.exitCode run)) <$> geoip =
    Some (Some (GeoipSrs.Rejected "lan.srs"), Some GeoipSrs.Fulfilled, 2%nat, 0).
Proof. split; reflexivity. Qed.

(** C6, amended.  In the geoip build the tasks run in the pool, which catches
    a task's failure and stores it as that task's result: once the pool has
    returned, every task has been begun once, in order, has settled once, and
    [results] holds each task's outcome, failed or not; and whatever has
    happened so far, the pool can still return.  In the geosite build the tasks are compiled one after another
    and the first failure ends the run: nothing after the failed task is
    written or compiled, and the exit status is 1. *)
Theorem compile_failure_containment {Task : Type}
    (perform : Task → GeoipSrs.Settled) (tasks : list Task) (concurrency : nat)
    (sched : list nat) (p : GeoipSrs.Pool)
    (C : JS.Collator) (compiles : string → bool) (filters : list (option string))
    (categories : list (string * list Srs.Rule)) (pre post : list Srs.Task) (t : Srs.Task) :
  (1 ≤ concurrency)%nat →
  GeoipSrs.runPool perform tasks concurrency sched = Some p →
  Srs.tasks C filters categories = pre ++ t :: post →
  Forall (λ t', compiles (Srs.outPath t') = true) pre →
  compiles (Srs.outPath t) = false →
  (startedIn (GeoipSrs.events p) = seq 0 (length tasks) ∧
   settledIn (GeoipSrs.events p) ≡ₚ seq 0 (length tasks) ∧
   (∀ idx t', tasks !! idx = Some t' → GeoipSrs.results p !! idx = Some (perform t')) ∧
   (∀ idx, (length tasks ≤ idx)%nat → GeoipSrs.results p !! idx = None)) ∧
  (∀ begun, ∃ more,
      is_Some (GeoipSrs.runPool perform tasks concurrency (begun ++ more))) ∧
  Srs.main C compiles filters categories =
    {| Srs.effects := (pre ≫= attempt) ++ attempt t;
       Srs.generated := None;
       Srs.exitCode := 1 |}.
Proof.
  intros Hc Hrun Htasks Hpre Ht. split; [|split].
  - by apply (runPool_complete perform tasks concurrency sched).
  - intros begun. apply runPool_returns.
  - unfold Srs.main. rewrite Htasks, (compileAll_stops compiles pre t post 0 Hpre Ht). done.
Qed.

(** Without a failure the geosite build compiles every task and ends with
    status 0. *)
Lemma geosite_build_succeeds C compiles filters categories :
  Forall (λ t, compiles (Srs.outPath t) = true) (Srs.tasks C filters categories) →
  Srs.main C compiles filters categories =
    {| Srs.effects := Srs.tasks C filters categories ≫= attempt;
       Srs.generated := Some (Z.of_nat (length (Srs.tasks C filters categories)));
       Srs.exitCode := 0 |}.
Proof. intros Hok. unfold Srs.main. by rewrite (compileAll_succeeds _ _ 0 Hok). Qed.

Lemma compile_failure_containment_witness :
  let rules := [{| Srs.type := "full"; Srs.value := "example.org"; Srs.attrs := Some ["cn"] |}] in
  let tasks := [{| GeoipSrs.srcPath := ".lan.json"; GeoipSrs.outPath := "lan.srs";
                   GeoipSrs.source := ["10.0.0.0/8"] |};
                {| GeoipSrs.srcPath := ".lan@v4.json"; GeoipSrs.outPath := "lan@v4.srs";
                   GeoipSrs.source := ["10.0.0.0/8"] |}] in
  let perform := GeoipSrs.compile (λ out, negb (String.eqb out "lan.srs")) in
  (∃ p, GeoipSrs.runPool perform tasks 2 [1; 0; 1; 0; 0; 1]%nat = Some p ∧
        GeoipSrs.results p !! 0%nat = Some (GeoipSrs.Rejected "lan.srs") ∧
        GeoipSrs.results p !! 1%nat = Some GeoipSrs.Fulfilled) ∧
  Srs.exitCode (Srs.main JS.ascii_collator (λ out, negb (String.eqb out "a@cn.srs"))
                  Srs.defaultFilters [("a", rules); ("b", rules)]) = 1.
Proof.
  intros rules tasks perform.
  destruct (GeoipSrs.runPool perform tasks 2 [1; 0; 1; 0; 0; 1]%nat) as [p|] eqn:Hrun;
    [|by vm_compute in Hrun].
  pose proof (compile_failure_containment perform tasks 2 [1; 0; 1; 0; 0; 1]%nat p
                JS.ascii_collator (λ out, negb (String.eqb out "a@cn.srs"))
                Srs.defaultFilters [("a", rules); ("b", rules)]
                [{| Srs.srcPath := ".a.json"; Srs.outPath := "a.srs";
                    Srs.source := [("domain", ["example.org"])] |}]
                [{| Srs.srcPath := ".b.json"; Srs.outPath := "b.srs";
                    Srs.source := [("domain", ["example.org"])] |};
                 {| Srs.srcPath := ".b@cn.json"; Srs.outPath := "b@cn.srs";
                    Srs.source := [("domain", ["example.org"])] |}]
                {| Srs.srcPath := ".a@cn.json"; Srs.outPath := "a@cn.srs";
                   Srs.source := [("domain", ["example.org"])] |}
                ltac:(lia) Hrun eq_refl ltac:(repeat constructor) eq_refl)
    as ((_ & _ & Hres & _) & _ & Hmain).
  split.
  - exists p. split; [done|].
    split; [exact (Hres 0%nat _ eq_refl) | exact (Hres 1%nat _ eq_refl)].
  - by rewrite Hmain.
Defined.

End RuleSetBuilds.

(** ** The publisher: dry runs, failures, first and repeated runs *)
Section PublisherRuns.
Import SyncR2.

Lemma uploadAll_dry puts sched setting bucket changed :
  uploadAll puts sched (CONCURRENCY setting) true bucket changed =
    (DryPut ∘ key <$> changed, None).
Proof. unfold uploadAll, CONCURRENCY. by destruct setting. Qed.

(** X1.  A dry run never writes to the bucket and never throws: it logs one
    line per changed item and one for the manifest, writes and removes the
    temporary file, and returns the merged entries; with nothing changed it
    does nothing at all. *)
Theorem dry_run_writes_nothing (puts : string → bool) (sched : list nat) (setting : nat)
    (now : Z)
    (bucket manifestKey : string) (localPlan : list Item) (remoteManifest : option Manifest) :
  let remoteEntries := remoteEntriesOf remoteManifest in
  let changed := changedOf remoteEntries localPlan in
  let merged := mergeEntries remoteEntries localPlan in
  let run :=
    uploadPlan puts sched setting true now bucket manifestKey localPlan remoteManifest in
  Forall (λ e, writesBucket e = false) run.1 ∧
  run =
    if decide (changed = []) then ([], Returned remoteEntries)
    else ((DryPut ∘ key <$> changed) ++
            [WriteTmp {| version := 1; generatedAt := now; entries := Some merged |};
             DryPutManifest manifestKey; UnlinkTmp],
          Returned merged).
Proof.
  intros remoteEntries changed merged run.
  assert (Hrun : run =
    if decide (changed = []) then ([], Returned remoteEntries)
    else ((DryPut ∘ key <$> changed) ++
            [WriteTmp {| version := 1; generatedAt := now; entries := Some merged |};
             DryPutManifest manifestKey; UnlinkTmp],
          Returned merged)).
  { unfold run, uploadPlan. fold remoteEntries changed merged.
    destruct changed as [|c cs] eqn:E; [done|].
    rewrite decide_False by done. cbn [length Nat.eqb]. by rewrite uploadAll_dry. }
  split; [|done]. rewrite Hrun. destruct (decide (changed = [])); simpl; [constructor|].
  apply Forall_app. split.
  - apply Forall_fmap, Forall_forall. done.
  - repeat constructor.
Qed.

(** X2.  When wrangler fails the put of a changed item, the run throws with
    the key of a changed item whose put failed.  The puts handed to wrangler
    by then are the first [m] changed items, in order: the failed one is
    among them, and so is the first item of every worker, so that items after
    the failed one may have been put; with one worker the failed item is the
    last one handed out.  The manifest is neither written nor put: the remote
    manifest stays as it was. *)
Theorem failed_upload_leaves_manifest (puts : string → bool) (sched : list nat)
    (setting : nat) (now : Z)
    (bucket manifestKey : string) (localPlan : list Item) (remoteManifest : option Manifest)
    (it : Item) :
  let changed := changedOf (remoteEntriesOf remoteManifest) localPlan in
  it ∈ changed →
  puts (key it) = false →
  ∃ (m i : nat) (failed : Item),
    (CONCURRENCY setting `min` length changed ≤ m ≤ length changed)%nat ∧
    changed !! i = Some failed ∧ (i < m)%nat ∧ puts (key failed) = false ∧
    (CONCURRENCY setting = 1%nat → m = S i) ∧
    uploadPlan puts sched setting false now bucket manifestKey localPlan remoteManifest =
      (putOf bucket <$> take m changed, Thrown (key failed)).
Proof.
  intros changed Hin Hit. unfold uploadPlan. fold changed.
  destruct (Nat.eqb_spec (length changed) 0) as [E|_].
  { apply nil_length_inv in E. rewrite E in Hin. by apply elem_of_nil in Hin. }
  destruct (uploadAll_spec puts changed sched (CONCURRENCY setting) bucket
              (CONCURRENCY_pos setting)) as (m & Hm & Heff & Hnone & Hsome).
  destruct (uploadAll puts sched (CONCURRENCY setting) false bucket changed)
    as [effects [k|]]; cbn [fst snd] in *.
  - destruct (Hsome k eq_refl) as (i & failed & Hi & <- & Hk & Hlt & Hone).
    exists m, i, failed. by rewrite Heff.
  - destruct (Hnone eq_refl) as [_ Hall]. rewrite Forall_forall in Hall.
    rewrite (Hall it Hin) in Hit. done.
Qed.

Lemma failed_upload_leaves_manifest_witness :
  let a := {| file := "dist/srs/a.srs"; key := "geosite/a.srs"; size := 1;
              sha256 := "0a"; contentType := "application/octet-stream" |} in
  let b := {| file := "dist/srs/b.srs"; key := "geosite/b.srs"; size := 2;
              sha256 := "0b"; contentType := "application/octet-stream" |} in
  let c := {| file := "dist/srs/c.srs"; key := "geosite/c.srs"; size := 3;
              sha256 := "0c"; contentType := "application/octet-stream" |} in
  let puts := λ k, negb (String.eqb k "geosite/b.srs") in
  (∃ (m i : nat) (failed : Item),
     (CONCURRENCY 6 `min` 3 ≤ m ≤ 3)%nat ∧
     [a; b; c] !! i = Some failed ∧ (i < m)%nat ∧ puts (key failed) = false ∧
     (CONCURRENCY 6 = 1%nat → m = S i) ∧
     uploadPlan puts [] 6%nat false 7 "bucket" "manifests/geosite.json" [a; b; c] None =
       (putOf "bucket" <$> take m [a; b; c], Thrown (key failed))) ∧
  uploadPlan puts [] 6%nat false 7 "bucket" "manifests/geosite.json" [a; b; c] None =
    ([putOf "bucket" a; putOf "bucket" b; putOf "bucket" c], Thrown "geosite/b.srs") ∧
  uploadPlan puts [] 1%nat false 7 "bucket" "manifests/geosite.json" [a; b; c] None =
    ([putOf "bucket" a; putOf "bucket" b], Thrown "geosite/b.srs").
Proof.
  intros a b c puts. split; [|split; reflexivity].
  exact (failed_upload_leaves_manifest puts [] 6%nat 7 "bucket" "manifests/geosite.json"
           [a; b; c] None b ltac:(apply list_elem_of_In; right; left; reflexivity) eq_refl).
Defined.

Lemma mergeEntries_dom remoteEntries localPlan k :
  is_Some (mergeEntries remoteEntries localPlan !! k) ↔
  is_Some (remoteEntries !! k) ∨ k ∈ key <$> localPlan.
Proof.
  induction localPlan as [|it l IH] using rev_ind.
  - simpl. split; [by left|]. intros [?|?%elem_of_nil]; done.
  - rewrite mergeEntries_snoc, fmap_app, elem_of_app. simpl.
    destruct (decide (key it = k)) as [->|Hne].
    + rewrite lookup_insert_eq. split; [|by eauto].
      intros _. right. right. by left.
    + rewrite lookup_insert_ne, IH by done. split.
      * intros [?|?]; [by left|right; by left].
      * intros [?|[?|Hin]]; [by left|by right|].
        apply list_elem_of_singleton in Hin. done.
Qed.

(** X3.  A first publish, when the remote manifest is missing or is not JSON:
    every local item counts as changed and is put, in order, and the manifest
    put last holds an entry for the local keys and for no other key. *)
Theorem first_publish_uploads_all (puts : string → bool) (sched : list nat) (setting : nat)
    (now : Z) (bucket manifestKey : string) (localPlan : list Item) :
  let merged := mergeEntries ∅ localPlan in
  let manifest := {| version := 1; generatedAt := now; entries := Some merged |} in
  localPlan ≠ [] →
  (∀ it, it ∈ localPlan → puts (key it) = true) →
  puts manifestKey = true →
  changedOf (remoteEntriesOf (fetchRemoteManifest None)) localPlan = localPlan ∧
  uploadPlan puts sched setting false now bucket manifestKey localPlan
    (fetchRemoteManifest None) =
    ((putOf bucket <$> localPlan) ++
       [WriteTmp manifest; PutManifest bucket manifestKey manifest; UnlinkTmp],
     Returned merged) ∧
  (∀ k, is_Some (merged !! k) ↔ k ∈ key <$> localPlan).
Proof.
  intros merged manifest Hne Hok Hmk.
  assert (Hch : changedOf (remoteEntriesOf (fetchRemoteManifest None)) localPlan = localPlan)
    by apply changedOf_empty.
  split; [done|]. split.
  - unfold uploadPlan. rewrite Hch.
    destruct (Nat.eqb_spec (length localPlan) 0) as [E|_].
    { by apply nil_length_inv in E. }
    rewrite (uploadAll_ok puts sched setting bucket localPlan Hok). by rewrite Hmk.
  - intros k. unfold merged. rewrite mergeEntries_dom, lookup_empty.
    split; [intros [[? [=]]|?]; done|by right].
Qed.

Lemma first_publish_uploads_all_witness :
  let a := {| file := "dist/srs/a.srs"; key := "geosite/a.srs"; size := 1;
              sha256 := "0a"; contentType := "application/octet-stream" |} in
  let i := {| file := "index.json"; key := "geosite/index.json"; size := 9;
              sha256 := "1f"; contentType := "application/json" |} in
  (uploadPlan (λ _, true) [] 6%nat false 7 "bucket" "manifests/geosite.json" [a; i]
     (fetchRemoteManifest None)).1 =
    [putOf "bucket" a; putOf "bucket" i;
     WriteTmp {| version := 1; generatedAt := 7; entries := Some (mergeEntries ∅ [a; i]) |};
     PutManifest "bucket" "manifests/geosite.json"
       {| version := 1; generatedAt := 7; entries := Some (mergeEntries ∅ [a; i]) |};
     UnlinkTmp].
Proof.
  intros a i.
  destruct (first_publish_uploads_all (λ _, true) [] 6%nat 7 "bucket"
              "manifests/geosite.json" [a; i]
              ltac:(done) ltac:(done) eq_refl) as (_ & H & _).
  by rewrite H.
Defined.

Lemma isChanged_own remoteEntries it :
  remoteEntries !! key it = Some (entryOf it) → isChanged remoteEntries it = false.
Proof.
  unfold isChanged, entryOf. intros ->. simpl.
  by rewrite String.eqb_refl, Z.eqb_refl.
Qed.

(** X4.  Publishing is idempotent for a plan with one item per key: against
    the entries a run has merged, no item counts as changed, so a second run
    with that manifest puts nothing and writes no manifest. *)
Theorem second_run_uploads_nothing (puts : string → bool) (sched : list nat)
    (setting : nat) (dryRun : bool) (now now' : Z)
    (bucket manifestKey : string) (localPlan : list Item) (remoteEntries : gmap string Entry.t) :
  let merged := mergeEntries remoteEntries localPlan in
  NoDup (key <$> localPlan) →
  changedOf merged localPlan = [] ∧
  uploadPlan puts sched setting dryRun now' bucket manifestKey localPlan
    (Some {| version := 1; generatedAt := now; entries := Some merged |}) =
    ([], Returned merged).
Proof.
  intros merged Hnd.
  assert (Hch : changedOf merged localPlan = []).
  { unfold changedOf.
    assert (H : ∀ l, (∀ it, it ∈ l → it ∈ localPlan) → List.filter (isChanged merged) l = []).
    { induction l as [|it l IH]; intros Hsub; simpl; [done|].
      rewrite isChanged_own.
      - apply IH. intros it' Hin. apply Hsub. by right.
      - apply mergeEntries_own; [done|]. apply Hsub. by left. }
    by apply H. }
  split; [done|]. unfold uploadPlan.
  change (remoteEntriesOf _) with merged. by rewrite Hch.
Qed.

Lemma second_run_uploads_nothing_witness :
  let a := {| file := "dist/srs/a.srs"; key := "geosite/a.srs"; size := 1;
              sha256 := "0a"; contentType := "application/octet-stream" |} in
  let i := {| file := "index.json"; key := "geosite/index.json"; size := 9;
              sha256 := "1f"; contentType := "application/json" |} in
  changedOf (mergeEntries ∅ [a; i]) [a; i] = [].
Proof.
  intros a i.
  exact (proj1 (second_run_uploads_nothing (λ _, true) [] 6%nat false 7 8 "bucket"
                  "manifests/geosite.json" [a; i] ∅ ltac:(compute_done))).
Defined.

End PublisherRuns.

(** ** The variants of the geosite rule-set build *)
Section SrsVariants.
Import Srs.

Lemma passing_all rules : passing None rules = rules.
Proof.
  induction rules as [|r rules IH]; [done|].
  rewrite passing_cons, IH. done.
Qed.

Lemma values_of_cons ty r rules :
  values_of ty (r :: rules) = values_of ty [r] ++ values_of ty rules.
Proof. apply (values_of_app ty [r] rules). Qed.

Lemma bucket_lengths rules :
  (length (values_of "full" rules) + length (values_of "domain" rules) +
   length (values_of "keyword" rules) + length (values_of "regexp" rules))%nat =
  length (filter (λ r, type r ∈ ruleTypes) rules).
Proof.
  induction rules as [|r rules IH]; [done|].
  rewrite !(values_of_cons _ r rules), !length_app, filter_cons, !values_of_one.
  assert (Hin : ∀ t, t = "full" ∨ t = "domain" ∨ t = "keyword" ∨ t = "regexp" ↔ t ∈ ruleTypes).
  { intros t. unfold ruleTypes. rewrite !elem_of_cons, elem_of_nil.
    split; [intros [?|[?|[?|?]]]; auto 6|intros [?|[?|[?|[?|[]]]]]; auto]. }
  destruct (decide (type r ∈ ruleTypes)) as [Hr|Hr].
  - apply Hin in Hr.
    destruct (String.eqb_spec (type r) "full"), (String.eqb_spec (type r) "domain"),
      (String.eqb_spec (type r) "keyword"), (String.eqb_spec (type r) "regexp");
      simpl; try lia; try congruence.
    destruct Hr as [?|[?|[?|?]]]; done.
  - destruct (String.eqb_spec (type r) "full"), (String.eqb_spec (type r) "domain"),
      (String.eqb_spec (type r) "keyword"), (String.eqb_spec (type r) "regexp");
      simpl; try lia; destruct Hr; apply Hin; auto.
Qed.

(** The values a headless rule holds, all keys together. *)
Lemma headless_size agg :
  sum_list_with (λ kv : string * list string, length kv.2)
    (List.filter (λ kv, negb (bool_decide (kv.2 = []))) (entries agg)) =
  (length (domain agg) + length (domain_suffix agg) +
   length (domain_keyword agg) + length (domain_regex agg))%nat.
Proof.
  unfold entries. destruct agg as [[|] [|] [|] [|]]; simpl; lia.
Qed.

(** X5.  The unfiltered variant loses nothing: with no filter every rule
    passes, each bucket lists the values of all the rules of its type in
    order, and the headless rule holds as many values as there are rules of
    the four types; rules of another type are the only ones left out. *)
Theorem unfiltered_keeps_every_rule (rules : list Rule) :
  passing None rules = rules ∧
  aggregate rules None =
    {| domain := values_of "full" rules; domain_suffix := values_of "domain" rules;
       domain_keyword := values_of "keyword" rules;
       domain_regex := values_of "regexp" rules |} ∧
  sum_list_with (λ kv : string * list string, length kv.2) (toHeadlessRule rules None) =
    length (filter (λ r, type r ∈ ruleTypes) rules).
Proof.
  split; [apply passing_all|]. split.
  - by rewrite aggregate_spec, passing_all.
  - unfold toHeadlessRule. rewrite headless_size, aggregate_spec, passing_all. simpl.
    apply bucket_lengths.
Qed.

Lemma toLowerCase_idem s : JS.toLowerCase (JS.toLowerCase s) = JS.toLowerCase s.
Proof.
  induction s as [|c s IH]; simpl; [done|]. rewrite IH. f_equal.
  assert (H : ∀ c, JS.lower_ascii (JS.lower_ascii c) = JS.lower_ascii c).
  { clear. intros c. destruct c as [[|] [|] [|] [|] [|] [|] [|] [|]]; reflexivity. }
  apply H.
Qed.

(** X6.  A filter and its negation split the rules: where the filter [f]
    names a key and is not itself negated, a rule passes [!f] exactly when it
    does not pass [f], so the two variants together hold every rule once. *)
Theorem negated_variant_is_complement (f k : string) (rules : list Rule) :
  key (Some f) = Some k → k ≠ "" → neg (Some f) = false →
  key (Some ("!" +:+ f)) = Some k ∧
  neg (Some ("!" +:+ f)) = true ∧
  (∀ r, passes (Some ("!" +:+ f)) r = negb (passes (Some f) r)) ∧
  passing (Some f) rules ++ passing (Some ("!" +:+ f)) rules ≡ₚ rules.
Proof.
  intros Hk Hne Hneg.
  assert (Ht : target (Some f) = Some k).
  { unfold key in Hk. by rewrite Hneg in Hk. }
  assert (Hl : JS.toLowerCase f = k).
  { unfold target in Ht. destruct (JS.truthy (JS.toLowerCase f)); congruence. }
  assert (Hk' : key (Some ("!" +:+ f)) = Some k ∧ neg (Some ("!" +:+ f)) = true).
  { assert (E : target (Some ("!" +:+ f)) = Some (String "!" k)).
    { unfold target. change (JS.toLowerCase ("!" +:+ f)) with (String "!" (JS.toLowerCase f)).
      by rewrite Hl. }
    assert (Hs : JS.startsWith (String "!" k) "!" = true).
    { unfold JS.startsWith. simpl. by destruct k. }
    unfold key, neg. rewrite E, Hs. done. }
  destruct Hk' as [Hk' Hneg'].
  assert (Hp : ∀ r, passes (Some ("!" +:+ f)) r = negb (passes (Some f) r)).
  { intros r. rewrite (passes_with_key _ k r Hk Hne), (passes_with_key _ k r Hk' Hne).
    rewrite Hneg, Hneg'. unfold has. rewrite Hk, Hk'. by destruct (JS.includes _ _). }
  repeat split; try done.
  unfold passing. rewrite <- (filter_app_complement (λ r, passes (Some f) r = true) rules) at 3.
  f_equiv. erewrite list_filter_iff; [done|]. intros r. rewrite Hp.
  destruct (passes (Some f) r); simpl; split; try done.
Qed.

Lemma negated_variant_is_complement_witness :
  let r1 := {| type := "domain"; value := "qq.com"; attrs := Some ["cn"] |} in
  let r2 := {| type := "full"; value := "example.org"; attrs := Some [] |} in
  passing (Some "CN") [r1; r2] ++ passing (Some "!CN") [r1; r2] ≡ₚ [r1; r2].
Proof.
  intros r1 r2.
  exact (proj2 (proj2 (proj2
    (negated_variant_is_complement "CN" "cn" [r1; r2] eq_refl ltac:(discriminate) eq_refl)))).
Defined.

Lemma filter_nil_Forall {A} (P : A → Prop) `{!∀ x, Decision (P x)} (l : list A) :
  filter P l = [] ↔ Forall (λ x, ¬ P x) l.
Proof.
  induction l as [|x l IH]; [by split|].
  rewrite filter_cons, Forall_cons. destruct (decide (P x)); split.
  - done.
  - by intros [? _].
  - intros Hf. split; [done|]. by apply IH.
  - intros [_ Hf]. by apply IH.
Qed.

Lemma toHeadlessRule_nil rules f :
  toHeadlessRule rules f = [] ↔ Forall (λ r, type r ∉ ruleTypes) (passing f rules).
Proof.
  rewrite <- (filter_nil_Forall (λ r, type r ∈ ruleTypes)).
  pose proof (bucket_lengths (passing f rules)) as Hlen.
  unfold toHeadlessRule. rewrite aggregate_spec. unfold entries. simpl.
  split.
  - intros Hnil. apply length_zero_iff_nil.
    destruct (values_of "full" _), (values_of "domain" _), (values_of "keyword" _),
      (values_of "regexp" _); simpl in *; try done; lia.
  - intros Hnil. rewrite Hnil in Hlen. simpl in Hlen.
    destruct (values_of "full" _), (values_of "domain" _), (values_of "keyword" _),
      (values_of "regexp" _); simpl in *; try done; lia.
Qed.

(** X7.  A variant with nothing to compile is skipped, and only such a
    variant: the headless rule has no key exactly when no passing rule has
    one of the four types, this is exactly when no task is made for the
    variant, and a key that is present never holds an empty list. *)
Theorem empty_variant_is_skipped (name : string) (rules : list Rule) (f : option string) :
  (toHeadlessRule rules f = [] ↔ Forall (λ r, type r ∉ ruleTypes) (passing f rules)) ∧
  (taskOf name rules f = [] ↔ toHeadlessRule rules f = []) ∧
  Forall (λ kv, kv.2 ≠ []) (toHeadlessRule rules f).
Proof.
  split; [apply toHeadlessRule_nil|]. split.
  - unfold taskOf. destruct (toHeadlessRule rules f); simpl; split; done.
  - unfold toHeadlessRule. apply Forall_forall. intros kv Hin.
    apply list_elem_of_In, filter_In in Hin as [_ Hne].
    apply negb_true_iff, bool_decide_eq_false in Hne. done.
Qed.

Lemma endsWith_json n : JS.endsWith (n +:+ ".json") ".json" = true.
Proof.
  induction n as [|c n IH]; [reflexivity|].
  change (String c n +:+ ".json") with (String c (n +:+ ".json")).
  cbn [JS.endsWith]. rewrite IH. apply orb_true_r.
Qed.

Lemma stripJson_json n : stripJson (n +:+ ".json") = n.
Proof.
  induction n as [|c n IH]; [reflexivity|].
  change (String c n +:+ ".json") with (String c (n +:+ ".json")).
  cbn [stripJson]. rewrite IH.
  destruct (String.eqb_spec (String c (n +:+ ".json")) ".json") as [E|_]; [|done].
  exfalso. apply (f_equal String.length) in E. simpl in E.
  assert (H : ∀ a b, String.length (a +:+ b) = (String.length a + String.length b)%nat).
  { clear. induction a; intros b; simpl; [done|]. by rewrite IHa. }
  rewrite H in E. simpl in E. lia.
Qed.

Lemma listCategoryFiles_json (ns : list string) :
  listCategoryFiles ((λ n, n +:+ ".json") <$> ns) = (λ n, n +:+ ".json") <$> ns.
Proof.
  unfold listCategoryFiles. induction ns as [|n ns IH]; [done|].
  rewrite fmap_cons. cbn [List.filter]. by rewrite endsWith_json, IH.
Qed.

Lemma stripJson_all (ns : list string) : stripJson <$> ((λ n, n +:+ ".json") <$> ns) = ns.
Proof.
  induction ns as [|n ns IH]; [done|]. by rewrite !fmap_cons, stripJson_json, IH.
Qed.

(** X8.  The rule-set build reads back the names the JSON build wrote: every
    file written for a category ends in [.json], so none is filtered out of
    the listing, and stripping the extension gives the category's name. *)
Theorem category_names_round_trip (C : JS.Collator) (entries : list Geosite.Proto.GeoSite) :
  let files := Geosite.files (Geosite.main C entries) in
  listCategoryFiles (fst <$> files) = fst <$> files ∧
  stripJson <$> listCategoryFiles (fst <$> files) = (λ f, Geosite.name f.2) <$> files.
Proof.
  intros files. unfold files, Geosite.main. cbn [Geosite.files].
  generalize (JS.sort (λ a b, JS.base C (Geosite.name a) (Geosite.name b))
                (foldl (Geosite.collect C) [] entries)).
  intros cats. rewrite <- !list_fmap_compose.
  change (fst ∘ (λ c, (Geosite.name c +:+ ".json", c)))
    with ((λ n, n +:+ ".json") ∘ Geosite.name).
  rewrite (list_fmap_compose Geosite.name), listCategoryFiles_json, stripJson_all.
  done.
Qed.

End SrsVariants.

(** ** The variants and the pool of the geoip rule-set build *)
Section GeoipSrsVariants.
Import GeoipSrs.
Local Open Scope nat_scope.

Lemma want_none a b : want a b None = true.
Proof. done. Qed.

(** X9.  The combined geoip variant is the v4 variant followed by the v6
    variant; a variant with no address yields no rule at all rather than an
    empty one; and a filter that is none of v4, ipv4, v6, ipv6 (in any case)
    yields no rule whatever the group holds. *)
Theorem geoip_variants_compose (data : Data) (f : string) :
  default [] (toHeadlessRule data None) =
    default [] (toHeadlessRule data (Some "v4")) ++
    default [] (toHeadlessRule data (Some "v6")) ∧
  default [] (toHeadlessRule data (Some "v4")) = default [] (cidr4 data) ∧
  default [] (toHeadlessRule data (Some "v6")) = default [] (cidr6 data) ∧
  (∀ filter, toHeadlessRule data filter ≠ Some []) ∧
  (JS.toLowerCase f ∉ ["v4"; "ipv4"; "v6"; "ipv6"] → f ≠ ""%string →
   toHeadlessRule data (Some f) = None).
Proof.
  assert (Hd : ∀ l : list string,
             default [] (if (length l =? 0)%nat then None else Some l) = l).
  { intros [|x l]; done. }
  unfold toHeadlessRule. cbn [want JS.truthy JS.toLowerCase String.eqb negb orb].
  repeat split.
  - cbn. rewrite !app_nil_r, !Hd. done.
  - cbn. by rewrite app_nil_r, Hd.
  - cbn. by rewrite Hd.
  - intros filter. destruct (_ ++ _) eqn:E; simpl; [done|by intros [=]].
  - intros Hf Hne. unfold want, JS.truthy.
    destruct (String.eqb_spec f ""); [done|]. simpl.
    repeat match goal with
           | |- context [String.eqb (JS.toLowerCase f) ?x] =>
               destruct (String.eqb_spec (JS.toLowerCase f) x) as [E|_];
               [destruct Hf; rewrite E; rewrite !elem_of_cons; auto 6|]
           end.
    done.
Qed.

End GeoipSrsVariants.

(** ** The pool at every moment *)
Section PoolBounds.
Import GeoipSrs.
Local Open Scope nat_scope.
Context {Task : Type} (perform : Task → Settled) (tasks : list Task).

Lemma awaited_length ws : length (awaited ws) ≤ length ws.
Proof.
  induction ws as [|w ws IH]; [done|].
  rewrite awaited_cons, length_app. destruct w; simpl; lia.
Qed.

(** X10.  At every moment of a run of the pool, whatever the schedule: no
    more tasks are in flight than there are workers; no task is in flight
    twice, or in flight and settled, or settled twice; the tasks begun are
    the first ones, in order; and [results] has no value for a task that has
    not settled. *)
Theorem pool_stays_bounded (concurrency : nat) (sched : list nat) :
  let p := foldl (resume perform tasks) (start concurrency) sched in
  length (awaited (workers p)) ≤ concurrency ∧
  NoDup (settledIn (events p) ++ awaited (workers p)) ∧
  (∃ n, n ≤ length tasks ∧ startedIn (events p) = seq 0 n ∧
        ∀ idx, idx ∈ settledIn (events p) ++ awaited (workers p) ↔ idx < n) ∧
  (∀ idx, is_Some (results p !! idx) → idx ∈ settledIn (events p)).
Proof.
  intros p.
  pose proof (PoolInv_run perform tasks concurrency sched) as [Hst Hse Hre _].
  pose proof (workers_length_run perform tasks concurrency sched) as Hlen.
  fold p in Hst, Hse, Hre, Hlen.
  split; [|split; [|split]].
  - rewrite <- Hlen. apply awaited_length.
  - rewrite Hse. apply NoDup_seq.
  - exists (i p `min` length tasks). split; [lia|]. split; [done|].
    intros idx. rewrite Hse, elem_of_seq. lia.
  - intros idx. rewrite Hre. destruct (decide (idx ∈ settledIn (events p))); [done|].
    by intros [? [=]].
Qed.

Lemma resume_no_workers p w : workers p = [] → resume perform tasks p w = p.
Proof. intros Hw. unfold resume. by rewrite Hw. Qed.

(** X11.  A pool of no workers returns at once and runs nothing, whatever
    the tasks: [results] stays empty and no task is begun.  (A concurrency
    that is not a number gives such a pool.) *)
Theorem pool_without_workers (sched : list nat) :
  runPool perform tasks 0 sched = Some (start 0) ∧
  results (start 0) = ∅ ∧ events (start 0) = [].
Proof.
  split; [|done]. unfold runPool.
  assert (H : foldl (resume perform tasks) (start 0) sched = start 0).
  { induction sched as [|w sched IH] using rev_ind; [done|].
    rewrite foldl_app, IH. simpl. by apply resume_no_workers. }
  by rewrite H.
Qed.

End PoolBounds.

(** ** Objects and the order of their keys *)
Section Objects.
Context {V : Type}.
Implicit Types (obj : list (string * V)) (k : string) (v : V).

Example arrayIndex_examples :
  JS.arrayIndex "0" = Some 0%N ∧ JS.arrayIndex "10" = Some 10%N ∧
  JS.arrayIndex "4294967294" = Some 4294967294%N ∧ JS.arrayIndex "4294967295" = None ∧
  JS.arrayIndex "007" = None ∧ JS.arrayIndex "" = None ∧ JS.arrayIndex "cn" = None ∧
  JS.arrayIndex "-1" = None ∧ JS.arrayIndex "1e3" = None.
Proof. repeat split; reflexivity. Qed.

Lemma replace_property_keys obj k v : (JS.replace_property obj k v).*1 = obj.*1.
Proof.
  induction obj as [|[k' v'] obj IH]; [done|]. cbn [JS.replace_property].
  destruct (String.eqb_spec k' k) as [->|]; rewrite !fmap_cons; cbn [fst]; [done|].
  by rewrite IH.
Qed.

Lemma insert_index_keys i k v obj : (JS.insert_index i k v obj).*1 ≡ₚ k :: obj.*1.
Proof.
  induction obj as [|[k' v'] obj IH]; [done|]. cbn [JS.insert_index].
  destruct (JS.arrayIndex k') as [j|]; [|done].
  destruct (j <? i)%N; [|done]. rewrite !fmap_cons, IH. cbn [fst]. apply Permutation_swap.
Qed.

Lemma set_property_keys obj k v :
  (JS.set_property obj k v).*1 ≡ₚ
    if decide (k = "__proto__" ∨ k ∈ obj.*1) then obj.*1 else k :: obj.*1.
Proof.
  unfold JS.set_property. destruct (String.eqb_spec k "__proto__") as [E|E].
  { rewrite decide_True by (by left). done. }
  destruct (bool_decide_reflect (k ∈ obj.*1)) as [Hin|Hin].
  { rewrite decide_True by (by right). by rewrite replace_property_keys. }
  rewrite decide_False by (intros [?|?]; done).
  destruct (JS.arrayIndex k); [apply insert_index_keys|].
  rewrite fmap_app. simpl. by rewrite <- Permutation_cons_append.
Qed.

Lemma set_property_values (g : string → V) obj k :
  Forall (λ kv, kv.2 = g kv.1) obj → Forall (λ kv, kv.2 = g kv.1) (JS.set_property obj k (g k)).
Proof.
  intros H. unfold JS.set_property. destruct (String.eqb k "__proto__"); [done|].
  destruct (bool_decide (k ∈ obj.*1)).
  - induction H as [|[k' v'] obj Hkv Ho IH]; simpl; [constructor|].
    destruct (String.eqb k' k); by constructor.
  - destruct (JS.arrayIndex k) as [i|].
    + induction H as [|[k' v'] obj Hkv Ho IH]; simpl; [by repeat constructor|].
      destruct (JS.arrayIndex k') as [j|]; [destruct (j <? i)%N|]; by repeat constructor.
    + apply Forall_app. split; [done|]. by repeat constructor.
Qed.

Lemma arrayIndex_text k i : JS.arrayIndex k = Some i → k = JS.decimal (Z.of_N i).
Proof.
  unfold JS.arrayIndex. destruct (DecimalString.NilZero.uint_of_string k) as [d|]; [|done].
  cbv zeta. destruct (String.eqb_spec (JS.decimal (Z.of_N (N.of_uint d))) k) as [E|]; [|done].
  destruct (_ <=? _)%N; [|done]. simpl. by intros [= <-].
Qed.

Lemma insert_index_sorted i k v obj :
  JS.arrayIndex k = Some i → k ∉ obj.*1 →
  StronglySorted keyBefore obj.*1 → StronglySorted keyBefore (JS.insert_index i k v obj).*1.
Proof.
  intros Hk Hfresh Hs.
  induction obj as [|[k' v'] obj IH]; [repeat constructor|].
  rewrite fmap_cons in Hs, Hfresh. cbn [fst] in *.
  apply not_elem_of_cons in Hfresh as [Hne Hfresh].
  apply StronglySorted_inv in Hs as [Hs Hall]. cbn [JS.insert_index].
  destruct (JS.arrayIndex k') as [j|] eqn:Ej.
  - destruct (N.ltb_spec j i) as [Hlt|Hge].
    + rewrite fmap_cons. cbn [fst]. constructor; [by apply IH|].
      rewrite insert_index_keys. constructor; [|done].
      unfold keyBefore. by rewrite Ej, Hk.
    + rewrite !fmap_cons. cbn [fst]. constructor; [by constructor|].
      assert (Hji : (i < j)%N).
      { destruct (N.eq_dec i j) as [->|]; [|lia].
        apply arrayIndex_text in Hk, Ej. congruence. }
      constructor.
      * unfold keyBefore. by rewrite Hk, Ej.
      * eapply Forall_impl; [exact Hall|]. intros x. unfold keyBefore. rewrite Ej, Hk.
        destruct (JS.arrayIndex x); [lia|done].
  - rewrite !fmap_cons. cbn [fst]. constructor; [by constructor|].
    constructor.
    + unfold keyBefore. by rewrite Hk, Ej.
    + eapply Forall_impl; [exact Hall|]. intros x. unfold keyBefore. rewrite Ej, Hk.
      by destruct (JS.arrayIndex x).
Qed.

Lemma set_property_sorted obj k v :
  StronglySorted keyBefore obj.*1 → StronglySorted keyBefore (JS.set_property obj k v).*1.
Proof.
  intros Hs. unfold JS.set_property. destruct (String.eqb k "__proto__"); [done|].
  destruct (bool_decide_reflect (k ∈ obj.*1)) as [Hin|Hin].
  { by rewrite replace_property_keys. }
  destruct (JS.arrayIndex k) as [i|] eqn:Hk; [by apply insert_index_sorted|].
  rewrite fmap_app. apply StronglySorted_app_2; [|done|repeat constructor].
  intros x y _ Hy. apply list_elem_of_singleton in Hy as ->. simpl.
  unfold keyBefore. rewrite Hk. by destruct (JS.arrayIndex x).
Qed.

Lemma set_property_new obj k v :
  k ≠ "__proto__" → k ∉ obj.*1 → JS.arrayIndex k = None →
  JS.set_property obj k v = obj ++ [(k, v)].
Proof.
  intros Hp Hin Hk. unfold JS.set_property.
  destruct (String.eqb_spec k "__proto__"); [done|].
  rewrite bool_decide_eq_false_2 by done. by rewrite Hk.
Qed.

(** The object built by assigning [g n] to each name [n] in turn. *)
Lemma assigned_keys (g : string → V) (ns : list string) :
  let o := foldl (λ o n, JS.set_property o n (g n)) [] ns in
  NoDup o.*1 ∧
  (∀ n, n ∈ o.*1 ↔ n ∈ ns ∧ n ≠ "__proto__") ∧
  Forall (λ kv, kv.2 = g kv.1) o ∧
  StronglySorted keyBefore o.*1 ∧
  (NoDup ns → Forall (λ n, JS.arrayIndex n = None ∧ n ≠ "__proto__") ns →
   o = (λ n, (n, g n)) <$> ns).
Proof.
  induction ns as [|n ns IH] using rev_ind; simpl.
  { split; [constructor|]. split; [|split; [done|split; [constructor|done]]].
    intros n. split; [by intros ?%elem_of_nil|by intros [?%elem_of_nil _]]. }
  rewrite foldl_app. cbn [foldl]. destruct IH as (Hnd & Hin & Hval & Hs & Heq).
  set (o := foldl (λ o n, JS.set_property o n (g n)) [] ns) in *.
  pose proof (set_property_keys o n (g n)) as Hk.
  split; [|split; [|split; [|split]]].
  - rewrite Hk. destruct (decide (n = "__proto__" ∨ n ∈ o.*1)) as [|Hn]; [done|].
    constructor; [|done]. intros ?. apply Hn. by right.
  - intros x. rewrite Hk, elem_of_app, list_elem_of_singleton.
    destruct (decide (n = "__proto__" ∨ n ∈ o.*1)) as [[->|Hn]|Hn].
    + rewrite Hin. split; [intros [? ?]; split; [by left|done]|].
      intros [[?| ->] ?]; done.
    + rewrite Hin. split; [intros [? ?]; split; [by left|done]|].
      intros [[?| ->] ?]; [done|]. by apply Hin.
    + rewrite elem_of_cons, Hin. split.
      * intros [->|[? ?]]; [|split; [by left|done]].
        split; [by right|]. intros ->. apply Hn. by left.
      * intros [[?| ->] ?]; [right|left]; done.
  - by apply set_property_values.
  - by apply set_property_sorted.
  - intros [Hnd' [Hfresh _]]%NoDup_app [Hall [[Hidx Hp] _]%Forall_cons]%Forall_app.
    rewrite fmap_app. simpl. rewrite <- (Heq Hnd' Hall).
    apply set_property_new; [done| |done].
    rewrite Hin. intros [Hn _]. apply (Hfresh n Hn). by left.
Qed.

End Objects.

(** ** What the geosite script writes *)
Section GeositeOutput.
Import Geosite.

Lemma collect_categoryOf C cats site :
  collect C cats site = cats ++ option_list (categoryOf C site).
Proof.
  unfold collect, categoryOf. destruct (JS.truthy _); simpl; [done|by rewrite app_nil_r].
Qed.

Lemma foldl_collect C entries cats :
  foldl (collect C) cats entries = cats ++ omap (categoryOf C) entries.
Proof.
  revert cats. induction entries as [|site entries IH]; intros cats; simpl.
  - by rewrite app_nil_r.
  - rewrite IH, collect_categoryOf, <- app_assoc. f_equal.
    by destruct (categoryOf C site).
Qed.

(** X12.  The files, the index and the table of a run of the geosite script
    agree: one file per entry that has a name, called after it, none with an
    empty name; the table lists the names in the order the files are written;
    the index has each name other than [__proto__] once, linked to its
    address.  The index lists the names that are array indices first, in
    ascending numeric order; it lists the names in the order of the files
    when no two entries share a name and no name is an array index or
    [__proto__]. *)
Theorem geosite_outputs_agree (C : JS.Collator) (entries : list Proto.GeoSite) :
  let out := main C entries in
  let names := writtenNames out in
  names ≡ₚ name <$> omap (categoryOf C) entries ∧
  Forall (λ n, n ≠ "") names ∧
  fst <$> files out = (λ n, n +:+ ".json") <$> names ∧
  table out =
    ["| Name | Link |"; "|------|------|"] ++
    ((λ n, "| " +:+ n +:+ " | " +:+ link n +:+ " |") <$> names) ∧
  NoDup (index out).*1 ∧
  (∀ n, n ∈ (index out).*1 ↔ n ∈ names ∧ n ≠ "__proto__") ∧
  Forall (λ kv, kv.2 = link kv.1) (index out) ∧
  StronglySorted keyBefore (index out).*1 ∧
  (NoDup names → Forall (λ n, JS.arrayIndex n = None ∧ n ≠ "__proto__") names →
   index out = (λ n, (n, link n)) <$> names).
Proof.
  intros out names. unfold names, writtenNames, out, main. cbn [files index table].
  rewrite foldl_collect, app_nil_l.
  set (cats := JS.sort _ _).
  assert (Hperm : cats ≡ₚ omap (categoryOf C) entries) by apply sort_perm.
  rewrite <- !list_fmap_compose.
  change ((λ f : string * Category, name f.2) ∘ (λ c, (name c +:+ ".json", c))) with name.
  assert (Hfold : foldl (λ o c, JS.set_property o (name c) (link (name c))) [] cats =
                  foldl (λ o n, JS.set_property o n (link n)) [] (name <$> cats)).
  { by rewrite foldl_fmap. }
  rewrite Hfold.
  destruct (assigned_keys link (name <$> cats)) as (H1 & H2 & H3 & Hs & H4).
  split; [by rewrite Hperm|]. split.
  - rewrite Hperm. apply Forall_fmap, Forall_forall. intros c Hc.
    apply list_elem_of_omap in Hc as (site & _ & Hc). unfold categoryOf in Hc.
    destruct (JS.truthy _) eqn:E; [|done]. injection Hc as <-. simpl.
    unfold JS.truthy in E. intros Heq. by rewrite Heq in E.
  - split; [done|]. split; [done|]. split; [done|]. split; [done|]. split; [done|].
    split; [done|].
    intros Hnd Hplain. rewrite (H4 Hnd Hplain). by rewrite <- list_fmap_compose.
Qed.

(** Categories called 10 and 9 are written in that order, and listed by the
    index in the other. *)
Example index_lists_indices_first :
  let site n := {| Proto.country_code := Some n; Proto.domain := Some [] |} in
  let out := main JS.ascii_collator [site "9"; site "10"; site "cn"] in
  writtenNames out = ["10"; "9"; "cn"] ∧ (index out).*1 = ["9"; "10"; "cn"].
Proof. split; reflexivity. Qed.

(** X13.  Every rule written has one of the four types domain, full,
    keyword and regexp, and a decoded type that is none of Domain, Full,
    Plain and Regex, or is missing, is written as domain. *)
Theorem rules_have_known_types (C : JS.Collator) (entries : list Proto.GeoSite)
    (ty : option string) :
  Forall (λ f, Forall (λ r, type r ∈ ruleTypes) (rules f.2)) (files (main C entries)) ∧
  (ty ∉ [Some "Domain"; Some "Full"; Some "Plain"; Some "Regex"] →
   domainTypeToRuleType ty = "domain").
Proof.
  split.
  - unfold main. cbn [files]. rewrite foldl_collect, app_nil_l.
    apply Forall_fmap, Forall_forall. intros c Hc. simpl.
    rewrite sort_perm in Hc.
    apply list_elem_of_omap in Hc as (site & _ & Hc). unfold categoryOf in Hc.
    destruct (JS.truthy _); [|done]. injection Hc as <-. simpl.
    apply Forall_forall. intros r Hr. unfold normalize in Hr. rewrite sort_perm in Hr.
    pose proof (toRule_types C (default [] (Proto.domain site))) as Hall.
    rewrite Forall_forall in Hall. by apply Hall.
  - intros Hty. unfold domainTypeToRuleType.
    repeat (case_match; try done); subst; destruct Hty; rewrite !elem_of_cons; auto 6.
Qed.

End GeositeOutput.

(** ** The order of what the JSON scripts write *)
Section OutputOrder.

Lemma sort_sorted_consistent {A} (cmp : A → A → comparison) (l : list A) :
  JS.Consistent cmp → StronglySorted (le_by cmp) (JS.sort cmp l).
Proof.
  intros H. apply sort_sorted with (P := λ _, True).
  - intros. apply (JS.cmp_opp _ H).
  - intros x y z _ _ _. apply (JS.cmp_trans _ H).
  - by apply Forall_forall.
Qed.

Lemma consistent_on {A B} (cmp : B → B → comparison) (g : A → B) :
  JS.Consistent cmp → JS.Consistent (λ a b, cmp (g a) (g b)).
Proof. intros [H1 H2 H3]. split; intros; auto. by apply (H3 _ (g y)). Qed.

Lemma compare_consistent : JS.Consistent String.compare.
Proof.
  assert (Hle : ∀ a b, String.compare a b ≠ Gt ↔ String.le a b).
  { intros a b. unfold String.le, String.leb. by destruct (String.compare a b). }
  split.
  - intros x. pose proof (String.compare_antisym x x) as H.
    by destruct (String.compare x x).
  - intros x y. apply String.compare_antisym.
  - intros x y z. rewrite !Hle. apply transitivity.
Qed.

(** X14.  Under consistent collations what the JSON scripts write is
    ordered: the geosite categories are written in the order of their names,
    each rule's attrs are the attributes extracted, reordered, and a group's
    cidr4 and cidr6 lists are each in order. *)
Theorem json_outputs_are_ordered (C : JS.Collator)
    (entries : list Geosite.Proto.GeoSite) (d : Geosite.Proto.Domain)
    (name : string) (cidrs : list Geoip.CIDR) :
  JS.Consistent (JS.base C) → JS.Consistent (JS.numeric C) →
  StronglySorted (le_by (JS.base C)) (writtenNames (Geosite.main C entries)) ∧
  StronglySorted (le_by (JS.base C)) (Geosite.attrs (Geosite.toRule C d)) ∧
  Geosite.attrs (Geosite.toRule C d) ≡ₚ Geosite.extractAttrs (Geosite.Proto.attribute d) ∧
  StronglySorted (le_by (JS.numeric C)) (Geoip.cidr4 (Geoip.toGroup C name cidrs)) ∧
  StronglySorted (le_by (JS.base C)) (Geoip.cidr6 (Geoip.toGroup C name cidrs)).
Proof.
  intros Hb Hn. split; [|split; [|split; [|split]]].
  - unfold writtenNames, Geosite.main. cbn [Geosite.files].
    rewrite <- list_fmap_compose.
    change ((λ f : string * Geosite.Category, Geosite.name f.2) ∘
            (λ c, (Geosite.name c +:+ ".json", c))) with Geosite.name.
    pose proof (sort_sorted_consistent _ (foldl (Geosite.collect C) [] entries)
                  (consistent_on (JS.base C) Geosite.name Hb)) as Hs.
    induction Hs as [|c cs _ IH Hc]; [constructor|].
    rewrite fmap_cons. constructor; [done|]. by apply Forall_fmap.
  - by apply sort_sorted_consistent.
  - apply sort_perm.
  - unfold Geoip.toGroup. destruct (foldl Geoip.addCidr _ cidrs). simpl.
    by apply sort_sorted_consistent.
  - unfold Geoip.toGroup. destruct (foldl Geoip.addCidr _ cidrs). simpl.
    by apply sort_sorted_consistent.
Qed.

Lemma json_outputs_are_ordered_witness :
  let d := {| Geosite.Proto.type := Some "Full"; Geosite.Proto.value := Some "example.org";
              Geosite.Proto.attribute :=
                Some [{| Geosite.Proto.key := Some "cn";
                         Geosite.Proto.typed_value := Geosite.Proto.bool_value true |};
                      {| Geosite.Proto.key := Some "ads";
                         Geosite.Proto.typed_value := Geosite.Proto.no_value |}] |} in
  StronglySorted (le_by JS.ascii_base) (Geosite.attrs (Geosite.toRule JS.ascii_collator d)).
Proof.
  intros d.
  exact (proj1 (proj2 (json_outputs_are_ordered JS.ascii_collator [] d "" []
                         ascii_base_consistent compare_consistent))).
Defined.

End OutputOrder.

(** ** The run of zero words that toIPv6String compresses *)
Section ZeroRuns.
Import Geoip.

Lemma zeros_length ws s l : zeros ws s l → 1 ≤ l → s + l ≤ Z.of_nat (length ws).
Proof.
  intros (Hs & Hl & Hz) H1.
  assert (Hk : ws !! Z.to_nat (s + l - 1) = Some 0) by (apply Hz; lia).
  apply lookup_lt_Some in Hk. lia.
Qed.

Lemma zeros_app ws w s l : zeros ws s l → zeros (ws ++ [w]) s l.
Proof.
  intros (Hs & Hl & Hz). repeat split; try done.
  intros k Hk. rewrite lookup_app_l; [by apply Hz|].
  apply (lookup_lt_Some _ _ 0). by apply Hz.
Qed.

Lemma zeros_app_inv ws w s l :
  zeros (ws ++ [w]) s l → s + l ≤ Z.of_nat (length ws) → zeros ws s l.
Proof.
  intros (Hs & Hl & Hz) Hle. repeat split; try done.
  intros k Hk. rewrite <- (Hz k Hk). symmetry. apply lookup_app_l. lia.
Qed.

Lemma zeros_app_last ws w s l :
  zeros (ws ++ [w]) s l → 1 ≤ l → Z.of_nat (length ws) < s + l → w = 0.
Proof.
  intros Hz H1 Hlt. pose proof (zeros_length _ _ _ Hz H1) as Hlen.
  rewrite length_app in Hlen. simpl in Hlen.
  destruct Hz as (Hs & Hl & Hz).
  specialize (Hz (length ws) ltac:(lia)).
  rewrite lookup_app_r, Nat.sub_diag in Hz by lia. by injection Hz.
Qed.

(** A zero run lies before the current one or inside it. *)
Lemma ScanInv_runs ws st s l :
  ScanInv ws st → zeros ws s l → 1 ≤ l →
  s + l ≤ Z.of_nat (length ws) - curLen st ∨ Z.of_nat (length ws) - curLen st ≤ s.
Proof.
  intros [Hlen _ _ _ Hmax _] Hz H1.
  destruct (Z.le_gt_cases (s + l) (Z.of_nat (length ws) - curLen st)); [by left|].
  destruct (Z.le_gt_cases (Z.of_nat (length ws) - curLen st) s); [by right|].
  destruct Hz as (Hs & Hl & Hz).
  destruct Hmax as [?|(w & Hw & Hne)]; [lia|].
  rewrite Hz in Hw by lia. injection Hw as <-. done.
Qed.

Lemma firstLongest_takeBest ws st :
  ScanInv ws st →
  firstLongest ws (Z.of_nat (length ws)) (bestStart (takeBest st)) (bestLen (takeBest st)).
Proof.
  intros Hinv. pose proof Hinv as [Hlen Hnone Hsome Hzeros Hmax [Hbest Hall]].
  unfold takeBest. destruct (Z.gtb_spec (curLen st) (bestLen st)) as [Hgt|Hle]; cbn.
  - assert (0 ≤ bestLen st) by (destruct Hbest as [[-> _]|[? _]]; lia).
    split.
    + right. rewrite Hsome by lia. split; [lia|]. split; [done|]. lia.
    + intros s l Hz H1 _. rewrite Hsome by lia.
      destruct (ScanInv_runs _ _ _ _ Hinv Hz H1) as [Hbefore|Hin].
      * destruct (Hall s l Hz H1 Hbefore). lia.
      * pose proof (zeros_length _ _ _ Hz H1). lia.
  - split.
    + destruct Hbest as [?|(? & ? & ?)]; [by left|]. right.
      split; [done|]. split; [done|]. lia.
    + intros s l Hz H1 _.
      destruct (ScanInv_runs _ _ _ _ Hinv Hz H1) as [Hbefore|Hin]; [by apply Hall|].
      pose proof (zeros_length _ _ _ Hz H1).
      destruct Hbest as [[? ?]|(? & ? & ?)]; lia.
Qed.

Lemma ScanInv_start : ScanInv [] {| bestStart := -1; bestLen := 0; curStart := -1; curLen := 0 |}.
Proof.
  split; cbn.
  - lia.
  - done.
  - lia.
  - split; [done|]. split; [done|]. intros k Hk. lia.
  - by left.
  - split; [by left|]. intros s l Hz H1 Hle. destruct Hz as (? & ? & _). lia.
Qed.

Lemma ScanInv_scanWord ws st w :
  ScanInv ws st → ScanInv (ws ++ [w]) (scanWord st (Z.of_nat (length ws)) w).
Proof.
  intros Hinv. pose proof Hinv as [Hlen Hnone Hsome Hzeros Hmax [Hbest Hall]].
  assert (Hl : Z.of_nat (length (ws ++ [w])) = Z.of_nat (length ws) + 1).
  { rewrite length_app. simpl. lia. }
  unfold scanWord. destruct (Z.eqb_spec w 0) as [->|Hw].
  - split; cbn; rewrite ?Hl.
    + lia.
    + lia.
    + intros _. destruct (Z.eqb_spec (curStart st) (-1)) as [E|E].
      * destruct (Z.eq_dec (curLen st) 0) as [->|]; [lia|].
        rewrite Hsome in E by lia. lia.
      * destruct (Z.eq_dec (curLen st) 0) as [E0|]; [by apply Hnone in E0|].
        rewrite Hsome by lia. lia.
    + destruct Hzeros as (? & ? & Hz). repeat split; try lia.
      intros k Hk. destruct (decide (k < length ws)%nat).
      * rewrite lookup_app_l by done. apply Hz. lia.
      * rewrite lookup_app_r by lia. by replace (k - length ws)%nat with 0%nat by lia.
    + replace (Z.of_nat (length ws) + 1 - (curLen st + 1))
        with (Z.of_nat (length ws) - curLen st) by lia.
      destruct Hmax as [?|(w & Hw & Hne)]; [by left|]. right. exists w. split; [|done].
      rewrite lookup_app_l; [done|]. by apply lookup_lt_Some in Hw.
    + replace (Z.of_nat (length ws) + 1 - (curLen st + 1))
        with (Z.of_nat (length ws) - curLen st) by lia.
      split.
      * destruct Hbest as [?|(? & ? & ?)]; [by left|]. right.
        split; [done|]. split; [by apply zeros_app|done].
      * intros s l Hz H1 Hle. apply Hall; try done. apply zeros_app_inv in Hz; [done|lia].
  - pose proof (firstLongest_takeBest _ _ Hinv) as [Hbest' Hall'].
    split; cbn; rewrite ?Hl.
    + lia.
    + done.
    + lia.
    + repeat split; try lia.
    + right. exists w. split; [|done].
      replace (Z.to_nat _) with (length ws) by lia.
      rewrite lookup_app_r by lia. by rewrite Nat.sub_diag.
    + replace (Z.of_nat (length ws) + 1 - 0) with (Z.of_nat (length ws) + 1) by lia.
      split.
      * destruct Hbest' as [?|(? & ? & ?)]; [by left|]. right.
        split; [done|]. split; [by apply zeros_app|lia].
      * intros s l Hz H1 Hle.
        destruct (Z.le_gt_cases (s + l) (Z.of_nat (length ws))) as [Hin|Hout].
        -- apply Hall'; try done. by apply zeros_app_inv in Hz.
        -- apply zeros_app_last in Hz; done.
Qed.

Lemma ScanInv_scanFrom rest ws st :
  ScanInv ws st → ScanInv (ws ++ rest) (scanFrom (Z.of_nat (length ws)) rest st).
Proof.
  revert ws st. induction rest as [|w rest IH]; intros ws st Hinv; simpl.
  - by rewrite app_nil_r.
  - rewrite (cons_middle w ws rest), app_assoc.
    replace (Z.of_nat (length ws) + 1) with (Z.of_nat (length (ws ++ [w])))
      by (rewrite length_app; simpl; lia).
    apply IH. by apply ScanInv_scanWord.
Qed.

Lemma longestRun_firstLongest words :
  let st := takeBest (scanFrom 0 words
              {| bestStart := -1; bestLen := 0; curStart := -1; curLen := 0 |}) in
  firstLongest words (Z.of_nat (length words)) (bestStart st) (bestLen st).
Proof.
  apply firstLongest_takeBest. apply (ScanInv_scanFrom words [] _ ScanInv_start).
Qed.

(** What the second loop may rely on. *)
Lemma longestRun_range words :
  (longestRun words).1 = -1 ∧ 0 ≤ (longestRun words).2 < 2 ∨
  0 ≤ (longestRun words).1 ∧ 2 ≤ (longestRun words).2 ∧
  (longestRun words).1 + (longestRun words).2 ≤ Z.of_nat (length words).
Proof.
  pose proof (longestRun_firstLongest words) as [Hbest _]. cbn zeta in Hbest.
  unfold longestRun.
  destruct (Z.ltb_spec (bestLen (takeBest (scanFrom 0 words
              {| bestStart := -1; bestLen := 0; curStart := -1; curLen := 0 |}))) 2);
    cbn [fst snd].
  - left. destruct Hbest as [[? ?]|(? & ? & ?)]; lia.
  - right. destruct Hbest as [[? ?]|(? & (? & ? & ?) & ?)]; lia.
Qed.

(** X15.  The run that [toIPv6String] compresses is the first longest run of
    zero words: when there is one it has at least two words, all zero, no
    zero run is longer, and none as long starts before it; when there is
    none, no two neighbouring words are both zero. *)
Theorem longestRun_first_longest (words : list Z) :
  ((longestRun words).1 = -1 → ∀ s l, zeros words s l → l ≤ 1) ∧
  ((longestRun words).1 ≠ -1 →
   2 ≤ (longestRun words).2 ∧
   zeros words (longestRun words).1 (longestRun words).2 ∧
   ∀ s l, zeros words s l →
     l ≤ (longestRun words).2 ∧ (l = (longestRun words).2 → (longestRun words).1 ≤ s)).
Proof.
  pose proof (longestRun_firstLongest words) as [Hbest Hall]. cbn zeta in Hbest, Hall.
  unfold longestRun.
  destruct (Z.ltb_spec (bestLen (takeBest (scanFrom 0 words
              {| bestStart := -1; bestLen := 0; curStart := -1; curLen := 0 |}))) 2) as [Hlt|Hge];
    cbn [fst snd].
  - split; [|done]. intros _ s l Hz.
    destruct (Z.le_gt_cases l 1) as [|Hl]; [done|].
    destruct (Hall s l Hz ltac:(lia) (zeros_length _ _ _ Hz ltac:(lia))). lia.
  - split.
    + intros E. destruct Hbest as [[? ?]|(? & (? & ? & ?) & ?)]; lia.
    + intros _. destruct Hbest as [[? ?]|(? & Hz & ?)]; [lia|].
      split; [done|]. split; [done|]. intros s l Hz'.
      destruct (Z.le_gt_cases 1 l) as [Hl|Hl].
      * apply Hall; try done. by apply zeros_length.
      * split; [lia|]. lia.
Qed.

End ZeroRuns.

(** ** Texts: first and last characters, joins *)
Section Texts.

Lemma append_cons c s t : String c s +:+ t = String c (s +:+ t).
Proof. done. Qed.

Lemma append_nil_r s : s +:+ "" = s.
Proof. induction s as [|c s IH]; [done|by rewrite append_cons, IH]. Qed.

Lemma append_assoc s t u : (s +:+ t) +:+ u = s +:+ t +:+ u.
Proof. induction s as [|c s IH]; [done|by rewrite !append_cons, IH]. Qed.

Lemma rev_app_append s acc : String.rev_app s acc = String.rev s +:+ acc.
Proof.
  revert acc. induction s as [|c s IH]; intros acc; [done|].
  unfold String.rev. simpl. rewrite (IH (String c acc)), (IH (String c "")).
  by rewrite append_assoc.
Qed.

Lemma rev_append s t : String.rev (s +:+ t) = String.rev t +:+ String.rev s.
Proof.
  induction s as [|c s IH].
  - change ("" +:+ t) with t. by rewrite append_nil_r.
  - rewrite append_cons. unfold String.rev at 1 3. simpl.
    rewrite !rev_app_append, IH. by rewrite append_assoc.
Qed.

Lemma rev_empty s : String.rev s = "" → s = "".
Proof.
  destruct s as [|c s]; [done|]. unfold String.rev. simpl. rewrite rev_app_append.
  by destruct (String.rev s).
Qed.

Lemma firstChar_append s t : s ≠ "" → firstChar (s +:+ t) = firstChar s.
Proof. by destruct s. Qed.

Lemma lastChar_append s t : t ≠ "" → lastChar (s +:+ t) = lastChar t.
Proof.
  intros Ht. unfold lastChar. rewrite rev_append. apply firstChar_append.
  intros E. by apply rev_empty in E.
Qed.

Lemma replaceLeadingColon_keeps s :
  firstChar s ≠ Some ":"%char → Geoip.replaceLeadingColon s = s.
Proof.
  destruct s as [|c s]; [done|]. simpl.
  destruct c as [[] [] [] [] [] [] [] []]; done.
Qed.

Lemma replaceTrailingColon_keeps s :
  lastChar s ≠ Some ":"%char → Geoip.replaceTrailingColon s = s.
Proof.
  unfold lastChar, Geoip.replaceTrailingColon. destruct (String.rev s) as [|c r]; [done|].
  simpl. destruct c as [[] [] [] [] [] [] [] []]; done.
Qed.

Lemma replaceTrailingColon_doubles s :
  lastChar s = Some ":"%char → Geoip.replaceTrailingColon s = s +:+ ":".
Proof.
  unfold lastChar, Geoip.replaceTrailingColon. destruct (String.rev s) as [|c r]; [done|].
  simpl. by intros [= ->].
Qed.

Lemma plain_digits d :
  d ≠ Hexadecimal.Nil → plain (HexadecimalString.NilEmpty.string_of_uint d).
Proof.
  assert (Hcons : ∀ c s, c ≠ ":"%char → (s = "" ∨ plain s) → plain (String c s)).
  { intros c s Hc Hs. split; [done|]. split; [simpl; congruence|].
    destruct Hs as [->|(Hne & _ & Hl)].
    - unfold lastChar. simpl. congruence.
    - change (String c s) with (String c "" +:+ s). by rewrite lastChar_append. }
  induction d as [|d IH|d IH|d IH|d IH|d IH|d IH|d IH|d IH|d IH|d IH|d IH|d IH|d IH|d IH|d IH|d IH];
    intros Hd; [done|simpl; apply Hcons; [done|destruct d; [by left|right; by apply IH..]]..].
Qed.

Lemma plain_hex w : plain (JS.hex w).
Proof.
  unfold JS.hex, HexadecimalString.NilZero.string_of_uint.
  destruct (N.to_hex_uint (Z.to_N w)) eqn:E; try (rewrite <- E; apply plain_digits; by rewrite E).
  split; [done|]. split; done.
Qed.

Lemma join_cons sep p parts :
  parts ≠ [] → JS.join sep (p :: parts) = p +:+ sep +:+ JS.join sep parts.
Proof. by destruct parts. Qed.

Lemma join_app sep (A B : list string) :
  A ≠ [] → B ≠ [] → JS.join sep (A ++ B) = JS.join sep A +:+ sep +:+ JS.join sep B.
Proof.
  intros HA HB. induction A as [|a A IH]; [done|].
  destruct A as [|a' A].
  - simpl. by destruct B.
  - rewrite <- app_comm_cons, join_cons by done. rewrite IH by done.
    rewrite (join_cons _ a (a' :: A)) by done. by rewrite !append_assoc.
Qed.

Lemma plain_join (parts : list string) :
  parts ≠ [] → Forall plain parts → plain (JS.join ":" parts).
Proof.
  intros Hne Hall. induction Hall as [|p parts Hp Hall IH]; [done|].
  destruct parts as [|q parts]; [done|].
  rewrite join_cons by done. destruct (IH ltac:(done)) as (Hj & Hf & Hl).
  destruct Hp as (Hp & Hpf & Hpl).
  split; [by destruct p|]. split.
  - by rewrite firstChar_append.
  - rewrite lastChar_append by done.
    change (":" +:+ JS.join ":" (q :: parts)) with (String ":" "" +:+ JS.join ":" (q :: parts)).
    by rewrite lastChar_append.
Qed.

End Texts.

(** ** The text of a 16-byte address *)
Section AddressText.
Import Geoip.

Lemma toWords_length u8 : length (toWords u8) = (length u8 `div` 2)%nat.
Proof.
  induction u8 as [u8 IH] using (induction_ltof1 _ (@length _)).
  destruct u8 as [|hi [|lo rest]]; [done..|].
  cbn [toWords length]. rewrite IH by (unfold ltof; simpl; lia).
  change (S (S (length rest))) with (1 * 2 + length rest)%nat.
  rewrite Nat.add_comm, Nat.div_add by done. lia.
Qed.

(** From a place past the run on, the second loop prints the words left. *)
Lemma partsFrom_words turns ws bs bl i :
  Z.of_nat (length ws) = 8 → bs < i → 0 ≤ i ≤ 8 → 8 - i ≤ Z.of_nat turns →
  partsFrom turns ws bs bl i = JS.hex <$> drop (Z.to_nat i) ws.
Proof.
  intros Hlen. revert i. induction turns as [|n IH]; intros i Hbs Hi Hn.
  - rewrite drop_ge by lia. done.
  - cbn [partsFrom]. destruct (Z.ltb_spec i 8).
    + destruct (Z.eqb_spec i bs); [lia|].
      rewrite IH by lia.
      destruct (lookup_lt_is_Some_2 ws (Z.to_nat i) ltac:(lia)) as [w Hw].
      rewrite (drop_S _ _ _ Hw), (nth_lookup_Some _ _ _ _ Hw), fmap_cons.
      by replace (Z.to_nat (i + 1)) with (S (Z.to_nat i)) by lia.
    + rewrite drop_ge by lia. done.
Qed.

(** Up to the run it prints the words, then the empty part or parts, then
    the words after the run. *)
Lemma partsFrom_run turns ws bs bl i :
  Z.of_nat (length ws) = 8 → 0 ≤ i ≤ bs → 1 ≤ bl → bs + bl ≤ 8 →
  8 - i ≤ Z.of_nat turns →
  partsFrom turns ws bs bl i =
    (JS.hex <$> take (Z.to_nat (bs - i)) (drop (Z.to_nat i) ws)) ++
    "" :: (if bs + bl >=? 8 then [""] else []) ++ (JS.hex <$> drop (Z.to_nat (bs + bl)) ws).
Proof.
  intros Hlen. revert i. induction turns as [|n IH]; intros i Hi Hbl Hend Hn; [lia|].
  cbn [partsFrom]. destruct (Z.ltb_spec i 8); [|lia].
  destruct (Z.eqb_spec i bs) as [->|Hne].
  - rewrite Z.sub_diag. cbn [Z.to_nat take fmap list_fmap app]. cbn zeta.
    rewrite partsFrom_words by lia. done.
  - rewrite IH by lia.
    destruct (lookup_lt_is_Some_2 ws (Z.to_nat i) ltac:(lia)) as [w Hw].
    rewrite (drop_S _ _ _ Hw), (nth_lookup_Some _ _ _ _ Hw).
    replace (Z.to_nat (bs - i)) with (S (Z.to_nat (bs - (i + 1)))) by lia.
    by replace (Z.to_nat (i + 1)) with (S (Z.to_nat i)) by lia.
Qed.

(** X16.  The text of a 16-byte address in one formula: the eight words in
    hexadecimal joined by colons when no run is compressed; otherwise the
    words before the run, two colons, and the words after it, and three
    colons in place of two when the run reaches the last word. *)
Theorem toIPv6String_closed_form (u8 : list Byte.byte) :
  length u8 = 16%nat →
  let ws := toWords u8 in
  let bs := (longestRun ws).1 in
  let bl := (longestRun ws).2 in
  toIPv6String u8 =
    Some (if bs =? -1 then JS.join ":" (JS.hex <$> ws)
          else JS.join ":" (JS.hex <$> take (Z.to_nat bs) ws) +:+
               (if bs + bl =? 8 then ":::"
                else "::" +:+ JS.join ":" (JS.hex <$> drop (Z.to_nat (bs + bl)) ws))).
Proof.
  intros H16 ws. cbv zeta. unfold toIPv6String. rewrite H16. cbn [Nat.eqb negb].
  fold ws. pose proof (longestRun_range ws) as Hrange.
  destruct (longestRun ws) as [bs bl]. cbn [fst snd] in *.
  assert (Hlen : Z.of_nat (length ws) = 8).
  { unfold ws. rewrite toWords_length, H16. done. }
  assert (Hplain : ∀ l : list Z, Forall plain (JS.hex <$> l)).
  { intros l. apply Forall_fmap, Forall_forall. intros w _. apply plain_hex. }
  f_equal.
  destruct Hrange as [[Hbs Hbl]|(Hbs & Hbl & Hend)].
  - rewrite Hbs. cbn [Z.eqb].
    rewrite partsFrom_words by lia. change (Z.to_nat 0) with 0%nat. rewrite drop_0.
    assert (Hj : plain (JS.join ":" (JS.hex <$> ws))).
    { apply plain_join; [|done]. destruct ws; [done|]. done. }
    destruct Hj as (_ & Hf & Hl).
    by rewrite replaceLeadingColon_keeps, replaceTrailingColon_keeps.
  - destruct (Z.eqb_spec bs (-1)); [lia|].
    rewrite partsFrom_run by lia. rewrite Z.sub_0_r.
    change (Z.to_nat 0) with 0%nat. rewrite drop_0.
    set (A := JS.hex <$> take (Z.to_nat bs) ws).
    set (B := JS.hex <$> drop (Z.to_nat (bs + bl)) ws).
    destruct (Z.eqb_spec (bs + bl) 8) as [E8|E8].
    + assert (HB : B = []).
      { unfold B. rewrite drop_ge by lia. done. }
      rewrite HB. destruct (Z.geb_spec (bs + bl) 8); [|lia].
      cbn [app]. destruct A as [|a A'] eqn:EA; [reflexivity|].
      rewrite join_app by done.
      assert (Hj : plain (JS.join ":" (a :: A'))).
      { apply plain_join; [done|]. rewrite <- EA. apply Hplain. }
      destruct Hj as (Hne & Hf & Hl).
      rewrite replaceLeadingColon_keeps by (by rewrite firstChar_append).
      rewrite replaceTrailingColon_doubles by (by rewrite lastChar_append).
      by rewrite append_assoc.
    + destruct (Z.geb_spec (bs + bl) 8); [lia|]. cbn [app].
      assert (HB : B ≠ []).
      { unfold B. destruct (lookup_lt_is_Some_2 ws (Z.to_nat (bs + bl)) ltac:(lia)) as [w Hw].
        by rewrite (drop_S _ _ _ Hw). }
      assert (Hj : plain (JS.join ":" B)) by (apply plain_join; [done|apply Hplain]).
      destruct Hj as (Hne & Hf & Hl).
      destruct A as [|a A'] eqn:EA.
      * cbn [app]. rewrite join_cons by done.
        change (Geoip.replaceLeadingColon ("" +:+ ":" +:+ JS.join ":" B))
          with ("::" +:+ JS.join ":" B).
        rewrite replaceTrailingColon_keeps; [done|]. by rewrite lastChar_append.
      * rewrite join_app by done. rewrite (join_cons _ "" B) by done.
        assert (Hj : plain (JS.join ":" (a :: A'))).
        { apply plain_join; [done|]. rewrite <- EA. apply Hplain. }
        destruct Hj as (Hne' & Hf' & Hl').
        change (":" +:+ "" +:+ ":" +:+ JS.join ":" B) with ("::" +:+ JS.join ":" B).
        rewrite replaceLeadingColon_keeps by (by rewrite firstChar_append).
        rewrite replaceTrailingColon_keeps; [done|].
        rewrite lastChar_append by done. by rewrite lastChar_append.
Qed.

Lemma toIPv6String_closed_form_witness :
  toIPv6String ([xfe; x80] ++ repeat x00 6 ++ [x00; x01; x00; x02] ++ repeat x00 4) =
    Some "fe80::1:2:0:0".
Proof.
  exact (toIPv6String_closed_form
           ([xfe; x80] ++ repeat x00 6 ++ [x00; x01; x00; x02] ++ repeat x00 4) eq_refl).
Defined.

End AddressText.

(** ** The words of a 16-byte address *)
Section Words.
Import Geoip.

Lemma octet_range b : 0 ≤ octet b < 256.
Proof. unfold octet. pose proof (Byte.to_N_bounded b). lia. Qed.

Lemma octet_zero b : octet b = 0 → b = x00.
Proof.
  unfold octet. intros E. assert (E' : Byte.to_N b = 0%N) by lia.
  pose proof (Byte.of_to_N b) as H. rewrite E' in H. by injection H.
Qed.

(** [(hi << 8) | lo] on two bytes. *)
Lemma word_value hi lo :
  Z.lor (Z.shiftl (octet hi) 8) (octet lo) = 256 * octet hi + octet lo.
Proof.
  pose proof (octet_range hi) as Hhi. pose proof (octet_range lo) as Hlo.
  pose proof (Z.add_lor_land (Z.shiftl (octet hi) 8) (octet lo)) as Hadd.
  assert (Hland : Z.land (Z.shiftl (octet hi) 8) (octet lo) = 0).
  { apply Z.bits_inj'. intros n Hn. rewrite Z.land_spec, Z.bits_0.
    destruct (Z.lt_ge_cases n 8).
    - by rewrite Z.shiftl_spec_low.
    - rewrite andb_false_iff. right.
      destruct (Z.eq_dec (octet lo) 0) as [->|]; [apply Z.bits_0|].
      apply Z.bits_above_log2; [lia|].
      apply Z.lt_le_trans with 8; [|done]. apply Z.log2_lt_pow2; lia. }
  rewrite Hland in Hadd. rewrite Z.shiftl_mul_pow2 in * by done.
  change (2 ^ 8) with 256 in *. lia.
Qed.

(** X17.  [toWords] pairs the bytes big-endian: one word for every two
    bytes, each the first byte times 256 plus the second, so between 0 and
    65535, and zero only when both bytes are. *)
Theorem toWords_big_endian (u8 : list Byte.byte) :
  length (toWords u8) = (length u8 `div` 2)%nat ∧
  Forall (λ w, 0 ≤ w < 65536) (toWords u8) ∧
  ∀ (k : nat) (hi lo : Byte.byte),
    u8 !! (2 * k)%nat = Some hi → u8 !! (2 * k + 1)%nat = Some lo →
    toWords u8 !! k = Some (256 * octet hi + octet lo) ∧
    (256 * octet hi + octet lo = 0 ↔ hi = x00 ∧ lo = x00).
Proof.
  split; [apply toWords_length|]. split.
  - induction u8 as [u8 IH] using (induction_ltof1 _ (@length _)).
    destruct u8 as [|hi [|lo rest]]; [constructor..|].
    cbn [toWords]. constructor; [|apply IH; unfold ltof; simpl; lia].
    rewrite word_value. pose proof (octet_range hi). pose proof (octet_range lo). lia.
  - intros k hi lo Hhi Hlo. split.
    + revert u8 Hhi Hlo. induction k as [|k IH]; intros u8 Hhi Hlo.
      * destruct u8 as [|hi' [|lo' rest]]; try done.
        simpl in Hhi, Hlo. injection Hhi as ->. injection Hlo as ->.
        cbn [toWords]. by rewrite word_value.
      * destruct u8 as [|hi' [|lo' rest]]; try done.
        cbn [toWords]. rewrite lookup_cons. apply IH.
        -- by replace (2 * S k)%nat with (S (S (2 * k))) in Hhi by lia.
        -- by replace (2 * S k + 1)%nat with (S (S (2 * k + 1))) in Hlo by lia.
    + pose proof (octet_range hi). pose proof (octet_range lo). split.
      * intros E. split; apply octet_zero; lia.
      * by intros [-> ->].
Qed.

End Words.

(** ** What a group lists *)
Section Groups.
Import Geoip.

Lemma join_two_nonempty p q rest : JS.join ":" (p :: q :: rest) ≠ "".
Proof. rewrite join_cons by done. by destruct p. Qed.

Lemma toIPv4String_nonempty u8 s : toIPv4String u8 = Some s → s ≠ "".
Proof.
  unfold toIPv4String. destruct (Nat.eqb_spec (length u8) 4) as [E|]; [|done].
  intros [= <-]. destruct u8 as [|a [|b u8]]; [done..|].
  rewrite !fmap_cons. unfold JS.join; fold (@JS.join). 
  by destruct ((JS.decimal ∘ octet) a).
Qed.

Lemma replaceLeadingColon_nonempty s : s ≠ "" → replaceLeadingColon s ≠ "".
Proof.
  destruct s as [|c s]; [done|]. intros _. unfold replaceLeadingColon.
  destruct c as [[] [] [] [] [] [] [] []]; done.
Qed.

Lemma replaceTrailingColon_nonempty s : s ≠ "" → replaceTrailingColon s ≠ "".
Proof.
  intros Hs. unfold replaceTrailingColon. destruct (String.rev s) as [|c r]; [done|].
  destruct c as [[] [] [] [] [] [] [] []]; try done. by destruct s.
Qed.

Lemma parts_nonempty ws bs bl :
  (bs = -1 ∨ 2 ≤ bl) → JS.join ":" (partsFrom 8 ws bs bl 0) ≠ "".
Proof.
  intros Hrange.
  assert (Hstep : ∀ n i,
    partsFrom (S n) ws bs bl i =
      if i <? 8 then
        if i =? bs then
          "" :: (if i + bl >=? 8 then [""] else []) ++ partsFrom n ws bs bl (i + bl)
        else JS.hex (nth (Z.to_nat i) ws 0) :: partsFrom n ws bs bl (i + 1)
      else []) by done.
  rewrite (Hstep 7%nat). change (0 <? 8) with true. cbv iota.
  destruct (Z.eqb_spec 0 bs) as [<-|Hbs].
  - rewrite Z.add_0_l. destruct (Z.geb_spec bl 8).
    + apply join_two_nonempty.
    + cbn [app]. rewrite (Hstep 6%nat). destruct (Z.ltb_spec bl 8); [|lia].
      destruct (Z.eqb_spec bl 0); [lia|]. apply join_two_nonempty.
  - destruct (partsFrom 7 ws bs bl (0 + 1)) as [|q rest].
    + simpl. apply plain_hex.
    + apply join_two_nonempty.
Qed.

Lemma toIPv6String_nonempty u8 s : toIPv6String u8 = Some s → s ≠ "".
Proof.
  unfold toIPv6String. destruct (Nat.eqb_spec (length u8) 16) as [E|]; [|done].
  cbn [negb]. pose proof (longestRun_range (toWords u8)) as Hrange.
  destruct (longestRun (toWords u8)) as [bs bl]. cbn [fst snd] in Hrange.
  intros H. apply (inj Some) in H. subst s.
  apply replaceTrailingColon_nonempty, replaceLeadingColon_nonempty, parts_nonempty. lia.
Qed.

Lemma addCidr_lines acc c :
  addCidr acc c = (acc.1 ++ option_list (line4 c), acc.2 ++ option_list (line6 c)).
Proof.
  destruct acc as [v4 v6]. unfold addCidr, line4, line6. cbn [fst snd].
  destruct (Nat.eqb_spec (length (ip c)) 4) as [E4|E4].
  - assert (E6 : toIPv6String (ip c) = None).
    { unfold toIPv6String. by rewrite E4. }
    rewrite E6. cbn [fmap option_fmap option_map option_list]. rewrite app_nil_r.
    destruct (toIPv4String (ip c)) as [s|] eqn:E; cbn; [|by rewrite app_nil_r].
    apply toIPv4String_nonempty in E. unfold JS.truthy.
    by destruct (String.eqb_spec s "").
  - assert (E4' : toIPv4String (ip c) = None).
    { unfold toIPv4String. by destruct (Nat.eqb_spec (length (ip c)) 4). }
    rewrite E4'. cbn [fmap option_fmap option_map option_list]. rewrite app_nil_r.
    destruct (Nat.eqb_spec (length (ip c)) 16) as [E6|E6].
    + destruct (toIPv6String (ip c)) as [s|] eqn:E; cbn; [|by rewrite app_nil_r].
      apply toIPv6String_nonempty in E. unfold JS.truthy.
      by destruct (String.eqb_spec s "").
    + unfold toIPv6String. destruct (Nat.eqb_spec (length (ip c)) 16); [done|].
      cbn. by rewrite app_nil_r.
Qed.

Lemma foldl_addCidr cidrs acc :
  foldl addCidr acc cidrs = (acc.1 ++ omap line4 cidrs, acc.2 ++ omap line6 cidrs).
Proof.
  revert acc. induction cidrs as [|c cidrs IH]; intros acc; simpl.
  - rewrite !app_nil_r. by destruct acc.
  - rewrite IH, addCidr_lines. cbn [fst snd]. rewrite <- !app_assoc.
    by destruct (line4 c), (line6 c).
Qed.

Lemma line4_length c : is_Some (line4 c) ↔ length (ip c) = 4%nat.
Proof.
  unfold line4, toIPv4String. rewrite fmap_is_Some.
  destruct (Nat.eqb_spec (length (ip c)) 4); cbn; split; done.
Qed.

Lemma line6_length c : is_Some (line6 c) ↔ length (ip c) = 16%nat.
Proof.
  unfold line6, toIPv6String. rewrite fmap_is_Some.
  destruct (Nat.eqb_spec (length (ip c)) 16); cbn [negb]; split; try done.
  intros _. by destruct (longestRun _).
Qed.

Lemma omap_length_filter {A B} (f : A → option B) (P : A → Prop) `{!∀ x, Decision (P x)}
    (l : list A) :
  (∀ x, is_Some (f x) ↔ P x) → length (omap f l) = length (filter P l).
Proof.
  intros Hf. induction l as [|x l IH]; [done|]. cbn [omap list_omap].
  rewrite filter_cons. destruct (decide (P x)) as [HP|HP].
  - apply Hf in HP as [y ->]. simpl. by rewrite IH.
  - destruct (f x) eqn:E; [|done]. destruct HP. apply Hf. by rewrite E.
Qed.

(** X18.  A group's document lists every CIDR of a supported length, and
    only those: [cidr4] holds the lines of the 4-byte addresses and [cidr6]
    those of the 16-byte addresses, reordered; the printers never return the
    empty text, so the tests [if (s)] drop nothing. *)
Theorem supported_cidrs_all_listed (C : JS.Collator) (name : string) (cidrs : list CIDR) :
  let g := toGroup C name cidrs in
  Geoip.name g = name ∧
  cidr4 g ≡ₚ omap line4 cidrs ∧
  cidr6 g ≡ₚ omap line6 cidrs ∧
  length (cidr4 g) = length (filter (λ c, length (ip c) = 4%nat) cidrs) ∧
  length (cidr6 g) = length (filter (λ c, length (ip c) = 16%nat) cidrs) ∧
  (∀ u8 s, toIPv4String u8 = Some s ∨ toIPv6String u8 = Some s → JS.truthy s = true).
Proof.
  intros g. unfold g, toGroup. rewrite foldl_addCidr. cbn [fst snd app Geoip.name cidr4 cidr6].
  assert (H4 : JS.sort (JS.numeric C) (omap line4 cidrs) ≡ₚ omap line4 cidrs) by apply sort_perm.
  assert (H6 : JS.sort (JS.base C) (omap line6 cidrs) ≡ₚ omap line6 cidrs) by apply sort_perm.
  split; [done|]. split; [done|]. split; [done|]. split; [|split].
  - rewrite H4. apply omap_length_filter, line4_length.
  - rewrite H6. apply omap_length_filter, line6_length.
  - intros u8 s Hs. unfold JS.truthy.
    destruct (String.eqb_spec s "") as [->|]; [|done].
    destruct Hs as [Hs|Hs]; [by apply toIPv4String_nonempty in Hs|
                              by apply toIPv6String_nonempty in Hs].
Qed.

End Groups.

(** ** What the geoip script writes *)
Section GeoipOutput.
Import Geoip.

Lemma foldl_visit_groups C entries written :
  foldl (visit C) written entries =
    written ++ ((λ g, (Geoip.name g +:+ ".json", g)) <$> omap (groupOf C) entries).
Proof.
  revert written. induction entries as [|g entries IH]; intros written; simpl.
  - by rewrite app_nil_r.
  - rewrite IH. unfold visit, groupOf.
    destruct (JS.truthy _) eqn:E; [|done].
    rewrite <- app_assoc. simpl. do 3 f_equal.
    unfold toGroup. by destruct (foldl addCidr _ _).
Qed.

(** X19.  The files and the index of a run of the geoip script agree: one
    file per entry that has a name, in the order of the entries, called after
    the group it holds, none with an empty name; the index has each name
    other than [__proto__] once, linked to its address, the names that are
    array indices first. *)
Theorem geoip_outputs_agree (C : JS.Collator) (entries : list GeoIP) :
  let out := main C entries in
  let names := Geoip.name <$> omap (groupOf C) entries in
  (files out).*2 = omap (groupOf C) entries ∧
  (files out).*1 = (λ n, n +:+ ".json") <$> names ∧
  Forall (λ n, n ≠ "") names ∧
  NoDup (index out).*1 ∧
  (∀ n, n ∈ (index out).*1 ↔ n ∈ names ∧ n ≠ "__proto__") ∧
  Forall (λ kv, kv.2 = link kv.1) (index out) ∧
  StronglySorted keyBefore (index out).*1.
Proof.
  intros out names. unfold out, main. cbn [files index].
  rewrite foldl_visit_groups, app_nil_l.
  set (groups := omap (groupOf C) entries) in *.
  assert (E1 : ((λ g, (Geoip.name g +:+ ".json", g)) <$> groups).*1 =
               (λ n, n +:+ ".json") <$> names).
  { unfold names. by rewrite <- !list_fmap_compose. }
  assert (E2 : ((λ g, (Geoip.name g +:+ ".json", g)) <$> groups).*2 = groups).
  { clear. induction groups as [|g l IH]; [done|]. rewrite !fmap_cons. cbn [snd]. by rewrite IH. }
  assert (E3 : (λ f : string * Group, Geoip.name f.2) <$>
                 ((λ g, (Geoip.name g +:+ ".json", g)) <$> groups) = names).
  { unfold names. by rewrite <- list_fmap_compose. }
  rewrite E3.
  destruct (assigned_keys link (JS.sort (JS.base C) names)) as (H1 & H2 & H3 & Hs & _).
  split; [done|]. split; [done|]. split.
  - apply Forall_fmap, Forall_forall. intros g Hg.
    apply list_elem_of_omap in Hg as (e & _ & Hg). unfold groupOf in Hg.
    destruct (JS.truthy _) eqn:E; [|done]. injection Hg as <-.
    unfold toGroup. destruct (foldl addCidr _ _). simpl.
    unfold JS.truthy in E. intros Heq. by rewrite Heq in E.
  - split; [done|]. split; [|by split].
    intros n. rewrite H2. by rewrite sort_perm.
Qed.

End GeoipOutput.

(** ** First failures and sorted sublists *)
Section Failures.

(** A list either passes a test throughout or has a first element that fails it. *)
Lemma first_failure {A} (f : A → bool) (l : list A) :
  Forall (λ x, f x = true) l ∨
  ∃ pre x post, l = pre ++ x :: post ∧ Forall (λ x, f x = true) pre ∧ f x = false.
Proof.
  induction l as [|x l IH]; [by left|].
  destruct (f x) eqn:E.
  - destruct IH as [IH|(pre & y & post & -> & Hpre & Hy)].
    + left. by constructor.
    + right. exists (x :: pre), y, post. split; [done|]. split; [by constructor|done].
  - right. by exists [], x, l.
Qed.

Lemma StronglySorted_sublist {A} (R : relation A) (l k : list A) :
  l `sublist_of` k → StronglySorted R k → StronglySorted R l.
Proof.
  induction 1 as [|x l k Hsub IH|x l k Hsub IH]; intros Hk; [done|..].
  - apply StronglySorted_inv in Hk as [Hk Hx]. constructor; [by apply IH|].
    rewrite Forall_forall in *. intros y Hy. apply Hx. by apply (elem_of_sublist l k).
  - apply StronglySorted_inv in Hk as [Hk _]. by apply IH.
Qed.

Lemma StronglySorted_on {A B} (cmp : B → B → comparison) (g : A → B) (l : list A) :
  StronglySorted (le_by (λ a b, cmp (g a) (g b))) l → StronglySorted (le_by cmp) (g <$> l).
Proof.
  induction 1 as [|x l _ IH Hx]; [constructor|].
  rewrite fmap_cons. constructor; [done|]. by apply Forall_fmap.
Qed.

End Failures.

(** ** The publisher from its plan on *)
Section PublisherMain.
Import SyncR2.

Lemma putFailed_putOf puts bucket (l : list Item) :
  Forall (λ it, puts (key it) = true) l →
  Forall (λ e, putFailed puts e = false) (putOf bucket <$> l).
Proof.
  intros H. apply Forall_fmap. eapply Forall_impl; [done|].
  intros it Hit. simpl. by rewrite Hit.
Qed.

(** What [uploadPlan] returns or throws, and the puts that failed. *)
Lemma uploadPlan_failures puts sched setting dryRun now bucket manifestKey localPlan
    remoteManifest :
  let run :=
    uploadPlan puts sched setting dryRun now bucket manifestKey localPlan remoteManifest in
  (∃ returned, run.2 = Returned returned) ∧ Forall (λ e, putFailed puts e = false) run.1 ∨
  (∃ k, run.2 = Thrown k) ∧ dryRun = false ∧ Exists (λ e, putFailed puts e = true) run.1.
Proof.
  intros run. unfold run, uploadPlan.
  set (changed := changedOf (remoteEntriesOf remoteManifest) localPlan).
  destruct (Nat.eqb_spec (length changed) 0); [left; split; [by eexists|done]|].
  destruct dryRun.
  - rewrite uploadAll_dry. left. split; [by eexists|]. cbn [fst]. apply Forall_app. split.
    + by apply Forall_fmap, Forall_forall.
    + repeat constructor.
  - destruct (uploadAll_spec puts changed sched (CONCURRENCY setting) bucket
                (CONCURRENCY_pos setting)) as (m & Hm & Heff & Hnone & Hsome).
    destruct (uploadAll puts sched (CONCURRENCY setting) false bucket changed)
      as [effects [k|]]; cbn [fst snd] in *; subst effects.
    + right. split; [by eexists|]. split; [done|].
      destruct (Hsome k eq_refl) as (i & it & Hit & <- & Hk & Hlt & _).
      apply Exists_exists. exists (putOf bucket it). split; [|simpl; by rewrite Hk].
      apply list_elem_of_fmap_2, (list_elem_of_lookup_2 _ i).
      by rewrite lookup_take_lt.
    + destruct (Hnone eq_refl) as [-> Hall]. rewrite firstn_all.
      destruct (puts manifestKey) eqn:Hmk; cbn [fst snd].
      * left. split; [by eexists|]. apply Forall_app. split; [by apply putFailed_putOf|].
        repeat constructor. simpl. by rewrite Hmk.
      * right. split; [by eexists|]. split; [done|].
        apply Exists_app. right. apply Exists_cons. right. apply Exists_cons. left.
        simpl. by rewrite Hmk.
Qed.

(** X20.  The exit status of the publisher, the temporary file being
    written without error: it is 1 exactly when [getBucketName] threw, or
    [buildLocalPlan] threw, or wrangler failed a put the run had handed to
    it, of an item or of the manifest; otherwise it is 0.  So a dry run that
    has its bucket and its plan ends with 0, and so does a run with an empty
    plan, which does nothing. *)
Theorem exit_status_tells_failed_put (collate : string → string → comparison)
    (puts : string → bool) (sched : list nat) (setting : nat) (dryRun : bool) (now : Z)
    (bucket : option string) (manifestKey : string)
    (plan : option (list Item)) (download : option (option Manifest)) :
  let run := main collate puts sched setting dryRun now bucket manifestKey plan download in
  (run.2 = 0 ∨ run.2 = 1) ∧
  (run.2 = 1 ↔
   bucket = None ∨ plan = None ∨ Exists (λ e, putFailed puts e = true) run.1) ∧
  (dryRun = true → Forall (λ e, putFailed puts e = false) run.1) ∧
  (plan = Some [] → is_Some bucket → run = ([], 0)).
Proof.
  intros run.
  assert (Hnot : ∀ l, Forall (λ e, putFailed puts e = false) l →
                      ¬ Exists (λ e, putFailed puts e = true) l).
  { intros l Hall Hex. apply Exists_exists in Hex as (e & He & Hf).
    rewrite Forall_forall in Hall. rewrite (Hall e He) in Hf. done. }
  unfold run, main. destruct bucket as [bucket|]; cbn [fst snd].
  2: { split; [by right|]. split; [split; [by left|done]|]. split; [by constructor|].
       by intros _ [? [=]]. }
  destruct plan as [plan|]; cbn [fst snd].
  2: { split; [by right|]. split; [split; [by right; left|done]|]. by split. }
  destruct (Nat.eqb_spec (length plan) 0) as [E|E].
  { split; [by left|]. split; [|by split].
    split; [done|]. intros [?|[?|Hex]]; [done|done|]. by apply Exists_nil in Hex. }
  pose proof (uploadPlan_failures puts sched setting dryRun now bucket manifestKey
                (JS.sort (λ a b, collate (key a) (key b)) plan)
                (fetchRemoteManifest download)) as H. cbv zeta in H.
  destruct (uploadPlan _ _ _ _ _ _ _ _ _) as [effects [returned|k]]; cbn [fst snd] in *.
  - destruct H as [[_ Hall]|[[k [=]] _]].
    split; [by left|]. split; [|split; [done|]].
    + split; [done|]. intros [?|[?|Hex]]; [done|done|]. by destruct (Hnot _ Hall).
    + intros [= ->]. done.
  - destruct H as [[[r [=]] _]|(_ & -> & Hex)].
    split; [by right|]. split; [|split; [done|]].
    + split; [by right; right|done].
    + intros [= ->]. done.
Qed.

Lemma putKeys_putOf bucket (l : list Item) : putKeys (putOf bucket <$> l) = key <$> l.
Proof.
  induction l as [|it l IH]; [done|].
  change (putKeys (putOf bucket <$> it :: l)) with (key it :: putKeys (putOf bucket <$> l)).
  by rewrite IH.
Qed.

Lemma putKeys_dry (l : list Item) : putKeys (DryPut ∘ key <$> l) = key <$> l.
Proof.
  induction l as [|it l IH]; [done|].
  change (putKeys (DryPut ∘ key <$> it :: l)) with (key it :: putKeys (DryPut ∘ key <$> l)).
  by rewrite IH.
Qed.

Lemma changedOf_sublist remoteEntries plan : changedOf remoteEntries plan `sublist_of` plan.
Proof.
  unfold changedOf. induction plan as [|it plan IH]; simpl; [done|].
  destruct (isChanged remoteEntries it); by constructor.
Qed.

(** The keys put by [uploadPlan] are keys of changed items, in the order of
    the plan. *)
Lemma uploadPlan_putKeys puts sched setting dryRun now bucket manifestKey localPlan
    remoteManifest :
  putKeys (uploadPlan puts sched setting dryRun now bucket manifestKey localPlan
             remoteManifest).1
    `sublist_of` key <$> changedOf (remoteEntriesOf remoteManifest) localPlan.
Proof.
  unfold uploadPlan. set (changed := changedOf _ localPlan).
  destruct (Nat.eqb_spec (length changed) 0); [apply sublist_nil_l|].
  assert (E : ∀ (l : list Effect) tail, putKeys tail = [] → putKeys (l ++ tail) = putKeys l).
  { intros l tail Ht. unfold putKeys in *. by rewrite omap_app, Ht, app_nil_r. }
  destruct dryRun.
  - rewrite uploadAll_dry. cbn [fst]. by rewrite E, putKeys_dry.
  - destruct (uploadAll_spec puts changed sched (CONCURRENCY setting) bucket
                (CONCURRENCY_pos setting)) as (m & Hm & Heff & _ & _).
    assert (Hsub : putKeys (putOf bucket <$> take m changed) `sublist_of` key <$> changed).
    { rewrite putKeys_putOf. apply fmap_sublist, sublist_take. }
    destruct (uploadAll puts sched (CONCURRENCY setting) false bucket changed)
      as [effects [k|]]; cbn [fst snd] in *; subst effects; [done|].
    destruct (puts manifestKey); cbn [fst]; by rewrite E.
Qed.

(** X21.  The publisher puts in key order: under a consistent collation
    the keys put in a run, each a key of the plan, come in the order of the
    collation, whatever the order in which the files were found. *)
Theorem uploads_in_key_order (collate : string → string → comparison)
    (puts : string → bool) (sched : list nat) (setting : nat) (dryRun : bool) (now : Z)
    (bucket manifestKey : string)
    (plan : list Item) (download : option (option Manifest)) :
  JS.Consistent collate →
  let run :=
    main collate puts sched setting dryRun now (Some bucket) manifestKey (Some plan)
      download in
  StronglySorted (le_by collate) (putKeys run.1) ∧
  ∀ k, k ∈ putKeys run.1 → k ∈ key <$> plan.
Proof.
  intros Hc run.
  set (sorted := JS.sort (λ a b, collate (key a) (key b)) plan).
  assert (Hsub : putKeys run.1 `sublist_of` key <$> sorted).
  { unfold run, main. destruct (Nat.eqb_spec (length plan) 0); [apply sublist_nil_l|].
    fold sorted.
    pose proof (uploadPlan_putKeys puts sched setting dryRun now bucket manifestKey sorted
                  (fetchRemoteManifest download)) as H.
    destruct (uploadPlan _ _ _ _ _ _ _ sorted _) as [effects [?|?]]; cbn [fst] in *;
      (etrans; [exact H|]); apply fmap_sublist, changedOf_sublist. }
  split.
  - apply (StronglySorted_sublist _ _ _ Hsub).
    apply StronglySorted_on.
    apply (sort_sorted_consistent _ plan (consistent_on collate key Hc)).
  - intros k Hk. apply (elem_of_sublist _ _ _ Hk) in Hsub as Hk'. clear Hk. rename Hk' into Hk.
    unfold sorted in Hk. by rewrite sort_perm in Hk.
Qed.

Lemma uploads_in_key_order_witness :
  let b := {| file := "dist/srs/b.srs"; key := "geosite/b.srs"; size := 2;
              sha256 := "0b"; contentType := "application/octet-stream" |} in
  let a := {| file := "dist/srs/a.srs"; key := "geosite/a.srs"; size := 1;
              sha256 := "0a"; contentType := "application/octet-stream" |} in
  StronglySorted (le_by String.compare)
    (putKeys (main String.compare (λ _, true) [] 6%nat false 7 (Some "bucket")
                "manifests/geosite.json" (Some [b; a]) None).1).
Proof.
  intros b a.
  exact (proj1 (uploads_in_key_order String.compare (λ _, true) [] 6%nat false 7 "bucket"
                  "manifests/geosite.json" [b; a] None compare_consistent)).
Defined.

End PublisherMain.

(** ** The exit status of the two rule-set builds *)
Section BuildOutcomes.

(** X22.  The exit status of the geosite rule-set build tells whether a
    compilation failed: it is 0 exactly when sing-box compiled every task,
    and then every task was written and compiled and counted; it is 1 when
    some task failed, and then the run stopped at the first such task and
    reported no count. *)
Theorem geosite_build_exit_status (C : JS.Collator) (compiles : string → bool)
    (filters : list (option string)) (categories : list (string * list Srs.Rule)) :
  let tasks := Srs.tasks C filters categories in
  let run := Srs.main C compiles filters categories in
  Srs.exitCode run = 0 ∧
    Forall (λ t, compiles (Srs.outPath t) = true) tasks ∧
    Srs.effects run = tasks ≫= attempt ∧
    Srs.generated run = Some (Z.of_nat (length tasks)) ∨
  Srs.exitCode run = 1 ∧
    Srs.generated run = None ∧
    ∃ pre t post, tasks = pre ++ t :: post ∧
      Forall (λ t', compiles (Srs.outPath t') = true) pre ∧
      compiles (Srs.outPath t) = false ∧
      Srs.effects run = (pre ≫= attempt) ++ attempt t.
Proof.
  intros tasks run. unfold run, Srs.main. fold tasks.
  destruct (first_failure (compiles ∘ Srs.outPath) tasks)
    as [Hok|(pre & t & post & Htasks & Hpre & Ht)].
  - left. by rewrite (compileAll_succeeds compiles tasks 0 Hok).
  - right. rewrite Htasks, (compileAll_stops compiles pre t post 0 Hpre Ht).
    split; [done|]. split; [done|]. by exists pre, t, post.
Qed.

(** X23.  The geoip rule-set build ends with status 0 and reports every
    task as generated whatever the compiler did: a task sing-box failed has
    its rejection in [results], and is counted all the same. *)
Theorem geoip_build_counts_failures (C : JS.Collator) (compiles : string → bool)
    (concurrency : nat) (sched : list nat) (groups : list (string * GeoipSrs.Data))
    (run : GeoipSrs.Run) :
  (1 ≤ concurrency)%nat →
  GeoipSrs.main C compiles concurrency sched groups = Some run →
  GeoipSrs.exitCode run = 0 ∧
  (groups ≠ [] →
   GeoipSrs.generated run = length (GeoipSrs.tasks C groups) ∧
   ∀ idx t, GeoipSrs.tasks C groups !! idx = Some t →
     GeoipSrs.results (GeoipSrs.pool run) !! idx =
       Some (if compiles (GeoipSrs.outPath t) then GeoipSrs.Fulfilled
             else GeoipSrs.Rejected (GeoipSrs.outPath t))).
Proof.
  intros Hc. unfold GeoipSrs.main.
  destruct (Nat.eqb_spec (length groups) 0) as [E|E].
  - intros [= <-]. split; [done|]. intros Hne. by apply nil_length_inv in E.
  - destruct (GeoipSrs.runPool _ _ _ _) as [p|] eqn:Hrun; [|done].
    intros [= <-]. split; [done|]. intros _. split; [done|].
    destruct (runPool_complete _ _ _ _ _ Hc Hrun) as (_ & _ & Hres & _).
    intros idx t Ht. cbn [GeoipSrs.pool]. by rewrite (Hres idx t Ht).
Qed.

Lemma geoip_build_counts_failures_witness :
  let data := {| GeoipSrs.cidr4 := Some ["10.0.0.0/8"]; GeoipSrs.cidr6 := Some [] |} in
  ∃ run,
    GeoipSrs.main JS.ascii_collator (λ _, false) 1 [0; 0; 0; 0; 0]%nat [("lan", data)] =
      Some run ∧
    GeoipSrs.exitCode run = 0 ∧ GeoipSrs.generated run = 2%nat ∧
    GeoipSrs.results (GeoipSrs.pool run) !! 0%nat = Some (GeoipSrs.Rejected "lan.srs").
Proof.
  intros data.
  destruct (GeoipSrs.main JS.ascii_collator (λ _, false) 1 [0; 0; 0; 0; 0]%nat [("lan", data)])
    as [run|] eqn:Hmain; [|by vm_compute in Hmain].
  destruct (geoip_build_counts_failures JS.ascii_collator (λ _, false) 1 [0; 0; 0; 0; 0]%nat
              [("lan", data)] run ltac:(lia) Hmain) as (Hexit & Hrest).
  destruct (Hrest ltac:(done)) as (Hgen & Hres).
  exists run. split; [done|]. split; [done|]. split; [done|].
  exact (Hres 0%nat _ eq_refl).
Defined.

End BuildOutcomes.

(** ** The attribute filter and letter case *)
Section FilterCase.
Import Srs.

Lemma target_lower f : target (Some (JS.toLowerCase f)) = target (Some f).
Proof. unfold target. by rewrite toLowerCase_idem. Qed.

Lemma skipped_lower f r : skipped (Some (JS.toLowerCase f)) r = skipped (Some f) r.
Proof.
  unfold skipped, key_given, has, key, neg. by rewrite target_lower.
Qed.

Lemma lowered_attrs_lowered r : lowered_attrs (lowered r) = lowered_attrs r.
Proof.
  unfold lowered, lowered_attrs. cbn [attrs]. destruct (attrs r) as [l|]; [|done].
  rewrite <- list_fmap_compose. apply list_fmap_ext. intros _ a _. apply toLowerCase_idem.
Qed.

Lemma skipped_lowered filter r : skipped filter (lowered r) = skipped filter r.
Proof. unfold skipped, has. by rewrite lowered_attrs_lowered. Qed.

Lemma foldl_pointwise {A B} (f g : A → B → A) (l : list B) (a : A) :
  (∀ a b, f a b = g a b) → foldl f a l = foldl g a l.
Proof.
  intros H. revert a. induction l as [|b l IH]; intros a; simpl; [done|].
  by rewrite H, IH.
Qed.

(** X24.  The attribute filter ignores case on both sides: a filter and
    its lower-case form pass the same rules and give the same headless rule,
    and so do a rule and the rule with its attributes in lower case. *)
Theorem filter_ignores_case (f : string) (filter : option string) (r : Rule)
    (rules : list Rule) :
  passes (Some (JS.toLowerCase f)) r = passes (Some f) r ∧
  passes filter (lowered r) = passes filter r ∧
  toHeadlessRule rules (Some (JS.toLowerCase f)) = toHeadlessRule rules (Some f) ∧
  toHeadlessRule (lowered <$> rules) filter = toHeadlessRule rules filter.
Proof.
  split; [unfold passes; by rewrite skipped_lower|].
  split; [unfold passes; by rewrite skipped_lowered|].
  split.
  - unfold toHeadlessRule, aggregate. do 2 f_equal. apply foldl_pointwise.
    intros agg r'. unfold visit. by rewrite skipped_lower.
  - unfold toHeadlessRule, aggregate. do 2 f_equal. rewrite foldl_fmap.
    apply foldl_pointwise. intros agg r'. unfold visit. by rewrite skipped_lowered.
Qed.

End FilterCase.

(** ** The text of a 4-byte address *)
Section DottedQuad.
Import Geoip.

Lemma decimal_inj n m : JS.decimal n = JS.decimal m → n = m.
Proof.
  unfold JS.decimal. intros E.
  assert (Hnn : ∀ k, Z.to_int k ≠ Decimal.Pos Decimal.Nil ∧ Z.to_int k ≠ Decimal.Neg Decimal.Nil).
  { intros [|p|p]; simpl; split; try done; intros [= H];
      by apply DecimalPos.Unsigned.to_uint_nonnil in H. }
  apply DecimalZ.to_int_inj.
  pose proof (DecimalString.NilZero.isi (Z.to_int n) (proj1 (Hnn n)) (proj2 (Hnn n))) as Hn.
  pose proof (DecimalString.NilZero.isi (Z.to_int m) (proj1 (Hnn m)) (proj2 (Hnn m))) as Hm.
  rewrite E, Hm in Hn. by injection Hn.
Qed.

Lemma octet_inj a b : octet a = octet b → a = b.
Proof.
  unfold octet. intros E. assert (E' : Byte.to_N a = Byte.to_N b) by lia.
  pose proof (Byte.of_to_N a) as Ha. rewrite E', Byte.of_to_N in Ha. by injection Ha.
Qed.

Lemma dotFree_octet b : dotFree (JS.decimal (octet b)) = true.
Proof. destruct b; reflexivity. Qed.

(** A text up to its first dot, and the text after it. *)
Lemma first_dot_inj a a' r r' :
  dotFree a = true → dotFree a' = true →
  a +:+ "." +:+ r = a' +:+ "." +:+ r' → a = a' ∧ r = r'.
Proof.
  revert a'. induction a as [|c a IH]; intros [|c' a'] Ha Ha' E.
  - by injection E.
  - injection E as <- _. done.
  - injection E as -> _. done.
  - injection E as -> E. unfold dotFree in Ha, Ha'. simpl in Ha, Ha'.
    apply andb_true_iff in Ha as [_ Ha]. apply andb_true_iff in Ha' as [_ Ha'].
    destruct (IH a' Ha Ha' E) as [-> ->]. done.
Qed.

(** X25.  Different 4-byte addresses get different texts: the dotted text
    determines the four bytes. *)
Theorem toIPv4String_injective (a b : list Byte.byte) (s : string) :
  toIPv4String a = Some s → toIPv4String b = Some s → a = b.
Proof.
  unfold toIPv4String.
  destruct (Nat.eqb_spec (length a) 4) as [Ha|]; [|done].
  destruct (Nat.eqb_spec (length b) 4) as [Hb|]; [|done].
  destruct a as [|a1 [|a2 [|a3 [|a4 [|]]]]]; try done.
  destruct b as [|b1 [|b2 [|b3 [|b4 [|]]]]]; try done.
  cbn [negb]. intros [= <-] [= E].
  apply first_dot_inj in E as [E1 E]; [|apply dotFree_octet..].
  apply first_dot_inj in E as [E2 E]; [|apply dotFree_octet..].
  apply first_dot_inj in E as [E3 E4]; [|apply dotFree_octet..].
  apply decimal_inj, octet_inj in E1, E2, E3, E4. by subst.
Qed.

Lemma toIPv4String_injective_witness :
  toIPv4String [x0a; x00; x00; x01] = Some "10.0.0.1" ∧
  ([x0a; x00; x00; x01] : list Byte.byte) = [x0a; x00; x00; x01].
Proof.
  split; [reflexivity|].
  exact (toIPv4String_injective [x0a; x00; x00; x01] [x0a; x00; x00; x01] "10.0.0.1"
           eq_refl eq_refl).
Defined.

End DottedQuad.
